(** * Release-notes mention migration: substitution engine, backups, update and restore

    A shallow embedding of the helpers ([updateUsernamesInReleaseNotes],
    [getAllReleases], [createBackup], [createBackupIndex]), of the update
    orchestrator ([updateRelease], [processRepositoryReleases]) and of the
    restore tool ([listAvailableBackups], [restoreRelease],
    [restoreRepositoryFromBackup], [main]).

    JavaScript strings are kept as lists of characters, [null] and
    [undefined] as [None].  Console output and the rate-limit delays have no
    effect on the results studied here and are left out. *)

From Stdlib Require Import Ascii String.
From Stdlib Require Import List Bool Arith ZArith NArith Lia.
From Equations Require Import Equations.
Import ListNotations.

(** ** Strings *)

Definition jsstring := list ascii.

(** Literals are written [str "text"]. *)
Definition str (s : string) : jsstring := list_ascii_of_string s.

Definition jsstring_eqb (a b : jsstring) : bool :=
  if list_eq_dec ascii_dec a b then true else false.

Definition opt_eqb (a b : option jsstring) : bool :=
  match a, b with
  | None, None => true
  | Some x, Some y => jsstring_eqb x y
  | _, _ => false
  end.

(** [s.split(sep)] for a one-character separator: never empty, the empty
    string splits into one empty piece. *)
Fixpoint split (sep : ascii) (s : jsstring) : list jsstring :=
  match s with
  | [] => [[]]
  | c :: s' =>
      if Ascii.eqb c sep then [] :: split sep s'
      else match split sep s' with
           | h :: t => (c :: h) :: t
           | [] => [[c]]
           end
  end.

(** [strip_prefix p t] is [Some rest] when [t = p ++ rest]. *)
Fixpoint strip_prefix (p t : jsstring) : option jsstring :=
  match p, t with
  | [], _ => Some t
  | a :: p', b :: t' => if Ascii.eqb a b then strip_prefix p' t' else None
  | _ :: _, [] => None
  end.

Definition starts_with (p t : jsstring) : bool :=
  match strip_prefix p t with Some _ => true | None => false end.

(** [s.endsWith(p)] *)
Definition endsWith (s p : jsstring) : bool := starts_with (rev p) (rev s).

(** The class [\w] of a RegExp without the unicode and ignore-case flags:
    [A-Za-z0-9_]. *)
Definition is_word (c : ascii) : bool :=
  let n := nat_of_ascii c in
  ((65 <=? n) && (n <=? 90)) || ((97 <=? n) && (n <=? 122))
  || ((48 <=? n) && (n <=? 57)) || (n =? 95).

Definition is_word_opt (c : option ascii) : bool :=
  match c with Some a => is_word a | None => false end.

(** [\b] between two neighbouring positions; the ends of the input count as
    non-word. *)
Definition word_boundary (prev next : option ascii) : bool :=
  xorb (is_word_opt prev) (is_word_opt next).

(** ** The text substitution engine *)

(** One attempt of the pattern [@old(?!-guard)\b] at the head of [t]: the
    text after the match when it succeeds.  The RegExp is built by
    interpolating the handles into its source; the embedding reads them
    literally, which is what the RegExp does for handles written with
    letters, digits, [_] and [-] (see [handle], and
    [regexp_agrees_on_handles] for the proof).  Outside these handles the
    source is read as a pattern: see [RegExp]. *)
Definition exec_at (old guard t : jsstring) : option jsstring :=
  match strip_prefix ("@"%char :: old) t with
  | Some rest =>
      if starts_with ("-"%char :: guard) rest then None
      else if word_boundary (Some (last old "@"%char)) (hd_error rest)
           then Some rest else None
  | None => None
  end.

Definition inspect {A : Type} (a : A) : {b : A | a = b} := exist _ a eq_refl.

(** [text.replace(new RegExp(..., 'g'), repl)]: the matches are looked for
    from left to right, each search resuming where the previous match
    ended. *)
Equations replace_all (old guard repl t : jsstring) : jsstring
  by wf (length t) lt :=
  replace_all old guard repl [] := [];
  replace_all old guard repl (c :: t') with inspect (exec_at old guard (c :: t')) := {
    | exist _ (Some rest) _ => repl ++ replace_all old guard repl rest
    | exist _ None _ => c :: replace_all old guard repl t' }.
Next Obligation.
  clear replace_all.
  match goal with H : exec_at _ _ _ = Some _ |- _ => rename H into E end.
  unfold exec_at in E; cbn [strip_prefix] in E.
  destruct (Ascii.eqb "@" c); [|discriminate].
  destruct (strip_prefix old t') as [r|] eqn:S; [|discriminate].
  assert (L : length r <= length t').
  { clear E. revert t' S.
    induction old as [|a p IH]; intros [|b t] S; simpl in S; try discriminate.
    - injection S as <-. apply le_n.
    - injection S as <-. apply le_n.
    - destruct (Ascii.eqb a b); [|discriminate].
      simpl. apply le_S. now apply IH. }
  destruct (starts_with _ r); [discriminate|].
  destruct (word_boundary _ _); [|discriminate].
  injection E as <-. simpl. apply le_n_S, L.
Qed.

(** The username mapping as [Object.entries] lists it: the pairs of an old
    and a new handle, in iteration order. *)
Definition mapping := list (jsstring * jsstring).

(** [newUsername.split('-').slice(-1)[0]] *)
Definition last_segment (newUsername : jsstring) : jsstring :=
  last (split "-"%char newUsername) [].

Definition updateUsernamesInReleaseNotes
  (body : option jsstring) (usernameMapping : mapping) : option jsstring :=
  match body with
  | None => None
  | Some [] => Some []
  | Some b =>
      Some (fold_left
              (fun updatedBody '(oldUsername, newUsername) =>
                 replace_all oldUsername (last_segment newUsername)
                   ("@"%char :: newUsername) updatedBody)
              usernameMapping b)
  end.

(** ** The pattern as RegExp reads it

    [new RegExp(source, 'g')] parses the interpolated source, so a character
    of a handle that has a meaning in a pattern is read with that meaning.
    This module reads the source as RegExp does, for the sources made of
    characters that stand for themselves, [|], [(?!...)] and [\b]; on
    handles written with letters, digits, [_] and [-] it gives what the
    literal reading above gives. *)
Module RegExp.

(** The SyntaxCharacters of a pattern. *)
Definition syntax_character (c : ascii) : bool :=
  existsb (Ascii.eqb c) (str "^$\.*+?()[]{}|").

Inductive pattern :=
| Empty
| Char (c : ascii)
| Seq (p q : pattern)
| Alt (p q : pattern)
| NegativeLookahead (p : pattern)
| WordBoundary.

(** A disjunction while it is read: the alternatives closed by [|] and the
    terms of the current alternative, the latest first in both. *)
Record frame := mk_frame {
  closed : list pattern;
  terms : list pattern
}.

Definition alternative (terms : list pattern) : pattern :=
  fold_left (fun rest term => Seq term rest) terms Empty.

Definition disjunction (f : frame) : pattern :=
  fold_left (fun rest a => Alt a rest) (closed f) (alternative (terms f)).

(** The pattern of a source; [None] for a source that RegExp rejects or
    that uses syntax outside the fragment read here. [stack] holds the
    disjunctions around the lookahead being read. *)
Fixpoint parse (stack : list frame) (cur : frame) (source : jsstring)
  : option pattern :=
  match source with
  | [] =>
      match stack with
      | [] => Some (disjunction cur)
      | _ :: _ => None
      end
  | "|"%char :: s' =>
      parse stack (mk_frame (alternative (terms cur) :: closed cur) []) s'
  | "\"%char :: "b"%char :: s' =>
      parse stack (mk_frame (closed cur) (WordBoundary :: terms cur)) s'
  | "("%char :: "?"%char :: "!"%char :: s' =>
      parse (cur :: stack) (mk_frame [] []) s'
  | ")"%char :: s' =>
      match stack with
      | [] => None
      | outer :: stack' =>
          parse stack'
            (mk_frame (closed outer)
               (NegativeLookahead (disjunction cur) :: terms outer)) s'
      end
  | c :: s' =>
      if syntax_character c then None
      else parse stack (mk_frame (closed cur) (Char c :: terms cur)) s'
  end.

(** The backtracking matcher: [k] is what remains to be matched after [p];
    [prev] is the character before the position, [s] the text from the
    position on. *)
Fixpoint matches (X : Type) (p : pattern) (prev : option ascii) (s : jsstring)
  (k : option ascii -> jsstring -> option X) : option X :=
  match p with
  | Empty => k prev s
  | Char c =>
      match s with
      | c' :: s' => if Ascii.eqb c c' then k (Some c') s' else None
      | [] => None
      end
  | Seq p q => matches X p prev s (fun prev' s' => matches X q prev' s' k)
  | Alt p q =>
      match matches X p prev s k with
      | Some x => Some x
      | None => matches X q prev s k
      end
  | NegativeLookahead p =>
      match matches unit p prev s (fun _ _ => Some tt) with
      | Some _ => None
      | None => k prev s
      end
  | WordBoundary => if word_boundary prev (hd_error s) then k prev s else None
  end.

(** One attempt of the pattern at a position: the text after the match. *)
Definition exec_at (p : pattern) (prev : option ascii) (s : jsstring)
  : option jsstring :=
  matches jsstring p prev s (fun _ rest => Some rest).

(** [text.replace(pattern, replacement)] for a global pattern and a
    replacement without [$]: the search resumes where the previous match
    ended, one character further after an empty match. [inside] counts the
    characters of the current match that are still to be passed. *)
Fixpoint replace_global (p : pattern) (replacement : jsstring)
  (prev : option ascii) (s : jsstring) (inside : nat) : jsstring :=
  match inside with
  | S n =>
      match s with
      | [] => []
      | c :: s' => replace_global p replacement (Some c) s' n
      end
  | 0 =>
      match exec_at p prev s with
      | Some rest =>
          replacement ++
          match length s - length rest with
          | S n =>
              match s with
              | [] => []
              | c :: s' => replace_global p replacement (Some c) s' n
              end
          | 0 =>
              match s with
              | [] => []
              | c :: s' => c :: replace_global p replacement (Some c) s' 0
              end
          end
      | None =>
          match s with
          | [] => []
          | c :: s' => c :: replace_global p replacement (Some c) s' 0
          end
      end
  end.

(** The source that the template literal builds. *)
Definition source (oldUsername newUsername : jsstring) : jsstring :=
  str "@" ++ oldUsername ++ str "(?!-" ++ last_segment newUsername ++ str ")\b".

(** [updateUsernamesInReleaseNotes] with the patterns read as above:
    [None] when a source is outside the fragment or a new handle holds
    [$], which a replacement string expands. *)
Definition updateUsernamesInReleaseNotes
  (body : option jsstring) (usernameMapping : mapping) : option (option jsstring) :=
  match body with
  | None => Some None
  | Some [] => Some (Some [])
  | Some b =>
      option_map Some
        (fold_left
           (fun updatedBody '(oldUsername, newUsername) =>
              match updatedBody, parse [] (mk_frame [] []) (source oldUsername newUsername) with
              | Some text, Some oldPattern =>
                  if existsb (Ascii.eqb "$") newUsername then None
                  else Some (replace_global oldPattern ("@"%char :: newUsername)
                               None text 0)
              | _, _ => None
              end)
           usernameMapping (Some b))
  end.

End RegExp.

(** ** Releases, backup documents and the backup index *)

Module Release.
(** A release as the provider returns it; [other_fields] stands for the
    fields this program never reads (author, assets, draft, ...). *)
Record t := mk {
  id : Z;
  tag_name : jsstring;
  name : option jsstring;
  body : option jsstring;
  created_at : jsstring;
  published_at : option jsstring;
  html_url : jsstring;
  other_fields : list (jsstring * jsstring)
}.
End Release.

Module Backup.
Record release := mk_release {
  id : Z;
  tag_name : jsstring;
  name : option jsstring;
  body : option jsstring;
  created_at : jsstring;
  published_at : option jsstring;
  html_url : jsstring
}.

Record data := mk {
  repository : jsstring;
  backup_timestamp : jsstring;
  total_releases : nat;
  releases : list release;
  note : option jsstring
}.
End Backup.

Module Index.
Record entry := mk_entry {
  file : jsstring;
  path : jsstring;
  size : N
}.

Record repo_backups := mk_repo {
  owner : jsstring;
  repo : jsstring;
  backup_files : list entry
}.

Record t := mk {
  created_at : jsstring;
  total_repositories : nat;
  total_releases : nat;
  repositories : list repo_backups
}.
End Index.

(** What a file holds.  The program writes its documents with
    [JSON.stringify] and reads them back with [JSON.parse]; the embedding
    keeps the document itself.  Any other file is text on which
    [JSON.parse] throws. *)
Inductive document :=
| BackupDoc (d : Backup.data)
| IndexDoc (i : Index.t)
| OtherText (text : jsstring).

Set Warnings "-register-all".

(** ** The file system: a tree whose directories list their entries in the
    order [readdirSync] returns them. *)
Inductive node :=
| File (content : document)
| Dir (entries : list (jsstring * node)).

Fixpoint assoc {A : Type} (k : jsstring) (es : list (jsstring * A)) : option A :=
  match es with
  | [] => None
  | (k', v) :: es' => if jsstring_eqb k k' then Some v else assoc k es'
  end.

(** Replaces the entry [k], or adds it after the others. *)
Fixpoint set_entry {A : Type} (k : jsstring) (v : A) (es : list (jsstring * A))
  : list (jsstring * A) :=
  match es with
  | [] => [(k, v)]
  | (k', v') :: es' =>
      if jsstring_eqb k k' then (k, v) :: es' else (k', v') :: set_entry k v es'
  end.

(** A path such as [./backups/owner/repo] names the components after the
    working directory.  This reading is that of the file system for
    relative paths without [..]: an absolute path and a [..] component are
    outside of it (see [plain_path] and [dotdot_free]). *)
Definition components (p : jsstring) : list jsstring :=
  filter (fun c => negb (jsstring_eqb c [] || jsstring_eqb c (str ".")))
         (split "/"%char p).

Fixpoint lookup (n : node) (p : list jsstring) : option node :=
  match p with
  | [] => Some n
  | c :: p' =>
      match n with
      | Dir es => match assoc c es with
                  | Some n' => lookup n' p'
                  | None => None
                  end
      | File _ => None
      end
  end.

(** [mkdir -p]: [None] when a component of the path is a file. *)
Fixpoint mkdir_p (n : node) (p : list jsstring) : option node :=
  match p with
  | [] => match n with Dir _ => Some n | File _ => None end
  | c :: p' =>
      match n with
      | Dir es =>
          match mkdir_p (match assoc c es with Some n' => n' | None => Dir [] end) p' with
          | Some n'' => Some (Dir (set_entry c n'' es))
          | None => None
          end
      | File _ => None
      end
  end.

(** Creates or overwrites a file; [None] when the parent directory is
    missing or the path names a directory. *)
Fixpoint write_file (n : node) (p : list jsstring) (d : document) : option node :=
  match p with
  | [] => None
  | c :: p' =>
      match n with
      | Dir es =>
          match p' with
          | [] => match assoc c es with
                  | Some (Dir _) => None
                  | _ => Some (Dir (set_entry c (File d) es))
                  end
          | _ :: _ =>
              match assoc c es with
              | Some n' =>
                  match write_file n' p' d with
                  | Some n'' => Some (Dir (set_entry c n'' es))
                  | None => None
                  end
              | None => None
              end
          end
      | File _ => None
      end
  end.

(** ** The world the scripts run in *)

(** Requests sent to the provider through the API client. *)
Inductive Request :=
| ListReleases (owner repo : jsstring) (per_page : nat)
| UpdateRelease (owner repo : jsstring) (release_id : Z) (body : option jsstring).

Definition is_update (r : Request) : bool :=
  match r with UpdateRelease _ _ _ _ => true | ListReleases _ _ _ => false end.

Record World := mkWorld {
  cwd : node;                       (* the working directory *)
  writable : bool;                  (* false: every write to the disk fails *)
  clock : nat -> jsstring;          (* readings of [new Date().toISOString()] *)
  clock_reads : nat;
  remote : list (jsstring * list Release.t);  (* releases per "owner/repo" *)
  faults : nat -> bool;             (* [faults n]: the request number [n] fails *)
  requests : list Request           (* requests sent so far, oldest first *)
}.

Definition set_cwd (w : World) (n : node) : World :=
  mkWorld n (writable w) (clock w) (clock_reads w) (remote w) (faults w) (requests w).

(** A computation either returns or throws; the world it leaves is kept in
    both cases. *)
Inductive Result (A : Type) :=
| Ok (a : A)
| Throw (message : jsstring).
Arguments Ok {A} a.
Arguments Throw {A} message.

Definition M (A : Type) := World -> Result A * World.

Definition ret {A} (a : A) : M A := fun w => (Ok a, w).

Definition throw {A} (message : jsstring) : M A := fun w => (Throw message, w).

Definition bind {A B} (m : M A) (k : A -> M B) : M B :=
  fun w => match m w with
           | (Ok a, w') => k a w'
           | (Throw e, w') => (Throw e, w')
           end.

(** [try { m } catch (error) { handler }] *)
Definition try_catch {A} (m : M A) (handler : jsstring -> M A) : M A :=
  fun w => match m w with
           | (Ok a, w') => (Ok a, w')
           | (Throw e, w') => handler e w'
           end.

Declare Scope js_scope.
Delimit Scope js_scope with js.
Notation "x <- m ;; k" := (bind m (fun x => k))
  (at level 61, m at next level, right associativity) : js_scope.
Notation "m ;;; k" := (bind m (fun _ => k))
  (at level 61, right associativity) : js_scope.
Open Scope js_scope.

(** [for (const x of xs) { acc = body(x, acc) }] *)
Fixpoint for_each {A S : Type} (xs : list A) (body : A -> S -> M S) (acc : S) : M S :=
  match xs with
  | [] => ret acc
  | x :: xs' => acc' <- body x acc ;; for_each xs' body acc'
  end.

(** *** File system calls *)

Definition existsSync (p : jsstring) : M bool :=
  fun w => (Ok (match lookup (cwd w) (components p) with Some _ => true | None => false end), w).

Definition statSync (p : jsstring) : M node :=
  fun w => match lookup (cwd w) (components p) with
           | Some n => (Ok n, w)
           | None => (Throw (str "ENOENT"), w)
           end.

Definition isDirectory (n : node) : bool :=
  match n with Dir _ => true | File _ => false end.

Definition readdirSync (p : jsstring) : M (list jsstring) :=
  fun w => match lookup (cwd w) (components p) with
           | Some (Dir es) => (Ok (map fst es), w)
           | Some (File _) => (Throw (str "ENOTDIR"), w)
           | None => (Throw (str "ENOENT"), w)
           end.

(** [fs.mkdirSync(p, {recursive: true})] *)
Definition mkdirSync (p : jsstring) : M unit :=
  fun w => if writable w then
             match mkdir_p (cwd w) (components p) with
             | Some n => (Ok tt, set_cwd w n)
             | None => (Throw (str "ENOTDIR"), w)
             end
           else (Throw (str "EROFS"), w).

(** [fs.writeFileSync(p, JSON.stringify(d, null, 2))] *)
Definition writeFileSync (p : jsstring) (d : document) : M unit :=
  fun w => if writable w then
             match write_file (cwd w) (components p) d with
             | Some n => (Ok tt, set_cwd w n)
             | None => (Throw (str "ENOENT"), w)
             end
           else (Throw (str "EROFS"), w).

(** [JSON.parse(fs.readFileSync(p, 'utf8'))] *)
Definition readJSON (p : jsstring) : M document :=
  fun w => match lookup (cwd w) (components p) with
           | Some (File (OtherText _)) => (Throw (str "SyntaxError"), w)
           | Some (File d) => (Ok d, w)
           | Some (Dir _) => (Throw (str "EISDIR"), w)
           | None => (Throw (str "ENOENT"), w)
           end.

(** [new Date().toISOString()] *)
Definition toISOString_now : M jsstring :=
  fun w => (Ok (clock w (clock_reads w)),
            mkWorld (cwd w) (writable w) (clock w) (S (clock_reads w))
                    (remote w) (faults w) (requests w)).

(** *** Provider calls *)

Definition full_name (owner repo : jsstring) : jsstring :=
  owner ++ str "/" ++ repo.

Definition send (r : Request) (w : World) : World :=
  mkWorld (cwd w) (writable w) (clock w) (clock_reads w)
          (remote w) (faults w) (requests w ++ [r]).

Definition set_remote (w : World) (rs : list (jsstring * list Release.t)) : World :=
  mkWorld (cwd w) (writable w) (clock w) (clock_reads w) rs (faults w) (requests w).

(** [octokit.rest.repos.listReleases({owner, repo, per_page})]: one page. *)
Definition listReleases (owner repo : jsstring) (per_page : nat) : M (list Release.t) :=
  fun w =>
    let w' := send (ListReleases owner repo per_page) w in
    if faults w (length (requests w)) then (Throw (str "request failed"), w')
    else match assoc (full_name owner repo) (remote w) with
         | Some rs => (Ok (firstn per_page rs), w')
         | None => (Throw (str "Not Found"), w')
         end.

Definition set_body (release_id : Z) (b : option jsstring) (r : Release.t) : Release.t :=
  if Z.eqb (Release.id r) release_id
  then Release.mk (Release.id r) (Release.tag_name r) (Release.name r) b
         (Release.created_at r) (Release.published_at r) (Release.html_url r)
         (Release.other_fields r)
  else r.

(** [octokit.rest.repos.updateRelease({owner, repo, release_id, body})] *)
Definition updateReleaseRequest (owner repo : jsstring) (release_id : Z)
  (b : option jsstring) : M unit :=
  fun w =>
    let w' := send (UpdateRelease owner repo release_id b) w in
    if faults w (length (requests w)) then (Throw (str "request failed"), w')
    else match assoc (full_name owner repo) (remote w) with
         | Some rs =>
             if existsb (fun r => Z.eqb (Release.id r) release_id) rs
             then (Ok tt, set_remote w' (set_entry (full_name owner repo)
                                           (map (set_body release_id b) rs) (remote w)))
             else (Throw (str "Not Found"), w')
         | None => (Throw (str "Not Found"), w')
         end.

(** ** The scripts *)

(** The [options] of [createBackup]; a missing [type] stands for
    ['release']. *)
Record BackupOptions := mkOptions {
  type : option jsstring;
  note : option jsstring
}.

Record ProcessResult := mkProcessResult {
  processed : nat;
  updated : nat;
  backupFile : option jsstring;
  error : bool
}.

Record RestoreResult := mkRestoreResult {
  restore_processed : nat;
  restored : nat;
  restore_error : bool
}.

(** How the restore tool's [main] ends. *)
Inductive MainOutcome :=
| NoBackups
| InvalidSelection
| Cancelled
| Completed (backupFile : jsstring) (result : RestoreResult)
| Fatal.

(** [s.toLowerCase()] on the letters that matter for comparing with
    [yes] and [y]. *)
Definition toLowerCase (s : jsstring) : jsstring :=
  map (fun c => let n := nat_of_ascii c in
                if (65 <=? n) && (n <=? 90) then ascii_of_nat (n + 32) else c) s.

Section Scripts.

(** [fs.statSync(path).size] *)
Variable stat_size : node -> N.

(** The constant [USERNAME_MAPPING] loaded from [username-mapping.json]. *)
Variable USERNAME_MAPPING : mapping.

(** *** helpers/common *)

Definition getAllReleases (owner repo : jsstring) : M (list Release.t) :=
  try_catch (listReleases owner repo 100) (fun _ => ret []).

(** *** helpers/backup *)

Definition createBackupDirectory (backupPath : jsstring) : M unit :=
  let dirs := split "/"%char backupPath in
  for_each dirs
    (fun dir currentPath =>
       match dir with
       | [] => ret currentPath
       | _ :: _ =>
           let currentPath :=
             currentPath ++ (match currentPath with [] => [] | _ :: _ => str "/" end) ++ dir in
           e <- existsSync currentPath ;;
           (if e then ret tt else mkdirSync currentPath) ;;;
           ret currentPath
       end) [] ;;;
  ret tt.

Definition generateBackupTimestamp : M jsstring :=
  now <- toISOString_now ;;
  ret (map (fun c => if Ascii.eqb c ":" || Ascii.eqb c "." then "-"%char else c) now).

Definition capture (release : Release.t) : Backup.release :=
  Backup.mk_release (Release.id release) (Release.tag_name release)
    (Release.name release) (Release.body release) (Release.created_at release)
    (Release.published_at release) (Release.html_url release).

Definition createBackup (owner repo : jsstring) (releases : list Release.t)
  (options : BackupOptions) : M (option jsstring) :=
  try_catch
    (let isTest := opt_eqb (type options) (Some (str "test")) in
     let baseDir := if isTest then str "./test-backups" else str "./backups" in
     let backupDir := baseDir ++ str "/" ++ owner ++ str "/" ++ repo in
     let filename := if isTest then str "test-backup" else str "releases-backup" in
     createBackupDirectory backupDir ;;;
     timestamp <- generateBackupTimestamp ;;
     let backupFile :=
       backupDir ++ str "/" ++ filename ++ str "-" ++ timestamp ++ str ".json" in
     now <- toISOString_now ;;
     let backupData :=
       Backup.mk (owner ++ str "/" ++ repo) now (length releases)
         (map capture releases)
         (if isTest
          then Some (match note options with
                     | Some (c :: n) => c :: n
                     | _ => str "This is a TEST backup - no actual updates were made"
                     end)
          else None) in
     writeFileSync backupFile (BackupDoc backupData) ;;;
     ret (Some backupFile))
    (fun _ => ret None).

Definition createTestBackup (owner repo : jsstring) (releases : list Release.t) :=
  createBackup owner repo releases (mkOptions (Some (str "test")) None).

Definition createReleaseBackup (owner repo : jsstring) (releases : list Release.t) :=
  createBackup owner repo releases (mkOptions (Some (str "release")) None).

(** The directories among the entries of [dir], in listing order. *)
Definition subdirectories (dir : jsstring) (keep : jsstring -> bool)
  : M (list jsstring) :=
  names <- readdirSync dir ;;
  for_each names
    (fun name acc =>
       n <- statSync (dir ++ str "/" ++ name) ;;
       ret (if isDirectory n && keep name then acc ++ [name] else acc)) [].

(** The [.json] files of a repository's backup directory as index entries. *)
Definition backupFilesOf (dir : jsstring) : M (list Index.entry) :=
  names <- readdirSync dir ;;
  for_each (filter (fun file => endsWith file (str ".json")) names)
    (fun file acc =>
       n <- statSync (dir ++ str "/" ++ file) ;;
       ret (acc ++ [Index.mk_entry file (dir ++ str "/" ++ file) (stat_size n)])) [].

Definition createBackupIndex : M (option jsstring) :=
  try_catch
    (let backupIndexFile := str "./backups/backup-index.json" in
     created <- toISOString_now ;;
     let backupIndex := Index.mk created 0 0 [] in
     e <- existsSync (str "./backups") ;;
     backupIndex <-
       (if e then
          ownerDirs <- subdirectories (str "./backups")
                         (fun dir => negb (jsstring_eqb dir (str "backup-index.json"))) ;;
          for_each ownerDirs
            (fun ownerDir backupIndex =>
               repoDirs <- subdirectories (str "./backups/" ++ ownerDir) (fun _ => true) ;;
               for_each repoDirs
                 (fun repoDir backupIndex =>
                    backupFiles <-
                      backupFilesOf (str "./backups/" ++ ownerDir ++ str "/" ++ repoDir) ;;
                    ret (Index.mk (Index.created_at backupIndex)
                           (S (Index.total_repositories backupIndex))
                           (Index.total_releases backupIndex)
                           (Index.repositories backupIndex
                              ++ [Index.mk_repo ownerDir repoDir backupFiles])))
                 backupIndex)
            backupIndex
        else ret backupIndex) ;;
     writeFileSync backupIndexFile (IndexDoc backupIndex) ;;;
     ret (Some backupIndexFile))
    (fun _ => ret None).

Definition loadBackupData (backupFilePath : jsstring) : M (option document) :=
  try_catch (d <- readJSON backupFilePath ;; ret (Some d)) (fun _ => ret None).

(** *** update-release-contributors *)

Definition updateRelease (owner repo : jsstring) (releaseId : Z)
  (releaseData : Release.t) : M bool :=
  try_catch
    (let updatedBody :=
       updateUsernamesInReleaseNotes (Release.body releaseData) USERNAME_MAPPING in
     if opt_eqb updatedBody (Release.body releaseData) then ret false
     else
       updateReleaseRequest owner repo releaseId updatedBody ;;;
       ret true)
    (fun _ => ret false).

Definition backupReleaseNotes (owner repo : jsstring) (releases : list Release.t)
  : M (option jsstring) :=
  try_catch (createReleaseBackup owner repo releases) (fun _ => ret None).

Definition processRepositoryReleases (owner repo : jsstring) : M ProcessResult :=
  try_catch
    (releases <- getAllReleases owner repo ;;
     if length releases =? 0 then ret (mkProcessResult 0 0 None false)
     else
       backupFile <- backupReleaseNotes owner repo releases ;;
       updatedCount <-
         for_each releases
           (fun release updatedCount =>
              wasUpdated <- updateRelease owner repo (Release.id release) release ;;
              ret (if wasUpdated : bool then S updatedCount else updatedCount)) 0 ;;
       ret (mkProcessResult (length releases) updatedCount backupFile false))
    (fun _ => ret (mkProcessResult 0 0 None true)).

(** *** restore-from-backup *)

Definition listAvailableBackups : M (list Index.repo_backups) :=
  try_catch
    (e <- existsSync (str "./backups") ;;
     if negb e then ret []
     else
       let backupIndexFile := str "./backups/backup-index.json" in
       e <- existsSync backupIndexFile ;;
       if e then
         indexData <- readJSON backupIndexFile ;;
         ret (match indexData with
              | IndexDoc i => Index.repositories i
              | _ => []
              end)
       else
         ownerDirs <- subdirectories (str "./backups") (fun _ => true) ;;
         for_each ownerDirs
           (fun ownerDir backups =>
              repoDirs <- subdirectories (str "./backups/" ++ ownerDir) (fun _ => true) ;;
              for_each repoDirs
                (fun repoDir backups =>
                   backupFiles <-
                     backupFilesOf (str "./backups/" ++ ownerDir ++ str "/" ++ repoDir) ;;
                   ret (backups ++ [Index.mk_repo ownerDir repoDir backupFiles]))
                backups)
           [])
    (fun _ => ret []).

Definition restoreRelease (owner repo : jsstring) (releaseId : Z)
  (backupData : Backup.release) : M bool :=
  try_catch
    (updateReleaseRequest owner repo releaseId (Backup.body backupData) ;;;
     ret true)
    (fun _ => ret false).

Definition restoreRepositoryFromBackup (owner repo backupFile : jsstring)
  : M RestoreResult :=
  try_catch
    (backupData <- readJSON backupFile ;;
     let releases :=
       match backupData with BackupDoc d => Backup.releases d | _ => [] end in
     if length releases =? 0 then ret (mkRestoreResult 0 0 false)
     else
       currentReleases <- listReleases owner repo 100 ;;
       restoredCount <-
         for_each releases
           (fun backupRelease restoredCount =>
              match find (fun r => jsstring_eqb (Release.tag_name r)
                                     (Backup.tag_name backupRelease))
                      currentReleases with
              | None => ret restoredCount
              | Some currentRelease =>
                  wasRestored <- restoreRelease owner repo (Release.id currentRelease)
                                   backupRelease ;;
                  ret (if wasRestored : bool then S restoredCount else restoredCount)
              end) 0 ;;
       ret (mkRestoreResult (length releases) restoredCount false))
    (fun _ => ret (mkRestoreResult 0 0 true)).

(** [main] with the operator's two answers: [choice] is what
    [parseInt] makes of the first ([None] for [NaN]), [confirm] the
    second as typed. *)
Definition main (choice : option Z) (confirm : jsstring) : M MainOutcome :=
  try_catch
    (availableBackups <- listAvailableBackups ;;
     if length availableBackups =? 0 then ret NoBackups
     else
       match choice with
       | None => throw (str "TypeError")
       | Some n =>
           let selectedIndex := (n - 1)%Z in
           if (selectedIndex <? 0)%Z || (Z.of_nat (length availableBackups) <=? selectedIndex)%Z
           then ret InvalidSelection
           else
             match nth_error availableBackups (Z.to_nat selectedIndex) with
             | None => throw (str "TypeError")
             | Some selectedBackup =>
                 if negb (jsstring_eqb (toLowerCase confirm) (str "yes"))
                    && negb (jsstring_eqb (toLowerCase confirm) (str "y"))
                 then ret Cancelled
                 else
                   match Index.backup_files selectedBackup with
                   | [] => throw (str "TypeError")
                   | first :: _ =>
                       let backupFile := Index.path first in
                       result <- restoreRepositoryFromBackup
                                   (Index.owner selectedBackup)
                                   (Index.repo selectedBackup) backupFile ;;
                       ret (Completed backupFile result)
                   end
             end
       end)
    (fun _ => ret Fatal).

End Scripts.

(** ** The other entry points *)

(** [s.replace(pattern, replacement)] with a string for pattern: the first
    occurrence only. *)
Fixpoint replace_first (pattern replacement s : jsstring) : jsstring :=
  match strip_prefix pattern s with
  | Some rest => replacement ++ rest
  | None =>
      match s with
      | [] => []
      | c :: s' => c :: replace_first pattern replacement s'
      end
  end.

Module Listing.
(** An entry of [listAvailableBackups] in [helpers/backup]: an index entry
    and the timestamp read off the file name. *)
Record entry := mk_entry {
  file : jsstring;
  path : jsstring;
  size : N;
  timestamp : jsstring
}.

Record repo_backups := mk_repo {
  owner : jsstring;
  repo : jsstring;
  backup_files : list entry
}.
End Listing.

Module BackupHelpers.
Section Listing.

Variable stat_size : node -> N.

(** [file.replace('releases-backup-', '').replace('.json', '')] *)
Definition timestampOf (file : jsstring) : jsstring :=
  replace_first (str ".json") [] (replace_first (str "releases-backup-") [] file).

Definition backupFilesOf (dir : jsstring) : M (list Listing.entry) :=
  names <- readdirSync dir ;;
  for_each (filter (fun file => endsWith file (str ".json")) names)
    (fun file acc =>
       n <- statSync (dir ++ str "/" ++ file) ;;
       ret (acc ++ [Listing.mk_entry file (dir ++ str "/" ++ file) (stat_size n)
                      (timestampOf file)])) [].

(** [listAvailableBackups] of [helpers/backup]: always a scan of the disk. *)
Definition listAvailableBackups : M (list Listing.repo_backups) :=
  try_catch
    (e <- existsSync (str "./backups") ;;
     if e then
       ownerDirs <- subdirectories (str "./backups")
                      (fun dir => negb (jsstring_eqb dir (str "backup-index.json"))) ;;
       for_each ownerDirs
         (fun ownerDir backups =>
            repoDirs <- subdirectories (str "./backups/" ++ ownerDir) (fun _ => true) ;;
            for_each repoDirs
              (fun repoDir backups =>
                 backupFiles <-
                   backupFilesOf (str "./backups/" ++ ownerDir ++ str "/" ++ repoDir) ;;
                 ret (backups ++ [Listing.mk_repo ownerDir repoDir backupFiles]))
              backups)
         []
     else ret [])
    (fun _ => ret []).

End Listing.
End BackupHelpers.

Module TestSingleRepo.

(** How the dry run ends: no release found, the numbers of releases tested
    and of those that need an update, or an error. *)
Inductive Outcome :=
| NoReleases
| Tested (tested needsUpdate : nat)
| TestError.

Section Script.

Variable USERNAME_MAPPING : mapping.
Variable GITHUB_OWNER TEST_REPO : jsstring.

(** [testUpdate]: whether the release would be updated; the preview it
    prints is left out. *)
Definition testUpdate (releaseData : Release.t) : M bool :=
  let updatedBody :=
    updateUsernamesInReleaseNotes (Release.body releaseData) USERNAME_MAPPING in
  if opt_eqb updatedBody (Release.body releaseData) then ret false
  else ret true.

Definition main : M Outcome :=
  try_catch
    (releases <- getAllReleases GITHUB_OWNER TEST_REPO ;;
     if length releases =? 0 then ret NoReleases
     else
       createTestBackup GITHUB_OWNER TEST_REPO releases ;;;
       needsUpdateCount <-
         for_each releases
           (fun release needsUpdateCount =>
              needsUpdate <- testUpdate release ;;
              ret (if needsUpdate : bool then S needsUpdateCount else needsUpdateCount))
           0 ;;
       ret (Tested (length releases) needsUpdateCount))
    (fun _ => ret TestError).

End Script.
End TestSingleRepo.

Module Repo.
(** What [getWhitelistedRepositories] keeps of a repository. *)
Record t := mk {
  name : jsstring;
  full_name : jsstring;
  private : bool;
  archived : bool;
  disabled : bool
}.
End Repo.

Module UpdateScript.

(** How the update script's [main] ends: no repository verified, the final
    summary, or a fatal error. *)
Inductive Outcome :=
| NoRepositories
| Summary (repositories totalProcessed totalUpdated totalErrors : nat)
| Fatal.

Section Script.

Variable stat_size : node -> N.
Variable USERNAME_MAPPING : mapping.
Variable REPOSITORY_WHITELIST : list jsstring.
Variable GITHUB_OWNER : jsstring.

(** [octokit.rest.repos.get({owner, repo})], the call that verifies a
    repository: any computation that returns the repository or throws. *)
Variable reposGet : jsstring -> jsstring -> M Repo.t.

Definition getWhitelistedRepositories (owner : jsstring) : M (list Repo.t) :=
  try_catch
    (for_each REPOSITORY_WHITELIST
       (fun repoName verifiedRepos =>
          try_catch
            (repo <- reposGet owner repoName ;;
             ret (verifiedRepos
                    ++ [Repo.mk (Repo.name repo) (Repo.full_name repo) (Repo.private repo)
                          (Repo.archived repo) (Repo.disabled repo)]))
            (fun _ => ret verifiedRepos))
       [])
    (fun _ => ret []).

Definition main : M Outcome :=
  try_catch
    (repos <- getWhitelistedRepositories GITHUB_OWNER ;;
     if length repos =? 0 then ret NoRepositories
     else
       totals <-
         for_each repos
           (fun repo '(totalProcessed, totalUpdated, totalErrors) =>
              result <- processRepositoryReleases USERNAME_MAPPING GITHUB_OWNER
                          (Repo.name repo) ;;
              ret (totalProcessed + processed result,
                   totalUpdated + updated result,
                   if error result then S totalErrors else totalErrors))
           (0, 0, 0) ;;
       createBackupIndex stat_size ;;;
       ret (let '(totalProcessed, totalUpdated, totalErrors) := totals in
            Summary (length repos) totalProcessed totalUpdated totalErrors))
    (fun _ => ret Fatal).

End Script.
End UpdateScript.

(** ** Vocabulary of the properties *)

(** The characters of account handles: letters, digits, [_] and [-].  Each
    stands for itself in the source of a RegExp and in a replacement
    string. *)
Definition handle_char (c : ascii) : bool := is_word c || Ascii.eqb c "-".

Definition handle (h : jsstring) : bool := forallb handle_char h.

Definition handles (m : mapping) : bool :=
  forallb (fun e => handle (fst e) && handle (snd e)) m.

Definition no_at (t : jsstring) : bool :=
  forallb (fun c => negb (Ascii.eqb c "@")) t.

(** The loop of [updateUsernamesInReleaseNotes] over the entries. *)
Definition passes (m : mapping) (t : jsstring) : jsstring :=
  fold_left
    (fun updatedBody '(oldUsername, newUsername) =>
       replace_all oldUsername (last_segment newUsername)
         ("@"%char :: newUsername) updatedBody)
    m t.

(** The text before the first [@]. *)
Fixpoint until_at (t : jsstring) : jsstring :=
  match t with
  | [] => []
  | c :: t' => if Ascii.eqb c "@" then [] else c :: until_at t'
  end.

(** No position of [t] is matched by [@old(?!-guard)\b]. *)
Fixpoint unmatched (old guard t : jsstring) : bool :=
  match t with
  | [] => true
  | c :: t' =>
      match exec_at old guard t with
      | Some _ => false
      | None => unmatched old guard t'
      end
  end.

(** [@new], followed by some text, can be matched by [@old(?!-guard)\b]. *)
Definition restarts (new old guard : jsstring) : bool :=
  match strip_prefix old new with
  | Some [] => true
  | Some (c :: t) =>
      word_boundary (Some (last old "@"%char)) (Some c)
      && negb (starts_with ("-"%char :: guard) (c :: t))
  | None => starts_with new old
  end.

(** No new handle of the mapping can start a match of an entry's pattern. *)
Definition settled (m : mapping) : bool :=
  forallb (fun e =>
             forallb (fun e' => negb (restarts (snd e) (fst e') (last_segment (snd e')))) m)
          m.

(** One pass over a text that swaps some mentions [@old] for [@new], with
    [(old, new)] in the mapping, and keeps every other character. *)
Inductive rewrites (m : mapping) : jsstring -> jsstring -> Prop :=
| rewrites_nil : rewrites m [] []
| rewrites_keep c t r : rewrites m t r -> rewrites m (c :: t) (c :: r)
| rewrites_mention old new t r :
    In (old, new) m -> rewrites m t r ->
    rewrites m ("@"%char :: old ++ t) ("@"%char :: new ++ r).

(** Any number of such passes. *)
Inductive rewrites_star (m : mapping) : jsstring -> jsstring -> Prop :=
| rewrites_refl t : rewrites_star m t t
| rewrites_step t u r : rewrites m t u -> rewrites_star m u r -> rewrites_star m t r.

(** [pre] is empty or ends with a character that is neither [@] nor a handle
    character: what follows [pre] starts a word of its own. *)
Definition word_start (pre : jsstring) : bool :=
  match rev pre with
  | [] => true
  | c :: _ => negb (handle_char c) && negb (Ascii.eqb c "@")
  end.

(** [t.includes(w)] *)
Fixpoint contains (w t : jsstring) : bool :=
  starts_with w t
  || match t with
     | [] => false
     | _ :: t' => contains w t'
     end.

(** The requests a restore is to send for one backed-up release and for a
    whole backup, given the live releases. *)
Definition restore_call (owner repo : jsstring) (live : list Release.t)
  (b : Backup.release) : list Request :=
  match find (fun r => jsstring_eqb (Release.tag_name r) (Backup.tag_name b)) live with
  | Some r => [UpdateRelease owner repo (Release.id r) (Backup.body b)]
  | None => []
  end.

Definition restore_calls (owner repo : jsstring) (live : list Release.t)
  (backup : list Backup.release) : list Request :=
  flat_map (restore_call owner repo live) backup.

(** The pattern matches at the head of [t]. *)
Definition hits (old guard t : jsstring) : bool :=
  match exec_at old guard t with Some _ => true | None => false end.

(** The matches of [@old'(?!-guard')\b] that a text has, it has at places
    where [@old(?!-guard)\b] matches too. *)
Fixpoint covered (old' guard' old guard t : jsstring) : bool :=
  match t with
  | [] => true
  | c :: t' =>
      (negb (hits old' guard' t) || hits old guard t)
      && covered old' guard' old guard t'
  end.

(** The pattern of an entry matches nowhere in [t]. *)
Definition unmatched_entry (e : jsstring * jsstring) (t : jsstring) : bool :=
  unmatched (fst e) (last_segment (snd e)) t.

(** No new handle of the mapping is an old handle of it. *)
Definition no_chain (m : mapping) : bool :=
  forallb (fun e => forallb (fun e' => negb (jsstring_eqb (snd e) (fst e'))) m) m.

(** The requests sent between two worlds of a run. *)
Definition issued_since (w w' : World) : list Request :=
  skipn (length (requests w)) (requests w').

(** What [getAllReleases] hands to the orchestrator in a world. *)
Definition fetched (owner repo : jsstring) (w : World) : list Release.t :=
  match fst (getAllReleases owner repo w) with
  | Ok releases => releases
  | Throw _ => []
  end.

(** The computed body of a release differs from its current body. *)
Definition needs_update (m : mapping) (r : Release.t) : bool :=
  negb (opt_eqb (updateUsernamesInReleaseNotes (Release.body r) m) (Release.body r)).

(** The request that rewrites a release. *)
Definition update_call (m : mapping) (owner repo : jsstring) (r : Release.t) : Request :=
  UpdateRelease owner repo (Release.id r)
    (updateUsernamesInReleaseNotes (Release.body r) m).

(** A computation that sends nothing to the provider. *)
Definition quiet {A} (m : M A) : Prop :=
  forall w, requests (snd (m w)) = requests w
            /\ remote (snd (m w)) = remote w
            /\ faults (snd (m w)) = faults w.

(** [a < b] on strings; on ISO-8601 timestamps of one format this is
    "earlier than". *)
Fixpoint lex_ltb (a b : jsstring) : bool :=
  match a, b with
  | _, [] => false
  | [], _ :: _ => true
  | x :: a', y :: b' =>
      (nat_of_ascii x <? nat_of_ascii y)
      || ((nat_of_ascii x =? nat_of_ascii y) && lex_ltb a' b')
  end.

(** The [backup_timestamp] written in a backup file. *)
Definition timestamp_of (w : World) (e : Index.entry) : jsstring :=
  match fst (readJSON (Index.path e) w) with
  | Ok (BackupDoc d) => Backup.backup_timestamp d
  | _ => []
  end.

(** The most recent of a repository's backup files: the one with the latest
    backup timestamp. *)
Definition most_recent (w : World) (files : list Index.entry) : option Index.entry :=
  fold_left
    (fun best e =>
       match best with
       | None => Some e
       | Some b => if lex_ltb (timestamp_of w b) (timestamp_of w e) then Some e else Some b
       end)
    files None.

(** ** Worlds used as concrete inputs *)

Definition example_mapping : mapping := [(str "alice", str "bob")].

Definition example_v1_0 : Release.t :=
  Release.mk 11 (str "v1.0") (Some (str "First")) (Some (str "Thanks @alice and alice"))
    (str "2024-01-01T00:00:00Z") (Some (str "2024-01-02T00:00:00Z"))
    (str "https://example.test/acme/widgets/releases/v1.0")
    [(str "draft", str "false")].

Definition example_v1_1 : Release.t :=
  Release.mk 12 (str "v1.1") None None
    (str "2024-02-01T00:00:00Z") None
    (str "https://example.test/acme/widgets/releases/v1.1") [].

Definition example_v1_2 : Release.t :=
  Release.mk 13 (str "v1.2") (Some (str "Third")) (Some (str "no mention here"))
    (str "2024-03-01T00:00:00Z") (Some (str "2024-03-02T00:00:00Z"))
    (str "https://example.test/acme/widgets/releases/v1.2") [].

(** The clock reads January during the first backup, June during the
    second and July afterwards. *)
Definition example_clock (n : nat) : jsstring :=
  if n <? 2 then str "2025-01-01T00:00:00.000Z"
  else if n <? 4 then str "2025-06-01T10:20:30.456Z"
  else str "2025-07-01T00:00:00.000Z".

Definition example_size (n : node) : N := 2048%N.

(** An empty working directory and one repository with three releases. *)
Definition example_world : World :=
  mkWorld (Dir []) true example_clock 0
    [(str "acme/widgets", [example_v1_0; example_v1_1; example_v1_2])]
    (fun _ => false) [].

(** The same with a disk that refuses every write. *)
Definition example_world_read_only : World :=
  mkWorld (Dir []) false example_clock 0
    [(str "acme/widgets", [example_v1_0; example_v1_1; example_v1_2])]
    (fun _ => false) [].

(** A repository whose releases mention nobody of the mapping. *)
Definition example_world_up_to_date : World :=
  mkWorld (Dir []) true example_clock 0
    [(str "acme/widgets", [example_v1_1; example_v1_2])]
    (fun _ => false) [].

(** A provider that fails every request. *)
Definition example_world_offline : World :=
  mkWorld (Dir []) true example_clock 0
    [(str "acme/widgets", [example_v1_0; example_v1_1; example_v1_2])]
    (fun _ => true) [].

(** The example repository after two runs of the update script, and then
    with the backup index built. *)
Definition example_world_after_runs : World :=
  snd (processRepositoryReleases example_mapping (str "acme") (str "widgets")
         (snd (processRepositoryReleases example_mapping (str "acme") (str "widgets")
                 example_world))).

Definition example_world_indexed : World :=
  snd (createBackupIndex example_size example_world_after_runs).

(** The example repository after one run, when the release [v1.1] has been
    deleted at the provider, the listing order has changed, and the second
    request of the session is going to fail. *)
Definition example_v1_0_updated : Release.t :=
  Release.mk 11 (str "v1.0") (Some (str "First")) (Some (str "Thanks @bob and alice"))
    (str "2024-01-01T00:00:00Z") (Some (str "2024-01-02T00:00:00Z"))
    (str "https://example.test/acme/widgets/releases/v1.0")
    [(str "draft", str "false")].

Definition example_world_restore : World :=
  mkWorld
    (cwd (snd (processRepositoryReleases example_mapping (str "acme") (str "widgets")
                 example_world)))
    true example_clock 2
    [(str "acme/widgets", [example_v1_2; example_v1_0_updated])]
    (fun n => n =? 1) [].

(** The number of [@] in a text. *)
Definition count_at (t : jsstring) : nat := count_occ ascii_dec t "@"%char.

(** The loop of [processRepositoryReleases] over the releases. *)
Definition update_loop (m : mapping) (owner repo : jsstring)
  (releases : list Release.t) (updatedCount : nat) : M nat :=
  for_each releases
    (fun release updatedCount =>
       wasUpdated <- updateRelease m owner repo (Release.id release) release ;;
       ret (if wasUpdated : bool then S updatedCount else updatedCount))
    updatedCount.

(** A release with the body the engine computes for it. *)
Definition substituted (m : mapping) (r : Release.t) : Release.t :=
  Release.mk (Release.id r) (Release.tag_name r) (Release.name r)
    (updateUsernamesInReleaseNotes (Release.body r) m)
    (Release.created_at r) (Release.published_at r) (Release.html_url r)
    (Release.other_fields r).

(** A computation that leaves the disk as it is. *)
Definition keeps_disk {A} (m : M A) : Prop :=
  forall w, cwd (snd (m w)) = cwd w.

(** The loop of [restoreRepositoryFromBackup] over the backed-up releases. *)
Definition restore_loop (owner repo : jsstring) (currentReleases : list Release.t)
  (backup : list Backup.release) (restoredCount : nat) : M nat :=
  for_each backup
    (fun backupRelease restoredCount =>
       match find (fun r => jsstring_eqb (Release.tag_name r)
                              (Backup.tag_name backupRelease)) currentReleases with
       | None => ret restoredCount
       | Some currentRelease =>
           wasRestored <- restoreRelease owner repo (Release.id currentRelease)
                            backupRelease ;;
           ret (if wasRestored : bool then S restoredCount else restoredCount)
       end)
    restoredCount.

(** [:] or [.], the characters [generateBackupTimestamp] replaces. *)
Definition colon_or_dot (c : ascii) : bool := Ascii.eqb c ":" || Ascii.eqb c ".".

(** The timestamp of a backup file name: the clock reading with [:] and [.]
    replaced by [-]. *)
Definition fileNameSafe (iso : jsstring) : jsstring :=
  map (fun c => if colon_or_dot c then "-"%char else c) iso.

(** A computation that leaves a component [f] of the world as it is. *)
Definition preserves {X A} (f : World -> X) (m : M A) : Prop :=
  forall w, f (snd (m w)) = f w.

(** The components that [components] keeps: not empty and not [.]. *)
Definition named (c : jsstring) : bool :=
  negb (jsstring_eqb c [] || jsstring_eqb c (str ".")).

(** A name of one component: not empty, not [.], without [/]. *)
Definition plain_name (n : jsstring) : bool :=
  named n && negb (existsb (Ascii.eqb "/") n).

(** The loop of [createBackupDirectory] over the pieces of the path. *)
Definition directory_loop (dirs : list jsstring) (currentPath : jsstring) : M jsstring :=
  for_each dirs
    (fun dir currentPath =>
       match dir with
       | [] => ret currentPath
       | _ :: _ =>
           let currentPath :=
             currentPath ++ (match currentPath with [] => [] | _ :: _ => str "/" end) ++ dir in
           e <- existsSync currentPath ;;
           (if e then ret tt else mkdirSync currentPath) ;;;
           ret currentPath
       end) currentPath.

(** The parts of the world that only the clock calls change. *)
Definition timing (w : World) : bool * (nat -> jsstring) * nat :=
  (writable w, clock w, clock_reads w).

(** A computation that, on a disk that refuses writes, leaves the disk as
    it is (and still refusing writes). *)
Definition frozen {A} (m : M A) : Prop :=
  forall w, writable w = false ->
            cwd (snd (m w)) = cwd w /\ writable (snd (m w)) = false.

(** An index entry names a [.json] file of the directory [dir]. *)
Definition entry_of (dir : jsstring) (e : Index.entry) : Prop :=
  endsWith (Index.file e) (str ".json") = true
  /\ Index.path e = dir ++ str "/" ++ Index.file e.

(** The entries of a repository name [.json] files of its backup
    directory. *)
Definition repo_entries_ok (r : Index.repo_backups) : Prop :=
  Forall (entry_of (str "./backups/" ++ Index.owner r ++ str "/" ++ Index.repo r))
    (Index.backup_files r).

(** The entry [k] of the working directory. *)
Definition entry_at (k : jsstring) (w : World) : option node := lookup (cwd w) [k].

(** A path that names the working directory, or goes through its entry [c]. *)
Definition rooted (c : jsstring) (p : list jsstring) : Prop :=
  match p with
  | [] => True
  | h :: _ => h = c
  end.

(** A computation that changes nothing of the working directory but its
    entry [c]. *)
Definition writes_under (c : jsstring) {A} (m : M A) : Prop :=
  forall k, k <> c -> preserves (entry_at k) m.

(** The root directory of a kind of backup. *)
Definition backup_root (options : BackupOptions) : jsstring :=
  if opt_eqb (type options) (Some (str "test")) then str "test-backups"
  else str "backups".

(** The repository a request is about. *)
Definition request_target (r : Request) : jsstring * jsstring :=
  match r with
  | ListReleases owner repo _ => (owner, repo)
  | UpdateRelease owner repo _ _ => (owner, repo)
  end.

(** A computation whose requests all satisfy [ok]. *)
Definition sends_only (ok : Request -> Prop) {A} (m : M A) : Prop :=
  forall w, exists extra,
    requests (snd (m w)) = requests w ++ extra /\ Forall ok extra.

(** The running totals of the update script stay within what [n]
    repositories can give. *)
Definition totals_within (n : nat) (totals : nat * nat * nat) : Prop :=
  let '(totalProcessed, totalUpdated, totalErrors) := totals in
  totalErrors = 0 /\ totalUpdated <= totalProcessed /\ totalProcessed <= 100 * n.

(** A verification call that finds the repositories the provider holds and
    sends nothing that is recorded. *)
Definition example_reposGet (owner repo : jsstring) : M Repo.t :=
  fun w =>
    match assoc (full_name owner repo) (remote w) with
    | Some _ => (Ok (Repo.mk repo (full_name owner repo) false false false), w)
    | None => (Throw (str "Not Found"), w)
    end.

(** No piece of the name is [..]. *)
Definition dotdot_free (name : jsstring) : bool :=
  forallb (fun piece => negb (jsstring_eqb piece (str ".."))) (split "/"%char name).

(** A relative path, not empty and without [..]. *)
Definition plain_path (p : jsstring) : bool :=
  negb (jsstring_eqb p []) && negb (starts_with (str "/") p) && dotdot_free p.

(** What an entry of the listing of [helpers/backup] says of a file of
    the directory [dir]: its name, its path, and for a name
    [releases-backup-<t>.json], where [t] is a clock reading made safe for
    a file name, the timestamp [t]. *)
Definition listed_entry_of (dir : jsstring) (e : Listing.entry) : Prop :=
  endsWith (Listing.file e) (str ".json") = true
  /\ Listing.path e = dir ++ str "/" ++ Listing.file e
  /\ forall iso,
       Listing.file e = str "releases-backup-" ++ fileNameSafe iso ++ str ".json" ->
       Listing.timestamp e = fileNameSafe iso.

Definition listed_repo_ok (r : Listing.repo_backups) : Prop :=
  Forall (listed_entry_of
            (str "./backups/" ++ Listing.owner r ++ str "/" ++ Listing.repo r))
    (Listing.backup_files r).

(** The pattern of a mention, as [RegExp.parse] gives it for handles. *)
Definition mention_pattern (old guard : jsstring) : RegExp.pattern :=
  fold_right RegExp.Seq RegExp.Empty
    (map RegExp.Char ("@"%char :: old)
     ++ [RegExp.NegativeLookahead
           (fold_right RegExp.Seq RegExp.Empty (map RegExp.Char ("-"%char :: guard)));
         RegExp.WordBoundary]).

(** The character before the position after [m] has been passed. *)
Definition after (m : jsstring) (prev : option ascii) : option ascii :=
  fold_left (fun _ c => Some c) m prev.

(** * Properties *)

(** ** The substitution engine *)

Lemma replace_all_nil old guard repl : replace_all old guard repl [] = [].
Proof. now simp replace_all. Qed.

Lemma replace_all_match old guard repl c t rest :
  exec_at old guard (c :: t) = Some rest ->
  replace_all old guard repl (c :: t) = repl ++ replace_all old guard repl rest.
Proof.
  intros E. simp replace_all.
  destruct (inspect (exec_at old guard (c :: t))) as [[r|] e]; simpl.
  - congruence.
  - congruence.
Qed.

Lemma replace_all_skip old guard repl c t :
  exec_at old guard (c :: t) = None ->
  replace_all old guard repl (c :: t) = c :: replace_all old guard repl t.
Proof.
  intros E. simp replace_all.
  destruct (inspect (exec_at old guard (c :: t))) as [[r|] e]; simpl.
  - congruence.
  - reflexivity.
Qed.

Lemma text_ind (P : jsstring -> Prop) :
  P [] ->
  (forall c t, (forall u, length u <= length t -> P u) -> P (c :: t)) ->
  forall t, P t.
Proof.
  intros Hnil Hcons t.
  assert (H : forall n u, length u <= n -> P u).
  { induction n as [|n IH]; intros [|c u] L; simpl in L; auto; try lia.
    apply Hcons. intros v Lv. apply IH. lia. }
  apply (H (length t)). apply le_n.
Qed.

Lemma strip_prefix_spec p t rest :
  strip_prefix p t = Some rest <-> t = p ++ rest.
Proof.
  revert t; induction p as [|a p IH]; intros t; simpl.
  - split; [intros [= ->]|intros ->]; reflexivity.
  - destruct t as [|b t].
    + split; discriminate.
    + destruct (Ascii.eqb_spec a b) as [->|N].
      * rewrite IH. split; [intros ->|intros [= ->]]; reflexivity.
      * split; [discriminate|]. intros [= E _]. now symmetry in E.
Qed.

Lemma strip_prefix_app p r rest : strip_prefix p (p ++ r ++ rest) = Some (r ++ rest).
Proof. now apply strip_prefix_spec. Qed.

Lemma exec_at_spec old guard t rest :
  exec_at old guard t = Some rest -> t = "@"%char :: old ++ rest.
Proof.
  unfold exec_at.
  destruct (strip_prefix _ t) as [r|] eqn:E; [|discriminate].
  apply strip_prefix_spec in E.
  destruct (starts_with _ r); [discriminate|].
  destruct (word_boundary _ _); [|discriminate].
  now intros [= <-].
Qed.

Lemma exec_at_other old guard c t :
  c <> "@"%char -> exec_at old guard (c :: t) = None.
Proof.
  intros N. destruct (exec_at old guard (c :: t)) eqn:E; [|reflexivity].
  apply exec_at_spec in E. injection E as -> _. now destruct N.
Qed.

Lemma no_at_cons c t :
  no_at (c :: t) = true <-> c <> "@"%char /\ no_at t = true.
Proof.
  unfold no_at; simpl. rewrite andb_true_iff, negb_true_iff.
  destruct (Ascii.eqb_spec c "@"); intuition congruence.
Qed.

Lemma handle_char_not_at c : handle_char c = true -> c <> "@"%char.
Proof. intros H ->. discriminate H. Qed.

Lemma handle_no_at h : handle h = true -> no_at h = true.
Proof.
  induction h as [|c h IH]; [reflexivity|].
  unfold handle; simpl. rewrite andb_true_iff. intros [Hc Hh].
  apply no_at_cons. split; [now apply handle_char_not_at|now apply IH].
Qed.

(** Text without [@] passes through a replacement untouched, whatever
    follows it. *)
Lemma replace_all_no_at old guard repl w post :
  no_at w = true ->
  replace_all old guard repl (w ++ post) = w ++ replace_all old guard repl post.
Proof.
  induction w as [|c w IH]; intros H; [reflexivity|].
  apply no_at_cons in H as [Hc Hw]. simpl.
  rewrite replace_all_skip by now apply exec_at_other.
  now rewrite IH.
Qed.

Lemma passes_nil m : passes m [] = [].
Proof.
  induction m as [|[o n] m IH]; [reflexivity|].
  unfold passes in *; simpl. now rewrite replace_all_nil.
Qed.

Lemma update_Some t m :
  updateUsernamesInReleaseNotes (Some t) m = Some (passes m t).
Proof.
  destruct t as [|c t]; simpl; [|reflexivity].
  now rewrite passes_nil.
Qed.

Lemma passes_cons o n m t :
  passes ((o, n) :: m) t
  = passes m (replace_all o (last_segment n) ("@"%char :: n) t).
Proof. reflexivity. Qed.

Lemma passes_no_at m w post :
  no_at w = true -> passes m (w ++ post) = w ++ passes m post.
Proof.
  revert post; induction m as [|[o n] m IH]; intros post H; [reflexivity|].
  rewrite !passes_cons, replace_all_no_at by assumption. now apply IH.
Qed.

(** Read literally, no pattern matches in a text without [@]. *)
Lemma literal_without_at_unchanged (T : jsstring) (M : mapping) :
  no_at T = true ->
  updateUsernamesInReleaseNotes (Some T) M = Some T.
Proof.
  intros H. rewrite update_Some.
  rewrite <- (app_nil_r T) at 1.
  rewrite passes_no_at by assumption.
  now rewrite passes_nil, app_nil_r.
Qed.

Lemma rewrites_same m t : rewrites m t t.
Proof. induction t; constructor; assumption. Qed.

Lemma rewrites_incl m m' t r :
  incl m m' -> rewrites m t r -> rewrites m' t r.
Proof.
  intros I H; induction H.
  - apply rewrites_nil.
  - now apply rewrites_keep.
  - apply rewrites_mention; [now apply I|assumption].
Qed.

Lemma replace_all_rewrites old new guard t :
  rewrites [(old, new)] t (replace_all old guard ("@"%char :: new) t).
Proof.
  induction t as [|c t IH] using text_ind.
  - rewrite replace_all_nil. constructor.
  - destruct (exec_at old guard (c :: t)) as [rest|] eqn:E.
    + rewrite (replace_all_match _ _ _ _ _ _ E).
      pose proof (exec_at_spec _ _ _ _ E) as S. rewrite S. simpl.
      apply rewrites_mention; [now left|].
      apply IH. injection S as _ ->. rewrite length_app. lia.
    + rewrite (replace_all_skip _ _ _ _ _ E).
      apply rewrites_keep, IH, le_n.
Qed.

Lemma rewrites_star_trans m t u r :
  rewrites_star m t u -> rewrites_star m u r -> rewrites_star m t r.
Proof.
  induction 1; intros H2; [assumption|].
  econstructor; eauto.
Qed.

Lemma passes_rewrites_star m m' t :
  incl m m' -> rewrites_star m' t (passes m t).
Proof.
  revert t; induction m as [|[o n] m IH]; intros t I.
  - apply rewrites_refl.
  - rewrite passes_cons.
    eapply rewrites_step.
    + eapply rewrites_incl; [|apply replace_all_rewrites].
      intros e [<-|[]]. apply I. now left.
    + apply IH. intros e He. apply I. now right.
Qed.

Lemma handle_cons c h :
  handle (c :: h) = true <-> handle_char c = true /\ handle h = true.
Proof. unfold handle; simpl. apply andb_true_iff. Qed.

Lemma handle_last_segment n : handle n = true -> handle (last_segment n) = true.
Proof.
  unfold last_segment. intros H.
  assert (A : forallb handle (split "-"%char n) = true /\ split "-"%char n <> []).
  { induction n as [|c n IH]; [now split|].
    apply handle_cons in H as [Hc Hn]. destruct (IH Hn) as [IA IN].
    simpl. destruct (Ascii.eqb c "-").
    - split; [exact IA|discriminate].
    - destruct (split "-"%char n) as [|h t]; [now destruct IN|].
      simpl in *. apply andb_true_iff in IA as [Ih It].
      split; [|discriminate].
      apply andb_true_iff. split; [|exact It].
      apply handle_cons. now split. }
  destruct A as [A _].
  induction (split "-"%char n) as [|h t IH]; [reflexivity|].
  simpl in A. apply andb_true_iff in A as [Ah At].
  destruct t; [exact Ah|]. now apply IH.
Qed.

Lemma strip_prefix_cut p c X Y :
  handle p = true -> handle_char c = false ->
  strip_prefix p (X ++ c :: Y)
  = match strip_prefix p X with Some r => Some (r ++ c :: Y) | None => None end.
Proof.
  revert X; induction p as [|a p IH]; intros X Hp Hc; [reflexivity|].
  apply handle_cons in Hp as [Ha Hp].
  destruct X as [|x X]; simpl.
  - destruct (Ascii.eqb_spec a c) as [->|_]; [congruence|reflexivity].
  - destruct (Ascii.eqb a x); [now apply IH|reflexivity].
Qed.

(** Whether the pattern matches before a character [c] that no handle
    contains does not depend on what follows [c]. *)
Lemma exec_at_cut old guard c X :
  handle old = true -> handle guard = true ->
  handle_char c = false -> c <> "@"%char ->
  (forall Y, exec_at old guard (X ++ c :: Y) = None) \/
  (exists r, length r < length X /\
             forall Y, exec_at old guard (X ++ c :: Y) = Some (r ++ c :: Y)).
Proof.
  intros Ho Hg Hc Nc.
  destruct X as [|x X].
  - left. intros Y. now apply exec_at_other.
  - destruct (Ascii.eqb_spec x "@") as [->|Nx];
      [|left; intros Y; now apply exec_at_other].
    unfold exec_at. cbn [app strip_prefix]. rewrite Ascii.eqb_refl.
    destruct (strip_prefix old X) as [r|] eqn:S.
    + assert (L : length r < length ("@"%char :: X)).
      { apply strip_prefix_spec in S. subst X. simpl. rewrite length_app. lia. }
      assert (Hg' : handle ("-"%char :: guard) = true) by now apply handle_cons.
      destruct (strip_prefix ("-"%char :: guard) r) as [r'|] eqn:G.
      * left. intros Y.
        rewrite (strip_prefix_cut old c X Y Ho Hc), S.
        unfold starts_with.
        now rewrite (strip_prefix_cut _ c r Y Hg' Hc), G.
      * destruct (word_boundary (Some (last old "@"%char)) (hd_error (r ++ [c]))) eqn:B.
        -- right. exists r. split; [exact L|]. intros Y.
           rewrite (strip_prefix_cut old c X Y Ho Hc), S.
           unfold starts_with.
           rewrite (strip_prefix_cut _ c r Y Hg' Hc), G.
           replace (hd_error (r ++ c :: Y)) with (hd_error (r ++ [c]))
             by now destruct r.
           now rewrite B.
        -- left. intros Y.
           rewrite (strip_prefix_cut old c X Y Ho Hc), S.
           unfold starts_with.
           rewrite (strip_prefix_cut _ c r Y Hg' Hc), G.
           replace (hd_error (r ++ c :: Y)) with (hd_error (r ++ [c]))
             by now destruct r.
           now rewrite B.
    + left. intros Y.
      now rewrite (strip_prefix_cut old c X Y Ho Hc), S.
Qed.

Lemma replace_all_cut old guard repl c (X : jsstring) :
  handle old = true -> handle guard = true ->
  handle_char c = false -> c <> "@"%char ->
  exists RX, forall Y,
    replace_all old guard repl (X ++ c :: Y)
    = RX ++ c :: replace_all old guard repl Y.
Proof.
  intros Ho Hg Hc Nc.
  induction X as [|x X IH] using text_ind.
  - exists []. intros Y. simpl.
    now rewrite replace_all_skip by now apply exec_at_other.
  - destruct (exec_at_cut old guard c (x :: X) Ho Hg Hc Nc) as [N|[r [L S]]].
    + destruct (IH X (le_n _)) as [RX HRX].
      exists (x :: RX). intros Y. specialize (N Y). simpl in *.
      rewrite (replace_all_skip _ _ _ _ _ N). now rewrite HRX.
    + destruct (IH r) as [Rr HRr]; [simpl in L; lia|].
      exists (repl ++ Rr). intros Y. specialize (S Y). simpl in *.
      rewrite (replace_all_match _ _ _ _ _ _ S), HRr.
      now rewrite <- app_assoc.
Qed.

Lemma word_start_inv pre :
  word_start pre = true ->
  pre = [] \/ exists X c, pre = X ++ [c] /\ handle_char c = false /\ c <> "@"%char.
Proof.
  destruct pre as [|c X _] using rev_ind; [now left|].
  unfold word_start. rewrite rev_unit.
  rewrite andb_true_iff, !negb_true_iff. intros [Hc Nc].
  right. exists X, c. repeat split; [assumption|].
  intros ->. discriminate Nc.
Qed.

Lemma word_start_snoc X c :
  handle_char c = false -> c <> "@"%char -> word_start (X ++ [c]) = true.
Proof.
  intros Hc Nc. unfold word_start. rewrite rev_unit, Hc. simpl.
  now destruct (Ascii.eqb_spec c "@").
Qed.

(** One replacement leaves a word that stands on its own where it is, and
    rewrites what is before and after it as if they stood alone. *)
Lemma replace_all_bare old guard repl pre w post :
  handle old = true -> handle guard = true ->
  word_start pre = true -> handle w = true ->
  replace_all old guard repl (pre ++ w ++ post)
  = replace_all old guard repl pre ++ w ++ replace_all old guard repl post
  /\ word_start (replace_all old guard repl pre) = true.
Proof.
  intros Ho Hg Hpre Hw.
  apply word_start_inv in Hpre as [->|[X [c [-> [Hc Nc]]]]].
  - rewrite replace_all_nil. simpl. split; [|reflexivity].
    apply replace_all_no_at. now apply handle_no_at.
  - destruct (replace_all_cut old guard repl c X Ho Hg Hc Nc) as [RX H].
    rewrite <- app_assoc. simpl.
    rewrite (H []), (H (w ++ post)), replace_all_nil.
    rewrite replace_all_no_at by now apply handle_no_at.
    split; [|now apply word_start_snoc].
    now rewrite <- app_assoc.
Qed.

Lemma passes_bare m pre w post :
  handles m = true -> word_start pre = true -> handle w = true ->
  passes m (pre ++ w ++ post) = passes m pre ++ w ++ passes m post.
Proof.
  revert pre post; induction m as [|[o n] m IH]; intros pre post Hm Hpre Hw;
    [reflexivity|].
  simpl in Hm. apply andb_true_iff in Hm as [Hon Hm].
  apply andb_true_iff in Hon as [Ho Hn].
  rewrite !passes_cons.
  destruct (replace_all_bare o (last_segment n) ("@"%char :: n) pre w post Ho
              (handle_last_segment n Hn) Hpre Hw) as [E S].
  rewrite E. now apply IH.
Qed.

(** C5 (amended). Every pass swaps mentions [@old] for [@new] and keeps all
    other characters; a word of handle characters (a mapped old handle,
    say) that starts the text, or follows a character that is neither [@]
    nor a handle character, stays where it is while the text before and
    after it is rewritten as if it stood alone. *)
Theorem substitute_keeps_bare_handles (M : mapping) (pre w post : jsstring) :
  handles M = true ->
  word_start pre = true ->
  handle w = true ->
  exists pre' post',
    updateUsernamesInReleaseNotes (Some pre) M = Some pre' /\
    updateUsernamesInReleaseNotes (Some post) M = Some post' /\
    updateUsernamesInReleaseNotes (Some (pre ++ w ++ post)) M
    = Some (pre' ++ w ++ post') /\
    rewrites_star M (pre ++ w ++ post) (pre' ++ w ++ post').
Proof.
  intros HM Hpre Hw.
  exists (passes M pre), (passes M post).
  rewrite !update_Some.
  repeat split.
  - now rewrite passes_bare.
  - rewrite <- passes_bare by assumption.
    apply passes_rewrites_star, incl_refl.
Qed.

Lemma substitute_keeps_bare_handles_witness :
  exists pre' post',
    updateUsernamesInReleaseNotes (Some (str "Thanks @alice and "))
      [(str "alice", str "bob")] = Some pre' /\
    updateUsernamesInReleaseNotes (Some (str " for the fix"))
      [(str "alice", str "bob")] = Some post' /\
    updateUsernamesInReleaseNotes
      (Some (str "Thanks @alice and " ++ str "alice" ++ str " for the fix"))
      [(str "alice", str "bob")]
    = Some (pre' ++ str "alice" ++ post') /\
    rewrites_star [(str "alice", str "bob")]
      (str "Thanks @alice and " ++ str "alice" ++ str " for the fix")
      (pre' ++ str "alice" ++ post').
Proof.
  apply (substitute_keeps_bare_handles [(str "alice", str "bob")]
           (str "Thanks @alice and ") (str "alice") (str " for the fix"));
    reflexivity.
Defined.

(** The example of the specification. *)
Example substitute_thanks_alice :
  updateUsernamesInReleaseNotes (Some (str "Thanks @alice and alice for the fix"))
    [(str "alice", str "bob")]
  = Some (str "Thanks @bob and alice for the fix").
Proof. vm_compute. reflexivity. Qed.

(** C5 as stated fails: in [@alice-bob] the handle [bob] follows [-], not
    [@], and is a key of the mapping; the mention of [alice-bob] is
    rewritten and takes it away. *)
Lemma substitute_changes_handle_inside_mention :
  let M := [(str "alice-bob", str "carol"); (str "bob", str "bobby")] in
  handles M = true /\
  In (str "bob") (map fst M) /\
  last (str "@alice-") "@"%char <> "@"%char /\
  updateUsernamesInReleaseNotes (Some (str "@alice-" ++ str "bob")) M
  = Some (str "@carol") /\
  contains (str "bob") (str "@carol") = false.
Proof.
  repeat split.
  - simpl. right. now left.
  - discriminate.
Qed.

(** *** Idempotence *)

Lemma strip_prefix_until_at p u :
  no_at p = true ->
  strip_prefix p (until_at u) = option_map until_at (strip_prefix p u).
Proof.
  revert u; induction p as [|a p IH]; intros u Hp; [reflexivity|].
  apply no_at_cons in Hp as [Na Hp].
  destruct u as [|b u]; [reflexivity|]. simpl.
  destruct (Ascii.eqb_spec b "@") as [->|Nb].
  - destruct (Ascii.eqb_spec a "@"); [contradiction|reflexivity].
  - simpl. destruct (Ascii.eqb a b); [now apply IH|reflexivity].
Qed.

Lemma starts_with_until_at p u :
  no_at p = true -> starts_with p (until_at u) = starts_with p u.
Proof.
  intros Hp. unfold starts_with. rewrite strip_prefix_until_at by assumption.
  now destruct (strip_prefix p u).
Qed.

Lemma is_word_hd_until_at u :
  is_word_opt (hd_error (until_at u)) = is_word_opt (hd_error u).
Proof.
  destruct u as [|b u]; [reflexivity|]. simpl.
  now destruct (Ascii.eqb_spec b "@") as [->|].
Qed.

(** A match that starts at an [@] is decided by the text up to the next
    [@]. *)
Lemma hits_until_at old guard u :
  no_at old = true -> no_at guard = true ->
  hits old guard ("@"%char :: u) = hits old guard ("@"%char :: until_at u).
Proof.
  intros Ho Hg. unfold hits, exec_at. cbn [strip_prefix]. rewrite Ascii.eqb_refl.
  rewrite strip_prefix_until_at by assumption.
  destruct (strip_prefix old u) as [r|]; [|reflexivity]. simpl option_map. cbv iota.
  rewrite starts_with_until_at by (apply no_at_cons; split; [discriminate|assumption]).
  destruct (starts_with _ r); [reflexivity|].
  unfold word_boundary. rewrite is_word_hd_until_at.
  now destruct (xorb _ _).
Qed.

Lemma until_at_replace_all old guard new t :
  until_at (replace_all old guard ("@"%char :: new) t) = until_at t.
Proof.
  induction t as [|c t IH] using text_ind.
  - now rewrite replace_all_nil.
  - destruct (exec_at old guard (c :: t)) as [rest|] eqn:E.
    + rewrite (replace_all_match _ _ _ _ _ _ E).
      apply exec_at_spec in E. now injection E as -> _.
    + rewrite (replace_all_skip _ _ _ _ _ E). simpl.
      destruct (Ascii.eqb c "@"); [reflexivity|].
      now rewrite IH.
Qed.

Lemma unmatched_no_at old guard w t :
  no_at w = true -> unmatched old guard (w ++ t) = unmatched old guard t.
Proof.
  induction w as [|c w IH]; intros H; [reflexivity|].
  apply no_at_cons in H as [Nc Hw]. simpl app. cbn [unmatched].
  rewrite exec_at_other by assumption. now apply IH.
Qed.

Lemma unmatched_cons old guard c t :
  unmatched old guard (c :: t) = true <->
  exec_at old guard (c :: t) = None /\ unmatched old guard t = true.
Proof.
  cbn [unmatched]. destruct (exec_at old guard (c :: t)); intuition congruence.
Qed.

Lemma unmatched_replace_all old guard repl t :
  unmatched old guard t = true -> replace_all old guard repl t = t.
Proof.
  induction t as [|c t IH]; intros H.
  - apply replace_all_nil.
  - apply unmatched_cons in H as [E U].
    rewrite (replace_all_skip _ _ _ _ _ E). now rewrite IH.
Qed.

Lemma covered_cons old' guard' old guard c t :
  covered old' guard' old guard (c :: t) = true <->
  (hits old' guard' (c :: t) = true -> hits old guard (c :: t) = true) /\
  covered old' guard' old guard t = true.
Proof.
  cbn [covered]. rewrite andb_true_iff, orb_true_iff, negb_true_iff.
  destruct (hits old' guard' (c :: t)); intuition congruence.
Qed.

Lemma covered_app old' guard' old guard a b :
  covered old' guard' old guard (a ++ b) = true ->
  covered old' guard' old guard b = true.
Proof.
  induction a as [|c a IH]; [trivial|].
  simpl app. intros H. apply covered_cons in H as [_ H]. now apply IH.
Qed.

Lemma covered_self old guard t : covered old guard old guard t = true.
Proof.
  induction t as [|c t IH]; [reflexivity|].
  apply covered_cons. now split.
Qed.

Lemma unmatched_covered old' guard' old guard t :
  unmatched old' guard' t = true -> covered old' guard' old guard t = true.
Proof.
  induction t as [|c t IH]; [reflexivity|].
  intros H. apply unmatched_cons in H as [E U].
  apply covered_cons. split; [|now apply IH].
  unfold hits at 1. now rewrite E.
Qed.

(** A pass for [(old, new)] leaves no match of [@old'(?!-guard')\b] when
    [@new] cannot start one and every match that was there was rewritten. *)
Lemma replace_all_unmatched old' guard' old guard new t :
  no_at old' = true -> no_at guard' = true -> no_at new = true ->
  (forall rest, exec_at old' guard' ("@"%char :: new ++ rest) = None) ->
  covered old' guard' old guard t = true ->
  unmatched old' guard' (replace_all old guard ("@"%char :: new) t) = true.
Proof.
  intros Ho' Hg' Hn Safe.
  induction t as [|c t IH] using text_ind; intros C.
  - now rewrite replace_all_nil.
  - destruct (exec_at old guard (c :: t)) as [rest|] eqn:E.
    + rewrite (replace_all_match _ _ _ _ _ _ E).
      pose proof (exec_at_spec _ _ _ _ E) as S.
      change (("@"%char :: new) ++ replace_all old guard ("@"%char :: new) rest)
        with ("@"%char :: (new ++ replace_all old guard ("@"%char :: new) rest)).
      apply unmatched_cons. split; [apply Safe|].
      rewrite unmatched_no_at by assumption.
      apply IH.
      * injection S as _ ->. rewrite length_app. lia.
      * rewrite S in C.
        change ("@"%char :: old ++ rest) with (("@"%char :: old) ++ rest) in C.
        now apply covered_app in C.
    + rewrite (replace_all_skip _ _ _ _ _ E).
      apply covered_cons in C as [C0 C].
      apply unmatched_cons. split; [|now apply IH].
      destruct (Ascii.eqb_spec c "@") as [->|Nc]; [|now apply exec_at_other].
      assert (H : hits old' guard' ("@"%char :: t) = false).
      { destruct (hits old' guard' ("@"%char :: t)); [|reflexivity].
        specialize (C0 eq_refl). unfold hits in C0. now rewrite E in C0. }
      rewrite hits_until_at in H by assumption.
      rewrite <- (until_at_replace_all old guard new t) in H.
      rewrite <- hits_until_at in H by assumption.
      unfold hits in H.
      now destruct (exec_at old' guard' ("@"%char :: replace_all old guard ("@"%char :: new) t)).
Qed.

Lemma strip_prefix_app_some o n r rest :
  strip_prefix o n = Some r -> strip_prefix o (n ++ rest) = Some (r ++ rest).
Proof.
  intros H. apply strip_prefix_spec in H. apply strip_prefix_spec.
  subst n. now rewrite <- app_assoc.
Qed.

Lemma strip_prefix_app_none o n rest :
  strip_prefix o n = None -> starts_with n o = false ->
  strip_prefix o (n ++ rest) = None.
Proof.
  unfold starts_with.
  revert n; induction o as [|a o IH]; intros n H1 H2; [discriminate|].
  destruct n as [|b n]; [discriminate|]. simpl in *.
  rewrite (Ascii.eqb_sym b a) in H2.
  destruct (Ascii.eqb a b); [now apply IH|reflexivity].
Qed.

Lemma restarts_sound new old guard :
  restarts new old guard = false ->
  forall rest, exec_at old guard ("@"%char :: new ++ rest) = None.
Proof.
  unfold restarts. intros H rest.
  unfold exec_at. cbn [strip_prefix]. rewrite Ascii.eqb_refl.
  destruct (strip_prefix old new) as [[|c t]|] eqn:S.
  - discriminate.
  - rewrite (strip_prefix_app_some _ _ _ rest S).
    apply andb_false_iff in H as [B|G].
    + simpl app. cbn [hd_error]. rewrite B.
      now destruct (starts_with _ _).
    + apply negb_false_iff in G.
      unfold starts_with in *.
      destruct (strip_prefix ("-"%char :: guard) (c :: t)) as [r|] eqn:P;
        [|discriminate].
      now rewrite (strip_prefix_app_some _ _ _ rest P).
  - now rewrite (strip_prefix_app_none _ _ rest S H).
Qed.

Lemma handles_In m o n :
  handles m = true -> In (o, n) m -> handle o = true /\ handle n = true.
Proof.
  intros H I. unfold handles in H. rewrite forallb_forall in H.
  apply H in I. now apply andb_true_iff in I.
Qed.

Lemma settled_In m e e' :
  settled m = true -> In e m -> In e' m ->
  restarts (snd e) (fst e') (last_segment (snd e')) = false.
Proof.
  intros H I I'. unfold settled in H. rewrite forallb_forall in H.
  specialize (H e I). rewrite forallb_forall in H.
  specialize (H e' I'). now apply negb_true_iff in H.
Qed.

(** After the passes for [todo], the text has no match left for the entries
    already done and for those of [todo]. *)
Lemma passes_unmatched m :
  handles m = true -> settled m = true ->
  forall todo done t,
    incl todo m -> incl done m ->
    (forall e, In e done -> unmatched_entry e t = true) ->
    forall e, In e done \/ In e todo -> unmatched_entry e (passes todo t) = true.
Proof.
  intros Hm Sm. induction todo as [|[o n] todo IH]; intros done t It Id U e Ie.
  - destruct Ie as [Ie|[]]. now apply U.
  - rewrite passes_cons.
    assert (Ion : In (o, n) m) by (apply It; now left).
    destruct (handles_In m o n Hm Ion) as [Ho Hn].
    apply (IH ((o, n) :: done)).
    + intros x Hx. apply It. now right.
    + intros x [<-|Hx]; [assumption|now apply Id].
    + intros [o' n'] Ie'. unfold unmatched_entry; simpl.
      assert (Io'n' : In (o', n') m).
      { destruct Ie' as [E|Ie']; [now rewrite <- E|now apply Id]. }
      destruct (handles_In m o' n' Hm Io'n') as [Ho' Hn'].
      apply replace_all_unmatched.
      * now apply handle_no_at.
      * now apply handle_no_at, handle_last_segment.
      * now apply handle_no_at.
      * apply restarts_sound.
        apply (settled_In m (o, n) (o', n') Sm Ion Io'n').
      * destruct Ie' as [E|Ie'].
        -- injection E as <- <-. apply covered_self.
        -- apply unmatched_covered. apply (U (o', n') Ie').
    + simpl. simpl in Ie. tauto.
Qed.

Lemma passes_fixed m t :
  (forall e, In e m -> unmatched_entry e t = true) -> passes m t = t.
Proof.
  induction m as [|[o n] m IH]; intros U; [reflexivity|].
  rewrite passes_cons.
  rewrite unmatched_replace_all by (apply (U (o, n)); now left).
  apply IH. intros e He. apply U. now right.
Qed.

(** C2 (amended). For every text and every mapping of handles in which no
    entry's new handle can start a match of an entry's pattern (its own
    included), substituting twice gives what substituting once gives. *)
Theorem substitute_idempotent_when_settled (T : option jsstring) (M : mapping) :
  handles M = true ->
  settled M = true ->
  updateUsernamesInReleaseNotes (updateUsernamesInReleaseNotes T M) M
  = updateUsernamesInReleaseNotes T M.
Proof.
  intros HM SM. destruct T as [t|]; [|reflexivity].
  rewrite !update_Some. f_equal.
  apply passes_fixed. intros e He.
  apply (passes_unmatched M HM SM M [] t).
  - apply incl_refl.
  - intros x [].
  - intros x [].
  - now right.
Qed.

Lemma substitute_idempotent_when_settled_witness :
  updateUsernamesInReleaseNotes
    (updateUsernamesInReleaseNotes (Some (str "cc @nghia-nguyen"))
       [(str "nghia-nguyen", str "nghia-nguyen-4321")])
    [(str "nghia-nguyen", str "nghia-nguyen-4321")]
  = updateUsernamesInReleaseNotes (Some (str "cc @nghia-nguyen"))
      [(str "nghia-nguyen", str "nghia-nguyen-4321")].
Proof.
  apply (substitute_idempotent_when_settled (Some (str "cc @nghia-nguyen"))
           [(str "nghia-nguyen", str "nghia-nguyen-4321")]); reflexivity.
Defined.

(** The example of the specification: the new form is appended once. *)
Example substitute_nghia_nguyen :
  updateUsernamesInReleaseNotes (Some (str "cc @nghia-nguyen"))
    [(str "nghia-nguyen", str "nghia-nguyen-4321")]
  = Some (str "cc @nghia-nguyen-4321")
  /\ updateUsernamesInReleaseNotes (Some (str "cc @nghia-nguyen-4321"))
       [(str "nghia-nguyen", str "nghia-nguyen-4321")]
     = Some (str "cc @nghia-nguyen-4321").
Proof. split; vm_compute; reflexivity. Qed.

(** C2 as stated fails: no new handle below is an old handle, yet the text
    [@a-c] becomes [@b-c], and [@b-c] becomes [@d]. *)
Lemma substitute_not_idempotent :
  let M := [(str "b-c", str "d"); (str "a", str "b")] in
  handles M = true /\
  no_chain M = true /\
  updateUsernamesInReleaseNotes (Some (str "@a-c")) M = Some (str "@b-c") /\
  updateUsernamesInReleaseNotes (Some (str "@b-c")) M = Some (str "@d") /\
  updateUsernamesInReleaseNotes
    (updateUsernamesInReleaseNotes (Some (str "@a-c")) M) M
  <> updateUsernamesInReleaseNotes (Some (str "@a-c")) M.
Proof.
  repeat split. vm_compute. discriminate.
Qed.

(** The guard looks at the last segment of the new handle only; when the
    new handle adds two segments to the old one, a second run appends them
    again. *)
Example substitute_appends_twice :
  updateUsernamesInReleaseNotes (Some (str "@bob")) [(str "bob", str "bob-x-y")]
  = Some (str "@bob-x-y")
  /\ updateUsernamesInReleaseNotes (Some (str "@bob-x-y")) [(str "bob", str "bob-x-y")]
     = Some (str "@bob-x-y-x-y").
Proof. split; vm_compute; reflexivity. Qed.

(** ** The update orchestrator *)

Lemma quiet_ret {A} (a : A) : quiet (ret a).
Proof. now intros w. Qed.

Lemma quiet_throw {A} e : quiet (@throw A e).
Proof. now intros w. Qed.

Lemma quiet_bind {A B} (m : M A) (k : A -> M B) :
  quiet m -> (forall a, quiet (k a)) -> quiet (bind m k).
Proof.
  intros Hm Hk w. unfold bind. specialize (Hm w).
  destruct (m w) as [[a|e] w1]; simpl in *.
  - destruct (Hk a w1) as [R1 [R2 R3]]. destruct Hm as [Q1 [Q2 Q3]].
    repeat split; congruence.
  - exact Hm.
Qed.

Lemma quiet_try_catch {A} (m : M A) h :
  quiet m -> (forall e, quiet (h e)) -> quiet (try_catch m h).
Proof.
  intros Hm Hh w. unfold try_catch. specialize (Hm w).
  destruct (m w) as [[a|e] w1]; simpl in *.
  - exact Hm.
  - destruct (Hh e w1) as [R1 [R2 R3]]. destruct Hm as [Q1 [Q2 Q3]].
    repeat split; congruence.
Qed.

Lemma quiet_for_each {A S} (xs : list A) (body : A -> S -> M S) acc :
  (forall x a, quiet (body x a)) -> quiet (for_each xs body acc).
Proof.
  intros Hb. revert acc; induction xs as [|x xs IH]; intros acc; simpl.
  - apply quiet_ret.
  - apply quiet_bind; [apply Hb|apply IH].
Qed.

Lemma quiet_if {A} (b : bool) (m1 m2 : M A) :
  quiet m1 -> quiet m2 -> quiet (if b then m1 else m2).
Proof. now destruct b. Qed.

Lemma quiet_existsSync p : quiet (existsSync p).
Proof. now intros w. Qed.

Lemma quiet_statSync p : quiet (statSync p).
Proof. intros w. unfold statSync. now destruct (lookup _ _). Qed.

Lemma quiet_readdirSync p : quiet (readdirSync p).
Proof. intros w. unfold readdirSync. now destruct (lookup _ _) as [[|]|]. Qed.

Lemma quiet_mkdirSync p : quiet (mkdirSync p).
Proof.
  intros w. unfold mkdirSync.
  destruct (writable w); [|easy]. now destruct (mkdir_p _ _).
Qed.

Lemma quiet_writeFileSync p d : quiet (writeFileSync p d).
Proof.
  intros w. unfold writeFileSync.
  destruct (writable w); [|easy]. now destruct (write_file _ _ _).
Qed.

Lemma quiet_readJSON p : quiet (readJSON p).
Proof. intros w. unfold readJSON. now destruct (lookup _ _) as [[[| |]|]|]. Qed.

Lemma quiet_toISOString_now : quiet toISOString_now.
Proof. now intros w. Qed.

Create HintDb quiet.
#[local] Hint Resolve quiet_ret quiet_throw quiet_existsSync quiet_statSync
  quiet_readdirSync quiet_mkdirSync quiet_writeFileSync quiet_readJSON
  quiet_toISOString_now : quiet.

Ltac quiet_steps :=
  repeat first
    [ apply quiet_try_catch; intros
    | apply quiet_bind; intros
    | apply quiet_for_each; intros
    | apply quiet_if
    | match goal with |- quiet (match ?x with _ => _ end) => destruct x end
    | solve [auto with quiet] ].

Lemma quiet_createBackup owner repo releases options :
  quiet (createBackup owner repo releases options).
Proof. unfold createBackup, createBackupDirectory, generateBackupTimestamp. quiet_steps. Qed.

Lemma issued_since_app w w' extra :
  requests w' = requests w ++ extra -> issued_since w w' = extra.
Proof.
  intros E. unfold issued_since. rewrite E.
  rewrite skipn_app, skipn_all, Nat.sub_diag. reflexivity.
Qed.

Lemma listReleases_requests owner repo n w :
  requests (snd (listReleases owner repo n w))
  = requests w ++ [ListReleases owner repo n]
  /\ cwd (snd (listReleases owner repo n w)) = cwd w
  /\ clock_reads (snd (listReleases owner repo n w)) = clock_reads w.
Proof.
  unfold listReleases.
  destruct (faults w _); [now repeat split|].
  destruct (assoc _ _); now repeat split.
Qed.

Lemma getAllReleases_total owner repo w :
  exists releases,
    getAllReleases owner repo w = (Ok releases, snd (listReleases owner repo 100 w)).
Proof.
  unfold getAllReleases, try_catch, ret.
  destruct (listReleases owner repo 100 w) as [[rs|e] w1]; simpl; eauto.
Qed.

Lemma updateReleaseRequest_requests owner repo i b w :
  requests (snd (updateReleaseRequest owner repo i b w))
  = requests w ++ [UpdateRelease owner repo i b]
  /\ cwd (snd (updateReleaseRequest owner repo i b w)) = cwd w.
Proof.
  unfold updateReleaseRequest.
  destruct (faults w _); [now split|].
  destruct (assoc _ _); [|now split].
  destruct (existsb _ _); now split.
Qed.

(** One release: a request is sent exactly when the body changes. *)
Lemma updateRelease_effect m owner repo r w :
  exists ok w',
    updateRelease m owner repo (Release.id r) r w = (Ok ok, w')
    /\ requests w'
       = requests w ++ (if needs_update m r then [update_call m owner repo r] else [])
    /\ (needs_update m r = false -> ok = false).
Proof.
  unfold updateRelease, try_catch, bind, needs_update, update_call.
  destruct (opt_eqb _ _); simpl.
  - exists false, w. rewrite app_nil_r. now repeat split.
  - pose proof (updateReleaseRequest_requests owner repo (Release.id r)
                  (updateUsernamesInReleaseNotes (Release.body r) m) w) as [R _].
    destruct (updateReleaseRequest _ _ _ _ w) as [[[]|e] w1]; simpl in *.
    + exists true, w1. now repeat split.
    + exists false, w1. now repeat split.
Qed.

(** The loop over the releases of a repository. *)
Lemma update_loop_effect m owner repo releases :
  forall updatedCount w,
  exists n w',
    for_each releases
      (fun release updatedCount =>
         wasUpdated <- updateRelease m owner repo (Release.id release) release ;;
         ret (if wasUpdated : bool then S updatedCount else updatedCount))
      updatedCount w = (Ok n, w')
    /\ requests w'
       = requests w ++ map (update_call m owner repo) (filter (needs_update m) releases)
    /\ updatedCount <= n
    /\ n <= updatedCount + length (filter (needs_update m) releases).
Proof.
  induction releases as [|r rs IH]; intros cnt w; simpl.
  - exists cnt, w. rewrite app_nil_r. repeat split; lia.
  - unfold bind at 1. unfold bind at 1.
    destruct (updateRelease_effect m owner repo r w) as [ok [w1 [E [R F]]]].
    rewrite E. unfold ret at 1.
    destruct (IH (if ok then S cnt else cnt) w1) as [n [w2 [E2 [R2 [L1 L2]]]]].
    exists n, w2. split; [exact E2|].
    rewrite R2, R, <- app_assoc.
    destruct (needs_update m r); simpl.
    + repeat split; destruct ok; simpl in *; lia.
    + rewrite (F eq_refl) in *. repeat split; lia.
Qed.

Lemma opt_eqb_eq a b : opt_eqb a b = true <-> a = b.
Proof.
  destruct a as [x|], b as [y|]; simpl; try (split; congruence).
  unfold jsstring_eqb. destruct (list_eq_dec ascii_dec x y); split; congruence.
Qed.

Lemma needs_update_iff m r :
  needs_update m r = true <->
  updateUsernamesInReleaseNotes (Release.body r) m <> Release.body r.
Proof.
  unfold needs_update. rewrite negb_true_iff, <- opt_eqb_eq.
  destruct (opt_eqb _ _); split; congruence.
Qed.

(** C3. In a run of [processRepositoryReleases], the update requests sent
    are, in order, one per fetched release whose computed body differs from
    its current body, carrying the computed body; the run returns, and when
    no body differs it reports [updated = 0] and sends no update request. *)
Theorem update_requests_iff_body_differs (m : mapping) (owner repo : jsstring) (w : World) :
  exists result w',
    processRepositoryReleases m owner repo w = (Ok result, w')
    /\ filter is_update (issued_since w w')
       = map (update_call m owner repo)
           (filter (needs_update m) (fetched owner repo w))
    /\ updated result <= length (filter (needs_update m) (fetched owner repo w))
    /\ (forall r, needs_update m r = true <->
                  updateUsernamesInReleaseNotes (Release.body r) m <> Release.body r)
    /\ (forallb (fun r => negb (needs_update m r)) (fetched owner repo w) = true ->
        updated result = 0 /\ filter is_update (issued_since w w') = []).
Proof.
  assert (Main : exists result w',
    processRepositoryReleases m owner repo w = (Ok result, w')
    /\ filter is_update (issued_since w w')
       = map (update_call m owner repo)
           (filter (needs_update m) (fetched owner repo w))
    /\ updated result <= length (filter (needs_update m) (fetched owner repo w))).
  { unfold fetched, processRepositoryReleases, try_catch.
    unfold bind at 1.
    destruct (getAllReleases_total owner repo w) as [rs E]. rewrite E. simpl fst.
    destruct (listReleases_requests owner repo 100 w) as [R _].
    set (w1 := snd (listReleases owner repo 100 w)) in *.
    destruct (length rs =? 0) eqn:Z.
    - apply Nat.eqb_eq in Z. destruct rs; [|discriminate].
      exists (mkProcessResult 0 0 None false), w1. simpl.
      rewrite (issued_since_app w w1 _ R). now repeat split.
    - unfold bind at 1.
      unfold backupReleaseNotes, createReleaseBackup.
      pose proof (quiet_try_catch _ (fun _ => ret None)
                    (quiet_createBackup owner repo rs
                       (mkOptions (Some (str "release")) None))
                    (fun _ => quiet_ret None) w1) as [Q _].
      destruct (try_catch _ _ w1) as [[bf|e] w2] eqn:B.
      + simpl in Q. unfold bind at 1.
        destruct (update_loop_effect m owner repo rs 0 w2) as [n [w3 [L [R3 [_ U]]]]].
        rewrite L. exists (mkProcessResult (length rs) n bf false), w3. simpl.
        rewrite (issued_since_app w w3
                   (ListReleases owner repo 100
                      :: map (update_call m owner repo) (filter (needs_update m) rs))).
        * simpl. repeat split; [|exact U].
          clear. induction (filter (needs_update m) rs) as [|x xs IH];
            [reflexivity|]. simpl. now rewrite IH.
        * rewrite R3, Q, R, <- app_assoc. reflexivity.
      + unfold try_catch in B.
        destruct (createBackup _ _ _ _ w1) as [[?|?] ?]; discriminate. }
  destruct Main as [result [w' [E [C U]]]].
  exists result, w'. split; [exact E|]. split; [exact C|]. split; [exact U|].
  split; [intros r; apply needs_update_iff|]. intros H. split.
  - assert (N : filter (needs_update m) (fetched owner repo w) = []).
    { clear - H. induction (fetched owner repo w) as [|r rs IH]; [reflexivity|].
      simpl in *. apply andb_true_iff in H as [Hr Hrs].
      apply negb_true_iff in Hr. rewrite Hr. now apply IH. }
    rewrite N in U. simpl in U. lia.
  - assert (N : filter (needs_update m) (fetched owner repo w) = []).
    { clear - H. induction (fetched owner repo w) as [|r rs IH]; [reflexivity|].
      simpl in *. apply andb_true_iff in H as [Hr Hrs].
      apply negb_true_iff in Hr. rewrite Hr. now apply IH. }
    now rewrite C, N.
Qed.

Lemma update_requests_iff_body_differs_witness :
  exists result w',
    processRepositoryReleases example_mapping (str "acme") (str "widgets")
      example_world_up_to_date = (Ok result, w')
    /\ updated result = 0
    /\ filter is_update (issued_since example_world_up_to_date w') = [].
Proof.
  destruct (update_requests_iff_body_differs example_mapping (str "acme")
              (str "widgets") example_world_up_to_date)
    as [result [w' [E [_ [_ [_ Z]]]]]].
  exists result, w'. split; [exact E|]. apply Z. reflexivity.
Defined.

(** C10. When listing the releases fails, [getAllReleases] returns the empty
    list and [processRepositoryReleases] reports [processed = 0],
    [updated = 0] without the error flag, having touched neither the disk
    nor the clock and sent nothing but the listing request: the very result
    of a repository whose listing succeeds with no release. *)
Theorem listing_failure_reported_as_no_releases
  (m : mapping) (owner repo : jsstring) (w w1 : World) (e : jsstring) :
  listReleases owner repo 100 w = (Throw e, w1) ->
  getAllReleases owner repo w = (Ok [], w1)
  /\ processRepositoryReleases m owner repo w
     = (Ok (mkProcessResult 0 0 None false), w1)
  /\ cwd w1 = cwd w
  /\ clock_reads w1 = clock_reads w
  /\ issued_since w w1 = [ListReleases owner repo 100]
  /\ (forall v v1, listReleases owner repo 100 v = (Ok [], v1) ->
      fst (processRepositoryReleases m owner repo v)
      = fst (processRepositoryReleases m owner repo w)).
Proof.
  intros L.
  assert (G : getAllReleases owner repo w = (Ok [], w1)).
  { unfold getAllReleases, try_catch. now rewrite L. }
  assert (P : processRepositoryReleases m owner repo w
              = (Ok (mkProcessResult 0 0 None false), w1)).
  { unfold processRepositoryReleases, try_catch, bind. now rewrite G. }
  destruct (listReleases_requests owner repo 100 w) as [R [C K]].
  rewrite L in R, C, K. simpl in R, C, K.
  repeat split; try assumption.
  - now apply issued_since_app.
  - intros v v1 Lv. rewrite P.
    unfold processRepositoryReleases, try_catch, bind, getAllReleases, try_catch.
    now rewrite Lv.
Qed.

Lemma listing_failure_reported_as_no_releases_witness :
  processRepositoryReleases example_mapping (str "acme") (str "widgets")
    example_world_offline
  = (Ok (mkProcessResult 0 0 None false),
     send (ListReleases (str "acme") (str "widgets") 100) example_world_offline).
Proof.
  apply (listing_failure_reported_as_no_releases example_mapping (str "acme")
           (str "widgets") example_world_offline _ (str "request failed")).
  reflexivity.
Defined.

(** C1 fails on the code: with a disk that refuses every write no backup is
    written ([backupFile] is empty and the working directory stays empty),
    and the update request is sent all the same and changes the release. *)
Theorem update_sent_without_backup :
  let out := processRepositoryReleases example_mapping (str "acme") (str "widgets")
               example_world_read_only in
  fst (createReleaseBackup (str "acme") (str "widgets")
         [example_v1_0; example_v1_1; example_v1_2] example_world_read_only)
  = Ok None
  /\ fst out = Ok (mkProcessResult 3 1 None false)
  /\ cwd (snd out) = Dir []
  /\ filter is_update (requests (snd out))
     = [UpdateRelease (str "acme") (str "widgets") 11 (Some (str "Thanks @bob and alice"))]
  /\ option_map (map Release.body) (assoc (str "acme/widgets") (remote (snd out)))
     = Some [Some (str "Thanks @bob and alice"); None; Some (str "no mention here")].
Proof. vm_compute. repeat split. Qed.

(** ** The backup manager *)

Lemma jsstring_eqb_eq a b : jsstring_eqb a b = true <-> a = b.
Proof.
  unfold jsstring_eqb. destruct (list_eq_dec ascii_dec a b); intuition congruence.
Qed.

Lemma jsstring_eqb_refl a : jsstring_eqb a a = true.
Proof. now apply jsstring_eqb_eq. Qed.

Lemma assoc_set_entry {A} k (v : A) es : assoc k (set_entry k v es) = Some v.
Proof.
  induction es as [|[k' v'] es IH]; simpl.
  - now rewrite jsstring_eqb_refl.
  - destruct (jsstring_eqb k k') eqn:E; simpl.
    + now rewrite jsstring_eqb_refl.
    + now rewrite E.
Qed.

(** A file that was written is there to be read. *)
Lemma lookup_write_file p : forall n d n',
  write_file n p d = Some n' -> lookup n' p = Some (File d).
Proof.
  induction p as [|c p IH]; intros n d n' H; [discriminate|].
  simpl in H. destruct n as [|es]; [discriminate|].
  destruct p as [|c' p].
  - destruct (assoc c es) as [[|]|]; try discriminate;
      injection H as <-; simpl; now rewrite assoc_set_entry.
  - destruct (assoc c es) as [n1|]; [|discriminate].
    destruct (write_file n1 (c' :: p) d) as [n2|] eqn:W; [|discriminate].
    injection H as <-.
    cbn [lookup]. rewrite assoc_set_entry. now apply (IH n1).
Qed.

Lemma bind_Ok {A B} (m : M A) (k : A -> M B) w b w' :
  bind m k w = (Ok b, w') ->
  exists a w1, m w = (Ok a, w1) /\ k a w1 = (Ok b, w').
Proof.
  unfold bind. destruct (m w) as [[a|e] w1]; [eauto|discriminate].
Qed.

Lemma try_catch_Some {A} (m : M (option A)) w x w' :
  try_catch m (fun _ => ret None) w = (Ok (Some x), w') ->
  m w = (Ok (Some x), w').
Proof.
  unfold try_catch, ret. destruct (m w) as [[a|e] w1]; [trivial|discriminate].
Qed.

Lemma writeFileSync_readJSON p d w w' :
  writeFileSync p d w = (Ok tt, w') ->
  match d with OtherText _ => True | _ => readJSON p w' = (Ok d, w') end.
Proof.
  unfold writeFileSync, readJSON.
  destruct (writable w); [|discriminate].
  destruct (write_file (cwd w) (components p) d) as [n|] eqn:W; [|discriminate].
  intros [= <-]. simpl. rewrite (lookup_write_file _ _ _ _ W).
  now destruct d.
Qed.

Lemma createBackup_written owner repo releases options w backupFile w' :
  createBackup owner repo releases options w = (Ok (Some backupFile), w') ->
  exists w3 now note,
    writeFileSync backupFile
      (BackupDoc (Backup.mk (owner ++ str "/" ++ repo) now (length releases)
                    (map capture releases) note)) w3 = (Ok tt, w').
Proof.
  intros H. unfold createBackup in H.
  apply try_catch_Some in H.
  apply bind_Ok in H as [[] [w1 [_ H]]].
  apply bind_Ok in H as [timestamp [w2 [_ H]]].
  apply bind_Ok in H as [now [w3 [_ H]]].
  apply bind_Ok in H as [[] [w4 [W H]]].
  injection H as <- <-.
  eexists _, _, _. exact W.
Qed.

(** C8. When [createBackup] has written its file, the document read back
    from it names the repository, counts as many releases as were given,
    and lists for each of them, in the order given, the fields [id],
    [tag_name], [name], [body], [created_at], [published_at] and [html_url]
    and nothing else. *)
Theorem backup_captures_releases
  (owner repo : jsstring) (releases : list Release.t) (options : BackupOptions)
  (w w' : World) (backupFile : jsstring) :
  createBackup owner repo releases options w = (Ok (Some backupFile), w') ->
  exists d,
    loadBackupData backupFile w' = (Ok (Some (BackupDoc d)), w')
    /\ Backup.repository d = owner ++ str "/" ++ repo
    /\ Backup.total_releases d = length releases
    /\ Backup.releases d
       = map (fun r => Backup.mk_release (Release.id r) (Release.tag_name r)
                         (Release.name r) (Release.body r) (Release.created_at r)
                         (Release.published_at r) (Release.html_url r))
           releases
    /\ map Backup.tag_name (Backup.releases d) = map Release.tag_name releases.
Proof.
  intros H.
  apply createBackup_written in H as [w3 [now [note W]]].
  apply writeFileSync_readJSON in W. cbv beta iota in W.
  eexists. split; [|repeat split].
  - unfold loadBackupData, try_catch, bind. rewrite W. reflexivity.
  - reflexivity.
  - reflexivity.
  - reflexivity.
  - simpl. rewrite map_map. reflexivity.
Qed.

Lemma backup_captures_releases_witness :
  exists d,
    loadBackupData
      (str "./backups/acme/widgets/releases-backup-2025-01-01T00-00-00-000Z.json")
      (snd (createBackup (str "acme") (str "widgets") [example_v1_0; example_v1_1]
              (mkOptions None None) example_world))
    = (Ok (Some (BackupDoc d)),
       snd (createBackup (str "acme") (str "widgets") [example_v1_0; example_v1_1]
              (mkOptions None None) example_world))
    /\ Backup.repository d = str "acme" ++ str "/" ++ str "widgets"
    /\ Backup.total_releases d = 2
    /\ Backup.releases d
       = map (fun r => Backup.mk_release (Release.id r) (Release.tag_name r)
                         (Release.name r) (Release.body r) (Release.created_at r)
                         (Release.published_at r) (Release.html_url r))
           [example_v1_0; example_v1_1]
    /\ map Backup.tag_name (Backup.releases d) = [str "v1.0"; str "v1.1"].
Proof.
  apply (backup_captures_releases (str "acme") (str "widgets")
           [example_v1_0; example_v1_1] (mkOptions None None) example_world).
  vm_compute. reflexivity.
Defined.

Lemma for_each_preserves {A S} (P : S -> Prop) (body : A -> S -> M S) :
  (forall x acc w acc' w', P acc -> body x acc w = (Ok acc', w') -> P acc') ->
  forall xs acc w acc' w',
    P acc -> for_each xs body acc w = (Ok acc', w') -> P acc'.
Proof.
  intros Hb. induction xs as [|x xs IH]; intros acc w acc' w' Hacc H; simpl in H.
  - injection H as <- _. exact Hacc.
  - apply bind_Ok in H as [a [w1 [H1 H2]]].
    apply (IH a w1 acc' w'); [|exact H2].
    apply (Hb x acc w a w1 Hacc H1).
Qed.

Lemma for_each_preserves_in {A S} (P : S -> Prop) (body : A -> S -> M S) xs :
  (forall x acc w acc' w', In x xs -> P acc -> body x acc w = (Ok acc', w') -> P acc') ->
  forall acc w acc' w',
    P acc -> for_each xs body acc w = (Ok acc', w') -> P acc'.
Proof.
  induction xs as [|x xs IH]; intros Hb acc w acc' w' Hacc H; simpl in H.
  - injection H as <- _. exact Hacc.
  - apply bind_Ok in H as [a [w1 [H1 H2]]].
    apply (IH (fun y acc0 v acc1 v1 Hy => Hb y acc0 v acc1 v1 (or_intror Hy))
              a w1 acc' w'); [|exact H2].
    apply (Hb x acc w a w1 (or_introl eq_refl) Hacc H1).
Qed.

(** C9. The index document that [createBackupIndex] writes has
    [total_releases = 0], whatever the disk holds. *)
Theorem backup_index_total_releases_zero
  (stat_size : node -> N) (w w' : World) (backupIndexFile : jsstring) :
  createBackupIndex stat_size w = (Ok (Some backupIndexFile), w') ->
  backupIndexFile = str "./backups/backup-index.json"
  /\ exists i,
       readJSON backupIndexFile w' = (Ok (IndexDoc i), w')
       /\ Index.total_releases i = 0.
Proof.
  intros H. unfold createBackupIndex in H.
  apply try_catch_Some in H.
  apply bind_Ok in H as [created [w1 [_ H]]].
  apply bind_Ok in H as [e [w2 [_ H]]].
  apply bind_Ok in H as [backupIndex [w3 [B H]]].
  apply bind_Ok in H as [[] [w4 [W H]]].
  injection H as <- <-.
  split; [reflexivity|].
  exists backupIndex. split.
  - apply writeFileSync_readJSON in W. exact W.
  - destruct e.
    + apply bind_Ok in B as [ownerDirs [w5 [_ B]]].
      revert B.
      apply (for_each_preserves (fun i => Index.total_releases i = 0));
        [|reflexivity].
      intros ownerDir acc v acc' v' Hacc Hb.
      apply bind_Ok in Hb as [repoDirs [v1 [_ Hb]]].
      revert Hb.
      apply (for_each_preserves (fun i => Index.total_releases i = 0));
        [|exact Hacc].
      intros repoDir acc1 u acc1' u' Hacc1 Hb1.
      apply bind_Ok in Hb1 as [backupFiles [u1 [_ Hb1]]].
      injection Hb1 as <- _. exact Hacc1.
    + injection B as <- _. reflexivity.
Qed.

Lemma backup_index_total_releases_zero_witness :
  exists i,
    readJSON (str "./backups/backup-index.json") example_world_indexed
    = (Ok (IndexDoc i), example_world_indexed)
    /\ Index.total_releases i = 0.
Proof.
  apply (backup_index_total_releases_zero example_size example_world_after_runs
           example_world_indexed (str "./backups/backup-index.json")).
  vm_compute. reflexivity.
Defined.

(** The index of the example: one repository, two backup files holding
    three releases each, and a count of zero releases. *)
Example backup_index_of_example :
  exists created files,
    readJSON (str "./backups/backup-index.json") example_world_indexed
    = (Ok (IndexDoc (Index.mk created 1 0
                       [Index.mk_repo (str "acme") (str "widgets") files])),
       example_world_indexed)
    /\ length files = 2.
Proof. eexists _, _. split; vm_compute; reflexivity. Qed.

(** ** The restore tool *)

Lemma readJSON_world p w : snd (readJSON p w) = w.
Proof. unfold readJSON. now destruct (lookup _ _) as [[[| |]|]|]. Qed.

Lemma restoreRelease_effect owner repo i b w :
  exists ok w',
    restoreRelease owner repo i b w = (Ok ok, w')
    /\ requests w' = requests w ++ [UpdateRelease owner repo i (Backup.body b)].
Proof.
  unfold restoreRelease, try_catch, bind, ret.
  pose proof (updateReleaseRequest_requests owner repo i (Backup.body b) w) as [R _].
  destruct (updateReleaseRequest _ _ _ _ w) as [[[]|e] w1]; simpl in *.
  - exists true, w1. now split.
  - exists false, w1. now split.
Qed.

Lemma restore_calls_cons owner repo live b bs :
  restore_calls owner repo live (b :: bs)
  = restore_call owner repo live b ++ restore_calls owner repo live bs.
Proof. reflexivity. Qed.

Lemma restore_loop_effect owner repo live backup :
  forall restoredCount w,
  exists n w',
    for_each backup
      (fun backupRelease restoredCount =>
         match find (fun r => jsstring_eqb (Release.tag_name r)
                                (Backup.tag_name backupRelease)) live with
         | None => ret restoredCount
         | Some currentRelease =>
             wasRestored <- restoreRelease owner repo (Release.id currentRelease)
                              backupRelease ;;
             ret (if wasRestored : bool then S restoredCount else restoredCount)
         end)
      restoredCount w = (Ok n, w')
    /\ requests w' = requests w ++ restore_calls owner repo live backup
    /\ restoredCount <= n
    /\ n <= restoredCount + length (restore_calls owner repo live backup).
Proof.
  induction backup as [|b bs IH]; intros cnt w.
  - exists cnt, w. simpl. rewrite app_nil_r. repeat split; lia.
  - rewrite restore_calls_cons. cbn [for_each].
    unfold bind at 1. unfold restore_call.
    destruct (find _ live) as [cur|].
    + unfold bind at 1.
      destruct (restoreRelease_effect owner repo (Release.id cur) b w)
        as [ok [w1 [E R]]].
      rewrite E. unfold ret at 1.
      destruct (IH (if ok then S cnt else cnt) w1) as [n [w2 [E2 [R2 [L1 L2]]]]].
      exists n, w2. split; [exact E2|].
      rewrite R2, R, <- app_assoc. simpl.
      repeat split; destruct ok; lia.
    + unfold ret at 1.
      destruct (IH cnt w) as [n [w2 [E2 [R2 [L1 L2]]]]].
      exists n, w2. simpl. now repeat split.
Qed.

Lemma restore_calls_are_updates owner repo live backup :
  filter is_update (restore_calls owner repo live backup)
  = restore_calls owner repo live backup.
Proof.
  induction backup as [|b bs IH]; [reflexivity|].
  rewrite restore_calls_cons. unfold restore_call.
  destruct (find _ live); simpl; now rewrite IH.
Qed.

(** C7. Given a backup with releases and a listing of the live releases,
    [restoreRepositoryFromBackup] returns without the error flag, having
    sent, for each backed-up release in order, no request when no live
    release has its tag name, and otherwise one update request that carries
    the backed-up body as it is to a live release with exactly that tag
    name; this holds whichever of the requests fail. *)
Theorem restore_matches_by_tag
  (owner repo backupFile : jsstring) (w w1 : World) (d : Backup.data)
  (live : list Release.t) :
  fst (readJSON backupFile w) = Ok (BackupDoc d) ->
  Backup.releases d <> [] ->
  listReleases owner repo 100 w = (Ok live, w1) ->
  exists n w',
    restoreRepositoryFromBackup owner repo backupFile w
    = (Ok (mkRestoreResult (length (Backup.releases d)) n false), w')
    /\ filter is_update (issued_since w w')
       = restore_calls owner repo live (Backup.releases d)
    /\ n <= length (restore_calls owner repo live (Backup.releases d))
    /\ (forall b,
          (forall r, In r live -> Release.tag_name r <> Backup.tag_name b) ->
          restore_call owner repo live b = [])
    /\ (forall b r0,
          In r0 live -> Release.tag_name r0 = Backup.tag_name b ->
          exists r, In r live /\ Release.tag_name r = Backup.tag_name b
                    /\ restore_call owner repo live b
                       = [UpdateRelease owner repo (Release.id r) (Backup.body b)]).
Proof.
  intros Hread Hne Hlist.
  destruct (restore_loop_effect owner repo live (Backup.releases d) 0 w1)
    as [n [w' [E [R [_ L]]]]].
  exists n, w'. repeat split.
  - unfold restoreRepositoryFromBackup, try_catch. unfold bind at 1.
    pose proof (readJSON_world backupFile w) as Hw.
    destruct (readJSON backupFile w) as [[doc|e] w0]; simpl in Hread, Hw;
      [|discriminate]. injection Hread as ->. subst w0.
    destruct (Backup.releases d) as [|b bs] eqn:Hd; [now destruct Hne|].
    cbn [length Nat.eqb]. unfold bind at 1. rewrite Hlist.
    unfold bind at 1. rewrite E. reflexivity.
  - destruct (listReleases_requests owner repo 100 w) as [R1 _].
    rewrite Hlist in R1. simpl in R1.
    rewrite (issued_since_app w w'
               (ListReleases owner repo 100
                  :: restore_calls owner repo live (Backup.releases d))).
    + simpl. apply restore_calls_are_updates.
    + rewrite R, R1, <- app_assoc. reflexivity.
  - exact L.
  - intros b Hb. unfold restore_call.
    destruct (find _ live) as [r|] eqn:F; [|reflexivity].
    apply find_some in F as [Ir Er]. apply jsstring_eqb_eq in Er.
    now destruct (Hb r Ir).
  - intros b r0 I0 E0. unfold restore_call.
    destruct (find _ live) as [r|] eqn:F.
    + apply find_some in F as [Ir Er]. apply jsstring_eqb_eq in Er.
      exists r. now repeat split.
    + apply (find_none _ _ F) in I0. simpl in I0.
      rewrite E0, jsstring_eqb_refl in I0. discriminate.
Qed.

Lemma restore_matches_by_tag_witness :
  exists n w',
    restoreRepositoryFromBackup (str "acme") (str "widgets")
      (str "./backups/acme/widgets/releases-backup-2025-01-01T00-00-00-000Z.json")
      example_world_restore
    = (Ok (mkRestoreResult 3 n false), w')
    /\ filter is_update (issued_since example_world_restore w')
       = [UpdateRelease (str "acme") (str "widgets") 11
            (Some (str "Thanks @alice and alice"));
          UpdateRelease (str "acme") (str "widgets") 13
            (Some (str "no mention here"))].
Proof.
  destruct (restore_matches_by_tag (str "acme") (str "widgets")
              (str "./backups/acme/widgets/releases-backup-2025-01-01T00-00-00-000Z.json")
              example_world_restore
              (send (ListReleases (str "acme") (str "widgets") 100) example_world_restore)
              (Backup.mk (str "acme/widgets") (str "2025-01-01T00:00:00.000Z") 3
                 (map capture [example_v1_0; example_v1_1; example_v1_2]) None)
              [example_v1_2; example_v1_0_updated])
    as [n [w' [E [C _]]]].
  - reflexivity.
  - discriminate.
  - reflexivity.
  - exists n, w'. split; [exact E|exact C].
Defined.

(** In the example the first update request fails and [v1.1] is gone: the
    release [v1.2] is restored all the same. *)
Example restore_skips_and_continues :
  let out := restoreRepositoryFromBackup (str "acme") (str "widgets")
               (str "./backups/acme/widgets/releases-backup-2025-01-01T00-00-00-000Z.json")
               example_world_restore in
  fst out = Ok (mkRestoreResult 3 1 false)
  /\ option_map (map Release.body) (assoc (str "acme/widgets") (remote (snd out)))
     = Some [Some (str "no mention here"); Some (str "Thanks @bob and alice")].
Proof. vm_compute. split; reflexivity. Qed.

(** C4 fails on the code: [main] takes the first backup file listed for the
    repository.  After two runs of the update script the index lists the
    January backup before the June one; the most recent is the June one,
    and the restore replays the January one. *)
Theorem restore_uses_first_listed_backup :
  let w := example_world_indexed in
  let january :=
    str "./backups/acme/widgets/releases-backup-2025-01-01T00-00-00-000Z.json" in
  let june :=
    str "./backups/acme/widgets/releases-backup-2025-06-01T10-20-30-456Z.json" in
  let out := main example_size (Some 1%Z) (str "yes") w in
  (exists files,
     fst (listAvailableBackups example_size w)
     = Ok [Index.mk_repo (str "acme") (str "widgets") files]
     /\ map Index.path files = [january; june]
     /\ map (timestamp_of w) files
        = [str "2025-01-01T00:00:00.000Z"; str "2025-06-01T10:20:30.456Z"]
     /\ option_map Index.path (most_recent w files) = Some june)
  /\ fst out = Ok (Completed january (mkRestoreResult 3 3 false))
  /\ filter is_update (issued_since w (snd out))
     = [UpdateRelease (str "acme") (str "widgets") 11 (Some (str "Thanks @alice and alice"));
        UpdateRelease (str "acme") (str "widgets") 12 None;
        UpdateRelease (str "acme") (str "widgets") 13 (Some (str "no mention here"))].
Proof.
  cbv zeta. split; [|split].
  - eexists. split; [vm_compute; reflexivity|].
    repeat split; vm_compute; reflexivity.
  - vm_compute. reflexivity.
  - vm_compute. reflexivity.
Qed.

(** * Further properties *)

(** ** The substitution engine, one entry at a time *)

Lemma exec_at_here old guard post :
  starts_with ("-"%char :: guard) post = false ->
  word_boundary (Some (last old "@"%char)) (hd_error post) = true ->
  exec_at old guard ("@"%char :: old ++ post) = Some post.
Proof.
  intros G B. unfold exec_at.
  rewrite (proj2 (strip_prefix_spec ("@"%char :: old) ("@"%char :: old ++ post) post) eq_refl).
  now rewrite G, B.
Qed.

Lemma exec_at_guarded old guard post :
  starts_with ("-"%char :: guard) post = true ->
  exec_at old guard ("@"%char :: old ++ post) = None.
Proof.
  intros G. unfold exec_at.
  rewrite (proj2 (strip_prefix_spec ("@"%char :: old) ("@"%char :: old ++ post) post) eq_refl).
  now rewrite G.
Qed.

Lemma exec_at_inside_word old guard post :
  word_boundary (Some (last old "@"%char)) (hd_error post) = false ->
  exec_at old guard ("@"%char :: old ++ post) = None.
Proof.
  intros B. unfold exec_at.
  rewrite (proj2 (strip_prefix_spec ("@"%char :: old) ("@"%char :: old ++ post) post) eq_refl).
  rewrite B. now destruct (starts_with _ _).
Qed.

(** A mention that is not matched where it starts is copied whole. *)
Lemma replace_all_unmatched_mention old guard repl post :
  no_at old = true ->
  exec_at old guard ("@"%char :: old ++ post) = None ->
  replace_all old guard repl ("@"%char :: old ++ post)
  = "@"%char :: old ++ replace_all old guard repl post.
Proof.
  intros Ho E. rewrite (replace_all_skip _ _ _ _ _ E).
  now rewrite replace_all_no_at.
Qed.

(** X1. Under a mapping with the one entry [(old, new)], a mention [@old]
    that comes after text without [@], ends at a word boundary and is not
    followed by [-] and the last segment of [new], is rewritten to [@new];
    the text after it is rewritten on its own. *)
Theorem substitute_rewrites_mention (old new pre post : jsstring) :
  handle old = true -> handle new = true ->
  no_at pre = true ->
  word_boundary (Some (last old "@"%char)) (hd_error post) = true ->
  starts_with ("-"%char :: last_segment new) post = false ->
  exists post',
    updateUsernamesInReleaseNotes (Some post) [(old, new)] = Some post'
    /\ updateUsernamesInReleaseNotes (Some (pre ++ "@"%char :: old ++ post)) [(old, new)]
       = Some (pre ++ "@"%char :: new ++ post').
Proof.
  intros _ _ Hpre B G.
  exists (replace_all old (last_segment new) ("@"%char :: new) post).
  rewrite !update_Some. unfold passes; simpl. split; [reflexivity|].
  rewrite replace_all_no_at by assumption.
  now rewrite (replace_all_match _ _ _ _ _ _ (exec_at_here old _ post G B)).
Qed.

Lemma substitute_rewrites_mention_witness :
  exists post',
    updateUsernamesInReleaseNotes (Some (str ", thanks!")) [(str "alice", str "bob")]
    = Some post'
    /\ updateUsernamesInReleaseNotes
         (Some (str "Fixed by " ++ "@"%char :: str "alice" ++ str ", thanks!"))
         [(str "alice", str "bob")]
       = Some (str "Fixed by " ++ "@"%char :: str "bob" ++ post').
Proof.
  apply (substitute_rewrites_mention (str "alice") (str "bob") (str "Fixed by ")
           (str ", thanks!")); reflexivity.
Defined.

(** X2. Under a mapping with the one entry [(old, new)] of handles, a
    mention [@old] that comes after text without [@] and is followed by [-]
    and the last segment of [new] is left as it is, together with that
    segment: the engine does not touch a mention that already carries the
    new suffix. The text after it is rewritten on its own. *)
Theorem substitute_keeps_guarded_mention (old new pre post : jsstring) :
  handle old = true -> handle new = true ->
  no_at pre = true ->
  exists post',
    updateUsernamesInReleaseNotes (Some post) [(old, new)] = Some post'
    /\ updateUsernamesInReleaseNotes
         (Some (pre ++ "@"%char :: old ++ "-"%char :: last_segment new ++ post))
         [(old, new)]
       = Some (pre ++ "@"%char :: old ++ "-"%char :: last_segment new ++ post').
Proof.
  intros Ho Hn Hpre.
  exists (replace_all old (last_segment new) ("@"%char :: new) post).
  rewrite !update_Some. unfold passes; simpl. split; [reflexivity|].
  rewrite replace_all_no_at by assumption.
  rewrite replace_all_unmatched_mention.
  - change ("-"%char :: last_segment new ++ post)
      with (("-"%char :: last_segment new) ++ post).
    rewrite replace_all_no_at; [reflexivity|].
    apply no_at_cons. split; [discriminate|].
    now apply handle_no_at, handle_last_segment.
  - now apply handle_no_at.
  - apply exec_at_guarded.
    change ("-"%char :: last_segment new ++ post)
      with (("-"%char :: last_segment new) ++ post).
    unfold starts_with.
    now rewrite (proj2 (strip_prefix_spec _ _ post) eq_refl).
Qed.

Lemma substitute_keeps_guarded_mention_witness :
  exists post',
    updateUsernamesInReleaseNotes (Some (str " and @nghia-nguyen"))
      [(str "nghia-nguyen", str "nghia-nguyen-4321")] = Some post'
    /\ updateUsernamesInReleaseNotes
         (Some (str "cc " ++ "@"%char :: str "nghia-nguyen" ++ "-"%char
                  :: last_segment (str "nghia-nguyen-4321") ++ str " and @nghia-nguyen"))
         [(str "nghia-nguyen", str "nghia-nguyen-4321")]
       = Some (str "cc " ++ "@"%char :: str "nghia-nguyen" ++ "-"%char
                 :: last_segment (str "nghia-nguyen-4321") ++ post').
Proof.
  apply (substitute_keeps_guarded_mention (str "nghia-nguyen")
           (str "nghia-nguyen-4321") (str "cc ") (str " and @nghia-nguyen"));
    reflexivity.
Defined.

(** X3. Under a mapping with the one entry [(old, new)] of handles, where
    [old] ends with a letter, digit or [_], a mention [@old] that comes
    after text without [@] and goes on with a letter, digit or [_], the
    mention of a longer handle, is not rewritten. The text after it is
    rewritten on its own. *)
Theorem substitute_keeps_longer_handle (old new pre post : jsstring) (c : ascii) :
  handle old = true -> handle new = true ->
  no_at pre = true ->
  is_word (last old "@"%char) = true ->
  is_word c = true ->
  exists post',
    updateUsernamesInReleaseNotes (Some post) [(old, new)] = Some post'
    /\ updateUsernamesInReleaseNotes (Some (pre ++ "@"%char :: old ++ c :: post))
         [(old, new)]
       = Some (pre ++ "@"%char :: old ++ c :: post').
Proof.
  intros Ho _ Hpre Wl Wc.
  exists (replace_all old (last_segment new) ("@"%char :: new) post).
  rewrite !update_Some. unfold passes; simpl. split; [reflexivity|].
  rewrite replace_all_no_at by assumption.
  rewrite replace_all_unmatched_mention.
  - rewrite replace_all_skip; [reflexivity|].
    apply exec_at_other. intros ->. discriminate Wc.
  - now apply handle_no_at.
  - apply exec_at_inside_word. unfold word_boundary; simpl. now rewrite Wl, Wc.
Qed.

Lemma substitute_keeps_longer_handle_witness :
  exists post',
    updateUsernamesInReleaseNotes (Some (str "on and @alice")) [(str "alice", str "bob")]
    = Some post'
    /\ updateUsernamesInReleaseNotes
         (Some (str "by " ++ "@"%char :: str "alice" ++ "s"%char :: str "on and @alice"))
         [(str "alice", str "bob")]
       = Some (str "by " ++ "@"%char :: str "alice" ++ "s"%char :: post').
Proof.
  apply (substitute_keeps_longer_handle (str "alice") (str "bob") (str "by ")
           (str "on and @alice") "s"%char); reflexivity.
Defined.

Lemma exec_at_starts_with old guard t rest :
  exec_at old guard t = Some rest -> starts_with ("@"%char :: old) t = true.
Proof.
  intros E. apply exec_at_spec in E. unfold starts_with.
  now rewrite (proj2 (strip_prefix_spec ("@"%char :: old) t rest) E).
Qed.

Lemma contains_unmatched old guard t :
  contains ("@"%char :: old) t = false -> unmatched old guard t = true.
Proof.
  induction t as [|c t IH]; intros H; [reflexivity|].
  cbn [contains] in H. apply orb_false_iff in H as [S C].
  apply unmatched_cons. split; [|now apply IH].
  destruct (exec_at old guard (c :: t)) as [rest|] eqn:E; [|reflexivity].
  apply exec_at_starts_with in E. congruence.
Qed.

(** Read literally, no pattern matches in a body in which no [@old]
    occurs. *)
Lemma literal_unmapped_unchanged (T : jsstring) (M : mapping) :
  forallb (fun e => negb (contains ("@"%char :: fst e) T)) M = true ->
  updateUsernamesInReleaseNotes (Some T) M = Some T.
Proof.
  intros H. rewrite update_Some. f_equal.
  apply passes_fixed. intros e He.
  rewrite forallb_forall in H. specialize (H e He).
  apply negb_true_iff in H. now apply contains_unmatched.
Qed.

Lemma count_at_app a b : count_at (a ++ b) = count_at a + count_at b.
Proof. apply count_occ_app. Qed.

Lemma count_at_no_at t : no_at t = true -> count_at t = 0.
Proof.
  induction t as [|c t IH]; intros H; [reflexivity|].
  apply no_at_cons in H as [Nc Ht]. unfold count_at in *. simpl.
  destruct (ascii_dec c "@"); [contradiction|now apply IH].
Qed.

Lemma rewrites_count_at m t r :
  handles m = true -> rewrites m t r -> count_at t = count_at r.
Proof.
  intros Hm H. induction H as [|c t r H IH|old new t r I H IH].
  - reflexivity.
  - unfold count_at in *. simpl. now rewrite IH.
  - destruct (handles_In m old new Hm I) as [Ho Hn].
    change ("@"%char :: old ++ t) with (["@"%char] ++ old ++ t).
    change ("@"%char :: new ++ r) with (["@"%char] ++ new ++ r).
    rewrite !count_at_app, IH.
    rewrite (count_at_no_at old) by now apply handle_no_at.
    rewrite (count_at_no_at new) by now apply handle_no_at.
    reflexivity.
Qed.

Lemma rewrites_star_count_at m t r :
  handles m = true -> rewrites_star m t r -> count_at t = count_at r.
Proof.
  intros Hm H. induction H as [|t u r H1 H2 IH]; [reflexivity|].
  rewrite <- IH. now apply (rewrites_count_at m).
Qed.

(** X5. For a mapping of handles, the body returned has as many [@] as the
    body given: the engine neither adds nor removes a mention. *)
Theorem substitute_preserves_mention_count (T : jsstring) (M : mapping) :
  handles M = true ->
  exists R,
    updateUsernamesInReleaseNotes (Some T) M = Some R /\ count_at R = count_at T.
Proof.
  intros HM. exists (passes M T). rewrite update_Some. split; [reflexivity|].
  symmetry. apply (rewrites_star_count_at M); [assumption|].
  apply passes_rewrites_star, incl_refl.
Qed.

Lemma substitute_preserves_mention_count_witness :
  exists R,
    updateUsernamesInReleaseNotes (Some (str "@alice, @carol and a@b"))
      [(str "alice", str "bob")] = Some R
    /\ count_at R = 3.
Proof.
  apply (substitute_preserves_mention_count (str "@alice, @carol and a@b")
           [(str "alice", str "bob")]). reflexivity.
Defined.

(** ** The update orchestrator, run by run *)

(** A [try] whose [catch] returns a value never throws. *)
Lemma try_catch_ret_total {A} (m : M A) (x : A) w :
  exists a, try_catch m (fun _ => ret x) w
            = (Ok a, snd (try_catch m (fun _ => ret x) w)).
Proof.
  unfold try_catch, ret. destruct (m w) as [[a|e] w1]; simpl; eauto.
Qed.

Lemma createBackup_total owner repo releases options w :
  exists backupFile,
    createBackup owner repo releases options w
    = (Ok backupFile, snd (createBackup owner repo releases options w)).
Proof. unfold createBackup. apply try_catch_ret_total. Qed.

Lemma bind_eq {A B} (m : M A) (k : A -> M B) w a w1 :
  m w = (Ok a, w1) -> bind m k w = k a w1.
Proof. intros E. unfold bind. now rewrite E. Qed.

Lemma try_catch_Ok {A} (m : M A) h w a w1 :
  m w = (Ok a, w1) -> try_catch m h w = (Ok a, w1).
Proof. intros E. unfold try_catch. now rewrite E. Qed.

Lemma fetched_eq owner repo w :
  getAllReleases owner repo w
  = (Ok (fetched owner repo w), snd (listReleases owner repo 100 w)).
Proof.
  unfold fetched. destruct (getAllReleases_total owner repo w) as [rs E].
  now rewrite E.
Qed.

(** What a run of [processRepositoryReleases] consists of. *)
Lemma process_run m owner repo w :
  let rs := fetched owner repo w in
  let w1 := snd (listReleases owner repo 100 w) in
  (rs = [] /\
   processRepositoryReleases m owner repo w = (Ok (mkProcessResult 0 0 None false), w1))
  \/
  (rs <> [] /\
   exists bf w2 n w3,
     createReleaseBackup owner repo rs w1 = (Ok bf, w2)
     /\ update_loop m owner repo rs 0 w2 = (Ok n, w3)
     /\ processRepositoryReleases m owner repo w
        = (Ok (mkProcessResult (length rs) n bf false), w3)).
Proof.
  cbv zeta. pose proof (fetched_eq owner repo w) as E.
  set (w1 := snd (listReleases owner repo 100 w)) in *.
  destruct (fetched owner repo w) as [|r rs].
  - left. split; [reflexivity|].
    unfold processRepositoryReleases. apply try_catch_Ok.
    now rewrite (bind_eq _ _ _ _ _ E).
  - right. split; [discriminate|].
    destruct (createBackup_total owner repo (r :: rs)
                (mkOptions (Some (str "release")) None) w1) as [bf B].
    set (w2 := snd (createBackup owner repo (r :: rs) _ w1)) in B.
    destruct (update_loop_effect m owner repo (r :: rs) 0 w2) as [n [w3 [L _]]].
    exists bf, w2, n, w3. split; [exact B|]. split; [exact L|].
    unfold processRepositoryReleases. apply try_catch_Ok.
    rewrite (bind_eq _ _ _ _ _ E). cbn [length Nat.eqb].
    assert (B' : backupReleaseNotes owner repo (r :: rs) w1 = (Ok bf, w2))
      by (unfold backupReleaseNotes; now apply try_catch_Ok).
    rewrite (bind_eq _ _ _ _ _ B').
    now rewrite (bind_eq _ _ _ _ _ L).
Qed.

Lemma fetched_length owner repo w : length (fetched owner repo w) <= 100.
Proof.
  unfold fetched, getAllReleases, try_catch, listReleases, ret.
  destruct (faults w _); cbn [fst length]; [lia|].
  destruct (assoc _ _) as [rs|]; cbn [fst length]; [|lia].
  apply firstn_le_length.
Qed.

(** X6. [processRepositoryReleases] always returns, never with the error
    flag set: it reports as processed the releases fetched, at most 100, as
    updated no more than need an update, and no backup file when nothing
    was fetched. *)
Theorem process_result_shape (m : mapping) (owner repo : jsstring) (w : World) :
  exists result w',
    processRepositoryReleases m owner repo w = (Ok result, w')
    /\ error result = false
    /\ processed result = length (fetched owner repo w)
    /\ processed result <= 100
    /\ updated result <= length (filter (needs_update m) (fetched owner repo w))
    /\ updated result <= processed result
    /\ (fetched owner repo w = [] -> backupFile result = None).
Proof.
  pose proof (fetched_length owner repo w) as Len.
  destruct (process_run m owner repo w) as [[E P]|[N [bf [w2 [n [w3 [B [L P]]]]]]]].
  - eexists _, _. split; [exact P|]. simpl. rewrite E. simpl.
    repeat split; lia.
  - eexists _, _. split; [exact P|]. simpl.
    destruct (update_loop_effect m owner repo (fetched owner repo w) 0 w2)
      as [n' [w3' [L' [_ [_ U]]]]].
    unfold update_loop in L. rewrite L in L'. injection L' as <- <-.
    pose proof (filter_length_le (needs_update m) (fetched owner repo w)) as F.
    repeat split; try lia. intros E. now destruct N.
Qed.

Lemma process_result_shape_witness :
  exists result w',
    processRepositoryReleases example_mapping (str "acme") (str "widgets") example_world
    = (Ok result, w')
    /\ error result = false
    /\ processed result = length (fetched (str "acme") (str "widgets") example_world)
    /\ processed result <= 100
    /\ updated result
       <= length (filter (needs_update example_mapping)
                    (fetched (str "acme") (str "widgets") example_world))
    /\ updated result <= processed result
    /\ (fetched (str "acme") (str "widgets") example_world = [] ->
        backupFile result = None).
Proof.
  apply (process_result_shape example_mapping (str "acme") (str "widgets") example_world).
Defined.

Lemma keeps_disk_ret {A} (a : A) : keeps_disk (ret a).
Proof. now intros w. Qed.

Lemma keeps_disk_throw {A} e : keeps_disk (@throw A e).
Proof. now intros w. Qed.

Lemma keeps_disk_bind {A B} (m : M A) (k : A -> M B) :
  keeps_disk m -> (forall a, keeps_disk (k a)) -> keeps_disk (bind m k).
Proof.
  intros Hm Hk w. unfold bind. specialize (Hm w).
  destruct (m w) as [[a|e] w1]; simpl in *; [|exact Hm].
  now rewrite (Hk a w1).
Qed.

Lemma keeps_disk_try_catch {A} (m : M A) h :
  keeps_disk m -> (forall e, keeps_disk (h e)) -> keeps_disk (try_catch m h).
Proof.
  intros Hm Hh w. unfold try_catch. specialize (Hm w).
  destruct (m w) as [[a|e] w1]; simpl in *; [exact Hm|].
  now rewrite (Hh e w1).
Qed.

Lemma keeps_disk_for_each {A S} (xs : list A) (body : A -> S -> M S) acc :
  (forall x a, keeps_disk (body x a)) -> keeps_disk (for_each xs body acc).
Proof.
  intros Hb. revert acc; induction xs as [|x xs IH]; intros acc; simpl.
  - apply keeps_disk_ret.
  - apply keeps_disk_bind; [apply Hb|apply IH].
Qed.

Lemma keeps_disk_if {A} (b : bool) (m1 m2 : M A) :
  keeps_disk m1 -> keeps_disk m2 -> keeps_disk (if b then m1 else m2).
Proof. now destruct b. Qed.

Lemma keeps_disk_existsSync p : keeps_disk (existsSync p).
Proof. now intros w. Qed.

Lemma keeps_disk_statSync p : keeps_disk (statSync p).
Proof. intros w. unfold statSync. now destruct (lookup _ _). Qed.

Lemma keeps_disk_readdirSync p : keeps_disk (readdirSync p).
Proof. intros w. unfold readdirSync. now destruct (lookup _ _) as [[|]|]. Qed.

Lemma keeps_disk_readJSON p : keeps_disk (readJSON p).
Proof. intros w. now rewrite readJSON_world. Qed.

Lemma keeps_disk_listReleases owner repo n : keeps_disk (listReleases owner repo n).
Proof. intros w. apply listReleases_requests. Qed.

Lemma keeps_disk_updateReleaseRequest owner repo i b :
  keeps_disk (updateReleaseRequest owner repo i b).
Proof. intros w. apply updateReleaseRequest_requests. Qed.

Create HintDb keeps_disk.
#[local] Hint Resolve keeps_disk_ret keeps_disk_throw keeps_disk_existsSync
  keeps_disk_statSync keeps_disk_readdirSync keeps_disk_readJSON
  keeps_disk_listReleases keeps_disk_updateReleaseRequest : keeps_disk.

Ltac keeps_disk_steps :=
  repeat first
    [ apply keeps_disk_try_catch; intros
    | apply keeps_disk_bind; intros
    | apply keeps_disk_for_each; intros
    | apply keeps_disk_if
    | match goal with |- keeps_disk (match ?x with _ => _ end) => destruct x end
    | solve [auto with keeps_disk] ].

Lemma keeps_disk_update_loop m owner repo releases cnt :
  keeps_disk (update_loop m owner repo releases cnt).
Proof. unfold update_loop, updateRelease. keeps_disk_steps. Qed.

Lemma readJSON_same_disk p w v :
  cwd w = cwd v -> fst (readJSON p w) = fst (readJSON p v).
Proof.
  intros E. unfold readJSON. rewrite E.
  now destruct (lookup _ _) as [[[| |]|]|].
Qed.

Lemma readJSON_pair p w : readJSON p w = (fst (readJSON p w), w).
Proof.
  rewrite <- (readJSON_world p w) at 3. now destruct (readJSON p w).
Qed.

(** The backup file a run reports is on the disk at the end of the run. *)
Lemma process_backup_written m owner repo w w' result file :
  processRepositoryReleases m owner repo w = (Ok result, w') ->
  backupFile result = Some file ->
  exists now note,
    readJSON file w'
    = (Ok (BackupDoc (Backup.mk (owner ++ str "/" ++ repo) now
                        (length (fetched owner repo w))
                        (map capture (fetched owner repo w)) note)), w')
    /\ processed result = length (fetched owner repo w)
    /\ fetched owner repo w <> [].
Proof.
  intros P F.
  destruct (process_run m owner repo w) as [[E P']|[N [bf [w2 [n [w3 [B [L P']]]]]]]];
    rewrite P' in P; injection P as <- <-; simpl in F; [discriminate|].
  subst bf.
  apply createBackup_written in B as [v [now [note W]]].
  apply writeFileSync_readJSON in W. cbv beta iota in W.
  pose proof (keeps_disk_update_loop m owner repo (fetched owner repo w) 0 w2) as K.
  rewrite L in K. simpl in K.
  exists now, note. split; [|split; [reflexivity|exact N]].
  rewrite readJSON_pair. rewrite (readJSON_same_disk file w3 w2 K).
  now rewrite W.
Qed.

(** X7. When a run of [processRepositoryReleases] reports a backup file,
    that file holds, at the end of the run, the releases as they were
    fetched, with the bodies they had before any update. *)
Theorem process_backup_holds_fetched_releases
  (m : mapping) (owner repo : jsstring) (w w' : World) (result : ProcessResult)
  (file : jsstring) :
  processRepositoryReleases m owner repo w = (Ok result, w') ->
  backupFile result = Some file ->
  exists d,
    readJSON file w' = (Ok (BackupDoc d), w')
    /\ Backup.total_releases d = processed result
    /\ map Backup.tag_name (Backup.releases d)
       = map Release.tag_name (fetched owner repo w)
    /\ map Backup.body (Backup.releases d)
       = map Release.body (fetched owner repo w).
Proof.
  intros P F.
  destruct (process_backup_written m owner repo w w' result file P F)
    as [now [note [R [Hp _]]]].
  eexists. split; [exact R|]. simpl. rewrite !map_map. now repeat split.
Qed.

Lemma process_backup_holds_fetched_releases_witness :
  exists d,
    readJSON (str "./backups/acme/widgets/releases-backup-2025-01-01T00-00-00-000Z.json")
      (snd (processRepositoryReleases example_mapping (str "acme") (str "widgets")
              example_world))
    = (Ok (BackupDoc d),
       snd (processRepositoryReleases example_mapping (str "acme") (str "widgets")
              example_world))
    /\ Backup.total_releases d = 3
    /\ map Backup.tag_name (Backup.releases d) = [str "v1.0"; str "v1.1"; str "v1.2"]
    /\ map Backup.body (Backup.releases d)
       = [Some (str "Thanks @alice and alice"); None; Some (str "no mention here")].
Proof.
  apply (process_backup_holds_fetched_releases example_mapping (str "acme")
           (str "widgets") example_world _
           (mkProcessResult 3 1
              (Some (str "./backups/acme/widgets/releases-backup-2025-01-01T00-00-00-000Z.json"))
              false)).
  - vm_compute. reflexivity.
  - reflexivity.
Defined.

Lemma assoc_set_entry_other {A} k k' (v : A) es :
  k' <> k -> assoc k' (set_entry k v es) = assoc k' es.
Proof.
  intros N.
  assert (F : jsstring_eqb k' k = false).
  { destruct (jsstring_eqb k' k) eqn:E; [|reflexivity].
    apply jsstring_eqb_eq in E. contradiction. }
  induction es as [|[k1 v1] es IH]; simpl.
  - now rewrite F.
  - destruct (jsstring_eqb k k1) eqn:E; simpl.
    + apply jsstring_eqb_eq in E. subst k1. now rewrite F.
    + now rewrite IH.
Qed.

Lemma set_body_other i b r : Release.id r <> i -> set_body i b r = r.
Proof.
  intros N. unfold set_body.
  destruct (Z.eqb_spec (Release.id r) i); [contradiction|reflexivity].
Qed.

Lemma set_body_self m r :
  set_body (Release.id r) (updateUsernamesInReleaseNotes (Release.body r) m) r
  = substituted m r.
Proof. unfold set_body, substituted. now rewrite Z.eqb_refl. Qed.

Lemma substituted_unchanged m r : needs_update m r = false -> substituted m r = r.
Proof.
  unfold needs_update, substituted. rewrite negb_false_iff, opt_eqb_eq.
  intros ->. now destruct r.
Qed.

Lemma map_set_body_notin i b l :
  ~ In i (map Release.id l) -> map (set_body i b) l = l.
Proof.
  induction l as [|r l IH]; intros N; [reflexivity|]. simpl in *.
  rewrite set_body_other by tauto. rewrite IH by tauto. reflexivity.
Qed.

Lemma map_id_substituted m l :
  map Release.id (map (substituted m) l) = map Release.id l.
Proof. rewrite map_map. reflexivity. Qed.

Lemma existsb_id_In i l :
  In i (map Release.id l) -> existsb (fun r => Z.eqb (Release.id r) i) l = true.
Proof.
  intros H. apply in_map_iff in H as [r [E I]].
  apply existsb_exists. exists r. split; [exact I|]. now apply Z.eqb_eq.
Qed.

(** One release, when no request fails. *)
Lemma updateRelease_fault_free m owner repo r w cur :
  (forall n, faults w n = false) ->
  assoc (full_name owner repo) (remote w) = Some cur ->
  In (Release.id r) (map Release.id cur) ->
  exists w',
    updateRelease m owner repo (Release.id r) r w = (Ok (needs_update m r), w')
    /\ faults w' = faults w
    /\ remote w'
       = (if needs_update m r
          then set_entry (full_name owner repo)
                 (map (set_body (Release.id r)
                         (updateUsernamesInReleaseNotes (Release.body r) m)) cur)
                 (remote w)
          else remote w).
Proof.
  intros F A I.
  unfold updateRelease, try_catch, bind, needs_update.
  destruct (opt_eqb _ _); simpl.
  - exists w. now repeat split.
  - unfold updateReleaseRequest. rewrite F, A, (existsb_id_In _ _ I).
    eexists. repeat split.
Qed.

Lemma update_loop_fault_free m owner repo :
  forall todo done cnt w,
    (forall n, faults w n = false) ->
    assoc (full_name owner repo) (remote w)
    = Some (map (substituted m) done ++ todo) ->
    NoDup (map Release.id (done ++ todo)) ->
    exists n w',
      update_loop m owner repo todo cnt w = (Ok n, w')
      /\ n = cnt + length (filter (needs_update m) todo)
      /\ assoc (full_name owner repo) (remote w')
         = Some (map (substituted m) (done ++ todo))
      /\ faults w' = faults w
      /\ (forall k, k <> full_name owner repo ->
                    assoc k (remote w') = assoc k (remote w)).
Proof.
  induction todo as [|r todo IH]; intros done cnt w F A D.
  - exists cnt, w. simpl. rewrite app_nil_r in *. repeat split; auto.
  - assert (I : In (Release.id r)
                  (map Release.id (map (substituted m) done ++ r :: todo))).
    { rewrite map_app. apply in_or_app. right. now left. }
    destruct (updateRelease_fault_free m owner repo r w _ F A I) as [w1 [E [F1 R1]]].
    assert (N : ~ In (Release.id r) (map Release.id done)
                /\ ~ In (Release.id r) (map Release.id todo)).
    { rewrite map_app in D. simpl in D. apply NoDup_remove_2 in D.
      split; intros H; apply D, in_or_app; tauto. }
    destruct N as [Nd Nt].
    assert (A1 : assoc (full_name owner repo) (remote w1)
                 = Some (map (substituted m) (done ++ [r]) ++ todo)).
    { rewrite R1. destruct (needs_update m r) eqn:U.
      - rewrite assoc_set_entry. f_equal.
        rewrite map_app. simpl.
        rewrite (map_set_body_notin _ _ (map (substituted m) done))
          by now rewrite map_id_substituted.
        rewrite (map_set_body_notin _ _ todo) by assumption.
        rewrite set_body_self, map_app, <- app_assoc. reflexivity.
      - rewrite A, map_app, <- app_assoc. simpl.
        now rewrite (substituted_unchanged m r U). }
    assert (F1' : forall n, faults w1 n = false) by (intros n; now rewrite F1).
    assert (D1 : NoDup (map Release.id ((done ++ [r]) ++ todo)))
      by now rewrite <- app_assoc.
    destruct (IH (done ++ [r]) (if needs_update m r then S cnt else cnt) w1 F1' A1 D1)
      as [n [w' [L [Hn [A' [F' O']]]]]].
    exists n, w'. split; [|split; [|split; [|split]]].
    + unfold update_loop in *. cbn [for_each].
      rewrite (bind_eq _ _ _ _ _ (bind_eq _ _ _ _ _ E)). exact L.
    + rewrite Hn. simpl. destruct (needs_update m r); simpl; lia.
    + rewrite A', <- app_assoc. reflexivity.
    + congruence.
    + intros k Hk. rewrite (O' k Hk), R1.
      destruct (needs_update m r); [|reflexivity].
      now apply assoc_set_entry_other.
Qed.

Lemma fetched_fault_free owner repo w rs :
  faults w (length (requests w)) = false ->
  assoc (full_name owner repo) (remote w) = Some rs ->
  length rs <= 100 ->
  fetched owner repo w = rs
  /\ snd (listReleases owner repo 100 w) = send (ListReleases owner repo 100) w.
Proof.
  intros F A L. unfold fetched, getAllReleases, try_catch, listReleases.
  rewrite F, A. cbn [fst snd]. split; [|reflexivity].
  now apply firstn_all2.
Qed.

(** A run of [processRepositoryReleases] on a repository of at most 100
    releases with distinct ids, when no request fails. *)
Lemma process_fault_free m owner repo w rs :
  assoc (full_name owner repo) (remote w) = Some rs ->
  length rs <= 100 ->
  NoDup (map Release.id rs) ->
  (forall n, faults w n = false) ->
  exists result w',
    processRepositoryReleases m owner repo w = (Ok result, w')
    /\ processed result = length rs
    /\ updated result = length (filter (needs_update m) rs)
    /\ assoc (full_name owner repo) (remote w') = Some (map (substituted m) rs)
    /\ (forall k, k <> full_name owner repo -> assoc k (remote w') = assoc k (remote w))
    /\ faults w' = faults w
    /\ issued_since w w'
       = ListReleases owner repo 100
           :: map (update_call m owner repo) (filter (needs_update m) rs).
Proof.
  intros A Len D F.
  destruct (fetched_fault_free owner repo w rs (F _) A Len) as [Ef Ew].
  pose proof (process_run m owner repo w) as R. cbv zeta in R.
  rewrite Ef, Ew in R.
  destruct R as [[E P]|[N [bf [w2 [n [w3 [B [L P]]]]]]]].
  - rewrite E in *. eexists _, _. split; [exact P|]. simpl.
    repeat split; auto. now apply issued_since_app.
  - pose proof (quiet_createBackup owner repo rs
                  (mkOptions (Some (str "release")) None)
                  (send (ListReleases owner repo 100) w)) as [Q1 [Q2 Q3]].
    unfold createReleaseBackup in B. rewrite B in Q1, Q2, Q3. simpl in Q1, Q2, Q3.
    assert (F2 : forall k, faults w2 k = false) by (intros k; now rewrite Q3).
    assert (A2 : assoc (full_name owner repo) (remote w2)
                 = Some (map (substituted m) [] ++ rs)) by now rewrite Q2.
    destruct (update_loop_fault_free m owner repo rs [] 0 w2 F2 A2 D)
      as [n' [w3' [L' [Hn [A' [F' O']]]]]].
    rewrite L in L'. injection L' as <- <-.
    destruct (update_loop_effect m owner repo rs 0 w2) as [n2 [w4 [L2 [R2 _]]]].
    unfold update_loop in L. rewrite L in L2. injection L2 as <- <-.
    eexists _, _. split; [exact P|]. simpl.
    repeat split; auto.
    + intros k Hk. now rewrite (O' k Hk), Q2.
    + now rewrite F', Q3.
    + apply issued_since_app. rewrite R2, Q1. simpl.
      now rewrite <- app_assoc.
Qed.



Lemma update_twice T m :
  handles m = true -> settled m = true ->
  updateUsernamesInReleaseNotes (updateUsernamesInReleaseNotes T m) m
  = updateUsernamesInReleaseNotes T m.
Proof.
  intros HM SM. destruct T as [t|]; [|reflexivity].
  rewrite !update_Some. f_equal.
  apply passes_fixed. intros e He.
  apply (passes_unmatched m HM SM m [] t);
    [apply incl_refl|intros x []|intros x []|now right].
Qed.

Lemma substituted_settled m r :
  handles m = true -> settled m = true ->
  needs_update m (substituted m r) = false.
Proof.
  intros HM SM. unfold needs_update, substituted. simpl.
  apply negb_false_iff, opt_eqb_eq. now apply update_twice.
Qed.

Lemma update_loop_nothing m owner repo releases :
  forallb (fun r => negb (needs_update m r)) releases = true ->
  forall cnt w, update_loop m owner repo releases cnt w = (Ok cnt, w).
Proof.
  induction releases as [|r rs IH]; intros H cnt w; [reflexivity|].
  simpl in H. apply andb_true_iff in H as [Hr Hrs].
  apply negb_true_iff in Hr.
  unfold update_loop in *. cbn [for_each].
  assert (E : updateRelease m owner repo (Release.id r) r w = (Ok false, w)).
  { unfold updateRelease, try_catch, bind. unfold needs_update in Hr.
    apply negb_false_iff in Hr. now rewrite Hr. }
  rewrite (bind_eq _ _ _ _ _ (bind_eq _ _ _ _ _ E)). now apply IH.
Qed.

(** X9. After a run on a repository of at most 100 releases with distinct
    ids in which no request failed, and for a mapping of handles in which no
    new handle can start a match, a second run finds nothing to do: it
    reports [updated = 0], sends no update request and leaves the releases
    as they are. *)
Theorem second_run_sends_no_update
  (m : mapping) (owner repo : jsstring) (w : World) (rs : list Release.t) :
  handles m = true ->
  settled m = true ->
  assoc (full_name owner repo) (remote w) = Some rs ->
  length rs <= 100 ->
  NoDup (map Release.id rs) ->
  (forall n, faults w n = false) ->
  exists result w'',
    processRepositoryReleases m owner repo
      (snd (processRepositoryReleases m owner repo w)) = (Ok result, w'')
    /\ processed result = length rs
    /\ updated result = 0
    /\ filter is_update
         (issued_since (snd (processRepositoryReleases m owner repo w)) w'') = []
    /\ remote w'' = remote (snd (processRepositoryReleases m owner repo w)).
Proof.
  intros HM SM A Len D F.
  destruct (process_fault_free m owner repo w rs A Len D F)
    as [r1 [w' [P [_ [_ [A' [_ [F' _]]]]]]]].
  rewrite P. cbn [snd].
  assert (Fw' : forall n, faults w' n = false) by (intros n; now rewrite F').
  assert (Len' : length (map (substituted m) rs) <= 100) by now rewrite length_map.
  destruct (fetched_fault_free owner repo w' _ (Fw' _) A' Len') as [Ef Ew].
  assert (Z : forallb (fun r => negb (needs_update m r)) (map (substituted m) rs) = true).
  { apply forallb_forall. intros r Hr. apply in_map_iff in Hr as [r0 [<- _]].
    now rewrite substituted_settled. }
  pose proof (process_run m owner repo w') as R. cbv zeta in R.
  rewrite Ef, Ew in R.
  destruct R as [[E P2]|[N [bf [w2 [n [w3 [B [L P2]]]]]]]].
  - eexists _, _. split; [exact P2|]. simpl.
    rewrite (issued_since_app w' _ [ListReleases owner repo 100]) by reflexivity.
    repeat split.
    rewrite <- (length_map (substituted m)), E. reflexivity.
  - rewrite (update_loop_nothing m owner repo _ Z 0 w2) in L.
    injection L as <- <-.
    pose proof (quiet_createBackup owner repo (map (substituted m) rs)
                  (mkOptions (Some (str "release")) None)
                  (send (ListReleases owner repo 100) w')) as [Q1 [Q2 _]].
    unfold createReleaseBackup in B. rewrite B in Q1, Q2. simpl in Q1, Q2.
    eexists _, _. split; [exact P2|]. simpl.
    rewrite (issued_since_app w' w2 [ListReleases owner repo 100]) by exact Q1.
    rewrite length_map. now repeat split.
Qed.

Lemma second_run_sends_no_update_witness :
  exists result w'',
    processRepositoryReleases example_mapping (str "acme") (str "widgets")
      (snd (processRepositoryReleases example_mapping (str "acme") (str "widgets")
              example_world)) = (Ok result, w'')
    /\ processed result = 3
    /\ updated result = 0.
Proof.
  destruct (second_run_sends_no_update example_mapping (str "acme") (str "widgets")
              example_world [example_v1_0; example_v1_1; example_v1_2])
    as [result [w'' [P [H1 [H2 _]]]]].
  - reflexivity.
  - reflexivity.
  - reflexivity.
  - simpl. lia.
  - repeat constructor; simpl; intuition discriminate.
  - intros n. reflexivity.
  - exists result, w''. repeat split; assumption.
Defined.

(** ** Update, then restore *)

Lemma find_by_tag m all r :
  NoDup (map Release.tag_name all) -> In r all ->
  find (fun x => jsstring_eqb (Release.tag_name x) (Backup.tag_name (capture r)))
    (map (substituted m) all)
  = Some (substituted m r).
Proof.
  induction all as [|x all IH]; intros D I; [destruct I|].
  simpl in D. apply NoDup_cons_iff in D as [Nx D].
  cbn [map find]. change (Release.tag_name (substituted m x)) with (Release.tag_name x).
  change (Backup.tag_name (capture r)) with (Release.tag_name r).
  destruct (jsstring_eqb (Release.tag_name x) (Release.tag_name r)) eqn:E.
  - apply jsstring_eqb_eq in E. destruct I as [->|I]; [reflexivity|].
    exfalso. apply Nx. rewrite E. now apply in_map.
  - destruct I as [->|I]; [now rewrite jsstring_eqb_refl in E|].
    now apply IH.
Qed.

Lemma set_body_back m r :
  set_body (Release.id r) (Release.body r) (substituted m r) = r.
Proof.
  unfold set_body, substituted. simpl. rewrite Z.eqb_refl. now destruct r.
Qed.

Lemma restoreRelease_fault_free owner repo i b w cur :
  (forall n, faults w n = false) ->
  assoc (full_name owner repo) (remote w) = Some cur ->
  In i (map Release.id cur) ->
  exists w',
    restoreRelease owner repo i b w = (Ok true, w')
    /\ faults w' = faults w
    /\ remote w'
       = set_entry (full_name owner repo)
           (map (set_body i (Backup.body b)) cur) (remote w).
Proof.
  intros F A I. unfold restoreRelease, try_catch, bind, updateReleaseRequest.
  rewrite F, A, (existsb_id_In _ _ I). eexists. repeat split.
Qed.

Lemma restore_loop_fault_free m owner repo all :
  NoDup (map Release.tag_name all) ->
  forall todo done cnt w,
    incl todo all ->
    (forall n, faults w n = false) ->
    assoc (full_name owner repo) (remote w)
    = Some (done ++ map (substituted m) todo) ->
    NoDup (map Release.id (done ++ todo)) ->
    exists w',
      restore_loop owner repo (map (substituted m) all) (map capture todo) cnt w
      = (Ok (cnt + length todo), w')
      /\ assoc (full_name owner repo) (remote w') = Some (done ++ todo)
      /\ (forall k, k <> full_name owner repo ->
                    assoc k (remote w') = assoc k (remote w)).
Proof.
  intros T. induction todo as [|r todo IH]; intros done cnt w I F A D.
  - exists w. simpl in *. rewrite Nat.add_0_r. repeat split; auto.
  - assert (Ir : In r all) by (apply I; now left).
    assert (Ii : In (Release.id r)
                   (map Release.id (done ++ map (substituted m) (r :: todo)))).
    { rewrite map_app. apply in_or_app. right. now left. }
    destruct (restoreRelease_fault_free owner repo (Release.id r) (capture r) w _ F A Ii)
      as [w1 [E [F1 R1]]].
    assert (N : ~ In (Release.id r) (map Release.id done)
                /\ ~ In (Release.id r) (map Release.id todo)).
    { rewrite map_app in D. simpl in D. apply NoDup_remove_2 in D.
      split; intros H; apply D, in_or_app; tauto. }
    destruct N as [Nd Nt].
    assert (A1 : assoc (full_name owner repo) (remote w1)
                 = Some ((done ++ [r]) ++ map (substituted m) todo)).
    { rewrite R1, assoc_set_entry. f_equal.
      rewrite map_app. cbn [map].
      rewrite (map_set_body_notin _ _ done) by assumption.
      rewrite (map_set_body_notin _ _ (map (substituted m) todo))
        by now rewrite map_id_substituted.
      change (Backup.body (capture r)) with (Release.body r).
      rewrite set_body_back, <- app_assoc. reflexivity. }
    assert (F1' : forall n, faults w1 n = false) by (intros n; now rewrite F1).
    assert (D1 : NoDup (map Release.id ((done ++ [r]) ++ todo)))
      by now rewrite <- app_assoc.
    assert (I1 : incl todo all) by (intros x Hx; apply I; now right).
    destruct (IH (done ++ [r]) (S cnt) w1 I1 F1' A1 D1) as [w' [L [A' O']]].
    exists w'. split; [|split].
    + unfold restore_loop in *. cbn [map for_each].
      rewrite (find_by_tag m all r T Ir).
      change (Release.id (substituted m r)) with (Release.id r).
      rewrite (bind_eq _ _ _ _ _ (bind_eq _ _ _ _ _ E)).
      rewrite L. f_equal. f_equal. simpl. lia.
    + rewrite A', <- app_assoc. reflexivity.
    + intros k Hk. rewrite (O' k Hk), R1. now apply assoc_set_entry_other.
Qed.

(** X10. Update, then restore: on a repository of at most 100 releases with
    distinct ids and distinct tag names, when no request fails, restoring
    from the backup file that a run of [processRepositoryReleases] reports
    restores every release and gives the repository back the releases it
    had before the run. *)
Theorem restore_after_update_gives_back_releases
  (m : mapping) (owner repo file : jsstring) (w w' : World)
  (rs : list Release.t) (result : ProcessResult) :
  assoc (full_name owner repo) (remote w) = Some rs ->
  length rs <= 100 ->
  NoDup (map Release.id rs) ->
  NoDup (map Release.tag_name rs) ->
  (forall n, faults w n = false) ->
  processRepositoryReleases m owner repo w = (Ok result, w') ->
  backupFile result = Some file ->
  exists w'',
    restoreRepositoryFromBackup owner repo file w'
    = (Ok (mkRestoreResult (length rs) (length rs) false), w'')
    /\ assoc (full_name owner repo) (remote w'') = Some rs
    /\ (forall k, k <> full_name owner repo -> assoc k (remote w'') = assoc k (remote w)).
Proof.
  intros A Len D T F P B.
  destruct (process_fault_free m owner repo w rs A Len D F)
    as [r1 [w1 [P1 [_ [_ [A' [O' [F' _]]]]]]]].
  rewrite P in P1. injection P1 as <- <-.
  destruct (process_backup_written m owner repo w w' result file P B)
    as [now [note [R [_ Ne]]]].
  destruct (fetched_fault_free owner repo w rs (F _) A Len) as [Ef _].
  rewrite Ef in R, Ne.
  assert (Fw' : forall n, faults w' n = false) by (intros n; now rewrite F').
  assert (Ll : listReleases owner repo 100 w'
               = (Ok (map (substituted m) rs), send (ListReleases owner repo 100) w')).
  { unfold listReleases. rewrite Fw', A'. f_equal. f_equal.
    apply firstn_all2. now rewrite length_map. }
  destruct (restore_loop_fault_free m owner repo rs T rs [] 0
              (send (ListReleases owner repo 100) w') (incl_refl _) Fw' A' D)
    as [w'' [L [A'' O'']]].
  exists w''. split; [|split].
  - unfold restoreRepositoryFromBackup. apply try_catch_Ok.
    rewrite (bind_eq _ _ _ _ _ R). cbn [Backup.releases].
    rewrite length_map.
    destruct rs as [|r rs']; [now destruct Ne|].
    cbn [length Nat.eqb].
    rewrite (bind_eq _ _ _ _ _ Ll).
    unfold restore_loop in L. rewrite (bind_eq _ _ _ _ _ L).
    reflexivity.
  - exact A''.
  - intros k Hk. rewrite (O'' k Hk). simpl. now apply O'.
Qed.

Lemma restore_after_update_gives_back_releases_witness :
  exists w'',
    restoreRepositoryFromBackup (str "acme") (str "widgets")
      (str "./backups/acme/widgets/releases-backup-2025-01-01T00-00-00-000Z.json")
      (snd (processRepositoryReleases example_mapping (str "acme") (str "widgets")
              example_world))
    = (Ok (mkRestoreResult 3 3 false), w'')
    /\ assoc (str "acme/widgets") (remote w'')
       = Some [example_v1_0; example_v1_1; example_v1_2].
Proof.
  destruct (restore_after_update_gives_back_releases example_mapping (str "acme")
              (str "widgets")
              (str "./backups/acme/widgets/releases-backup-2025-01-01T00-00-00-000Z.json")
              example_world
              (snd (processRepositoryReleases example_mapping (str "acme")
                      (str "widgets") example_world))
              [example_v1_0; example_v1_1; example_v1_2]
              (mkProcessResult 3 1
                 (Some (str "./backups/acme/widgets/releases-backup-2025-01-01T00-00-00-000Z.json"))
                 false))
    as [w'' [R [A _]]].
  - reflexivity.
  - simpl. lia.
  - repeat constructor; simpl; intuition discriminate.
  - repeat constructor; simpl; intuition discriminate.
  - intros n. reflexivity.
  - vm_compute. reflexivity.
  - reflexivity.
  - exists w''. split; assumption.
Defined.

(** ** The restore tool: what it leaves alone *)

Lemma quiet_subdirectories dir keep : quiet (subdirectories dir keep).
Proof. unfold subdirectories. quiet_steps. Qed.

Lemma quiet_backupFilesOf stat_size dir : quiet (backupFilesOf stat_size dir).
Proof. unfold backupFilesOf. quiet_steps. Qed.

Lemma quiet_listAvailableBackups stat_size : quiet (listAvailableBackups stat_size).
Proof.
  unfold listAvailableBackups.
  apply quiet_try_catch; [|intros; apply quiet_ret].
  apply quiet_bind; [apply quiet_existsSync|intros e].
  apply quiet_if; [apply quiet_ret|].
  apply quiet_bind; [apply quiet_existsSync|intros e'].
  apply quiet_if.
  - apply quiet_bind; [apply quiet_readJSON|intros; apply quiet_ret].
  - apply quiet_bind; [apply quiet_subdirectories|intros].
    apply quiet_for_each; intros.
    apply quiet_bind; [apply quiet_subdirectories|intros].
    apply quiet_for_each; intros.
    apply quiet_bind; [apply quiet_backupFilesOf|intros; apply quiet_ret].
Qed.

Lemma keeps_disk_subdirectories dir keep : keeps_disk (subdirectories dir keep).
Proof. unfold subdirectories. keeps_disk_steps. Qed.

Lemma keeps_disk_backupFilesOf stat_size dir : keeps_disk (backupFilesOf stat_size dir).
Proof. unfold backupFilesOf. keeps_disk_steps. Qed.

Lemma keeps_disk_listAvailableBackups stat_size :
  keeps_disk (listAvailableBackups stat_size).
Proof.
  unfold listAvailableBackups.
  apply keeps_disk_try_catch; [|intros; apply keeps_disk_ret].
  apply keeps_disk_bind; [apply keeps_disk_existsSync|intros e].
  apply keeps_disk_if; [apply keeps_disk_ret|].
  apply keeps_disk_bind; [apply keeps_disk_existsSync|intros e'].
  apply keeps_disk_if.
  - apply keeps_disk_bind; [apply keeps_disk_readJSON|intros; apply keeps_disk_ret].
  - apply keeps_disk_bind; [apply keeps_disk_subdirectories|intros].
    apply keeps_disk_for_each; intros.
    apply keeps_disk_bind; [apply keeps_disk_subdirectories|intros].
    apply keeps_disk_for_each; intros.
    apply keeps_disk_bind; [apply keeps_disk_backupFilesOf|intros; apply keeps_disk_ret].
Qed.

Lemma keeps_disk_restoreRepositoryFromBackup owner repo file :
  keeps_disk (restoreRepositoryFromBackup owner repo file).
Proof.
  unfold restoreRepositoryFromBackup, restoreRelease. keeps_disk_steps.
Qed.

Lemma keeps_disk_main stat_size choice confirm :
  keeps_disk (main stat_size choice confirm).
Proof.
  unfold main.
  apply keeps_disk_try_catch; [|intros; apply keeps_disk_ret].
  apply keeps_disk_bind; [apply keeps_disk_listAvailableBackups|intros backups].
  apply keeps_disk_if; [apply keeps_disk_ret|].
  destruct choice as [n|]; [|apply keeps_disk_throw].
  apply keeps_disk_if; [apply keeps_disk_ret|].
  destruct (nth_error _ _) as [selected|]; [|apply keeps_disk_throw].
  apply keeps_disk_if; [apply keeps_disk_ret|].
  destruct (Index.backup_files selected); [apply keeps_disk_throw|].
  apply keeps_disk_bind; [apply keeps_disk_restoreRepositoryFromBackup|].
  intros; apply keeps_disk_ret.
Qed.

(** [main] when the operator's second answer is neither [yes] nor [y]. *)
Lemma quiet_main_unconfirmed stat_size choice confirm :
  negb (jsstring_eqb (toLowerCase confirm) (str "yes"))
  && negb (jsstring_eqb (toLowerCase confirm) (str "y")) = true ->
  quiet (main stat_size choice confirm).
Proof.
  intros C. unfold main. rewrite C.
  apply quiet_try_catch; [|intros; apply quiet_ret].
  apply quiet_bind; [apply quiet_listAvailableBackups|intros backups].
  apply quiet_if; [apply quiet_ret|].
  destruct choice as [n|]; [|apply quiet_throw].
  apply quiet_if; [apply quiet_ret|].
  destruct (nth_error _ _) as [selected|]; [|apply quiet_throw].
  apply quiet_ret.
Qed.

(** X11. The restore tool's [main] never changes the disk, and unless the
    operator's confirmation is [yes] or [y] (in any letter case) it sends no
    request and leaves the releases at the provider as they are. *)
Theorem restore_main_needs_confirmation
  (stat_size : node -> N) (choice : option Z) (confirm : jsstring) (w : World) :
  cwd (snd (main stat_size choice confirm w)) = cwd w
  /\ (toLowerCase confirm <> str "yes" -> toLowerCase confirm <> str "y" ->
      requests (snd (main stat_size choice confirm w)) = requests w
      /\ remote (snd (main stat_size choice confirm w)) = remote w
      /\ forall file result,
           fst (main stat_size choice confirm w) <> Ok (Completed file result)).
Proof.
  split; [apply keeps_disk_main|].
  intros N1 N2.
  assert (C : negb (jsstring_eqb (toLowerCase confirm) (str "yes"))
              && negb (jsstring_eqb (toLowerCase confirm) (str "y")) = true).
  { apply andb_true_iff. split; apply negb_true_iff.
    - destruct (jsstring_eqb _ (str "yes")) eqn:E; [|reflexivity].
      apply jsstring_eqb_eq in E. contradiction.
    - destruct (jsstring_eqb _ (str "y")) eqn:E; [|reflexivity].
      apply jsstring_eqb_eq in E. contradiction. }
  destruct (quiet_main_unconfirmed stat_size choice confirm C w) as [Q1 [Q2 _]].
  split; [exact Q1|]. split; [exact Q2|].
  intros file result. unfold main, try_catch, bind. rewrite C.
  destruct (listAvailableBackups stat_size w) as [[backups|e] w1]; [|discriminate].
  destruct (length backups =? 0); [discriminate|].
  destruct choice as [n|]; [|discriminate].
  destruct (_ || _); [discriminate|].
  destruct (nth_error _ _); discriminate.
Qed.

Lemma restore_main_needs_confirmation_witness :
  requests (snd (main example_size (Some 1%Z) (str "No") example_world_indexed))
  = requests example_world_indexed
  /\ remote (snd (main example_size (Some 1%Z) (str "No") example_world_indexed))
     = remote example_world_indexed
  /\ forall file result,
       fst (main example_size (Some 1%Z) (str "No") example_world_indexed)
       <> Ok (Completed file result).
Proof.
  apply (restore_main_needs_confirmation example_size (Some 1%Z) (str "No")
           example_world_indexed); discriminate.
Defined.

Lemma issued_since_refl w : issued_since w w = [].
Proof. apply issued_since_app. now rewrite app_nil_r. Qed.

Lemma listReleases_remote owner repo n w :
  remote (snd (listReleases owner repo n w)) = remote w.
Proof.
  unfold listReleases. destruct (faults w _); [reflexivity|].
  now destruct (assoc _ _).
Qed.

(** X12. When the backup file cannot be read as a backup, or the listing
    of the live releases fails, [restoreRepositoryFromBackup] restores
    nothing: it reports zero releases processed and restored, sends no
    update request and leaves the releases at the provider as they are; a
    file that cannot be read at all sets the error flag and nothing is
    sent. *)
Theorem restore_failure_sends_no_update
  (owner repo file : jsstring) (w : World) :
  (forall d, fst (readJSON file w) <> Ok (BackupDoc d))
  \/ (exists e, fst (listReleases owner repo 100 w) = Throw e) ->
  exists res w',
    restoreRepositoryFromBackup owner repo file w = (Ok res, w')
    /\ restore_processed res = 0
    /\ restored res = 0
    /\ filter is_update (issued_since w w') = []
    /\ remote w' = remote w
    /\ ((forall doc, fst (readJSON file w) <> Ok doc) ->
        restore_error res = true /\ w' = w).
Proof.
  intros H.
  unfold restoreRepositoryFromBackup, try_catch. unfold bind at 1.
  rewrite (readJSON_pair file w).
  destruct (fst (readJSON file w)) as [doc|e] eqn:R.
  - assert (Nothing :
      exists res w',
        (Ok (mkRestoreResult 0 0 false), w) = (Ok res, w')
        /\ restore_processed res = 0 /\ restored res = 0
        /\ filter is_update (issued_since w w') = []
        /\ remote w' = remote w
        /\ ((forall doc0, Ok doc <> Ok doc0) -> restore_error res = true /\ w' = w)).
    { eexists _, _. split; [reflexivity|]. simpl. rewrite issued_since_refl.
      repeat split; try reflexivity; now destruct (H0 doc). }
    destruct doc as [d| |]; try exact Nothing.
    destruct (Backup.releases d) as [|b bs] eqn:Hd; [exact Nothing|].
    cbn [length Nat.eqb]. unfold bind at 1.
    destruct H as [H|[e H]]; [now destruct (H d)|].
    pose proof (listReleases_requests owner repo 100 w) as [Q _].
    pose proof (listReleases_remote owner repo 100 w) as Q2.
    destruct (listReleases owner repo 100 w) as [[live|e'] w1]; simpl in H;
      [discriminate|].
    simpl in Q, Q2. eexists _, _. split; [reflexivity|]. simpl.
    rewrite (issued_since_app w w1 _ Q).
    repeat split; try assumption; now destruct (H0 (BackupDoc d)).
  - eexists _, _. split; [reflexivity|]. simpl. rewrite issued_since_refl.
    now repeat split.
Qed.

Lemma restore_failure_sends_no_update_witness :
  exists res w',
    restoreRepositoryFromBackup (str "acme") (str "widgets")
      (str "./backups/acme/widgets/missing.json") example_world_restore
    = (Ok res, w')
    /\ restore_processed res = 0
    /\ restored res = 0
    /\ restore_error res = true
    /\ w' = example_world_restore.
Proof.
  destruct (restore_failure_sends_no_update (str "acme") (str "widgets")
              (str "./backups/acme/widgets/missing.json") example_world_restore)
    as [res [w' [E [H1 [H2 [_ [_ H3]]]]]]].
  - left. intros d. vm_compute. discriminate.
  - destruct H3 as [H3 H4]; [intros doc; vm_compute; discriminate|].
    exists res, w'. now repeat split.
Defined.

(** ** The backup manager: names, errors, silence *)

Lemma replace_first_prefix pattern s : replace_first pattern [] (pattern ++ s) = s.
Proof.
  destruct s as [|c s]; destruct pattern as [|a p]; simpl; try reflexivity.
  - rewrite app_nil_r, Ascii.eqb_refl.
    now rewrite (proj2 (strip_prefix_spec p p []) (eq_sym (app_nil_r p))).
  - rewrite Ascii.eqb_refl.
    now rewrite (proj2 (strip_prefix_spec p (p ++ c :: s) (c :: s)) eq_refl).
Qed.

Lemma replace_first_suffix_json ts :
  existsb colon_or_dot ts = false ->
  replace_first (str ".json") [] (ts ++ str ".json") = ts.
Proof.
  induction ts as [|c ts IH]; intros H; [reflexivity|].
  simpl in H. apply orb_false_iff in H as [Hc Hts].
  unfold colon_or_dot in Hc. apply orb_false_iff in Hc as [_ Hd].
  cbn [app replace_first strip_prefix str list_ascii_of_string].
  rewrite Ascii.eqb_sym, Hd. f_equal. now apply IH.
Qed.

Lemma timestamp_map_clean iso :
  existsb colon_or_dot
    (map (fun c => if Ascii.eqb c ":" || Ascii.eqb c "." then "-"%char else c) iso)
  = false.
Proof.
  induction iso as [|c iso IH]; [reflexivity|]. simpl. rewrite IH.
  unfold colon_or_dot.
  destruct (Ascii.eqb c ":" || Ascii.eqb c ".") eqn:E; [reflexivity|].
  now rewrite E.
Qed.

Lemma timestampOf_release_backup iso :
  BackupHelpers.timestampOf (str "releases-backup-" ++ fileNameSafe iso ++ str ".json")
  = fileNameSafe iso.
Proof.
  unfold BackupHelpers.timestampOf.
  rewrite replace_first_prefix. apply replace_first_suffix_json.
  apply timestamp_map_clean.
Qed.

Lemma helpers_backupFilesOf_entries stat_size dir w files w' :
  BackupHelpers.backupFilesOf stat_size dir w = (Ok files, w') ->
  Forall (listed_entry_of dir) files.
Proof.
  unfold BackupHelpers.backupFilesOf. intros H.
  apply bind_Ok in H as [names [w1 [_ H]]].
  revert H. apply for_each_preserves_in; [|constructor].
  intros file acc v acc' v' I Hacc B.
  apply bind_Ok in B as [n [v1 [_ B]]]. injection B as <- _.
  apply Forall_app. split; [exact Hacc|].
  constructor; [|constructor].
  apply filter_In in I as [_ I]. split; [exact I|]. split; [reflexivity|].
  simpl. intros iso ->. apply timestampOf_release_backup.
Qed.

(** X13. Every entry that [listAvailableBackups] of [helpers/backup]
    reports names a file ending in [.json], with the path
    [./backups/owner/repo/file]; for a file named
    [releases-backup-<t>.json], where [t] is a clock reading with [:] and
    [.] replaced by [-] (the names [createReleaseBackup] gives), the
    timestamp reported is [t]. *)
Theorem listing_timestamp_of_release_backup
  (stat_size : node -> N) (w w' : World) (backups : list Listing.repo_backups) :
  BackupHelpers.listAvailableBackups stat_size w = (Ok backups, w') ->
  Forall listed_repo_ok backups.
Proof.
  intros H. unfold BackupHelpers.listAvailableBackups, try_catch in H.
  match type of H with
  | context [match ?m w with _ => _ end] => destruct (m w) as [[a|e] w1] eqn:E
  end.
  - injection H as <- <-.
    apply bind_Ok in E as [e [w2 [_ E]]].
    destruct e; [|injection E as <- _; constructor].
    apply bind_Ok in E as [ownerDirs [w3 [_ E]]].
    revert E. apply (for_each_preserves (Forall listed_repo_ok)); [|constructor].
    intros ownerDir acc v acc' v' Hacc Hb.
    apply bind_Ok in Hb as [repoDirs [v1 [_ Hb]]].
    revert Hb. apply (for_each_preserves (Forall listed_repo_ok)); [|exact Hacc].
    intros repoDir acc1 u acc1' u' Hacc1 Hb1.
    apply bind_Ok in Hb1 as [backupFiles [u1 [F Hb1]]].
    injection Hb1 as <- _.
    apply Forall_app. split; [exact Hacc1|].
    constructor; [|constructor].
    unfold listed_repo_ok. simpl.
    apply (helpers_backupFilesOf_entries _ _ _ _ _ F).
  - unfold ret in H. injection H as <- _. constructor.
Qed.

Lemma listing_timestamp_of_release_backup_witness :
  Forall listed_repo_ok
    (match fst (BackupHelpers.listAvailableBackups example_size example_world_after_runs) with
     | Ok backups => backups
     | Throw _ => []
     end).
Proof.
  apply (listing_timestamp_of_release_backup example_size example_world_after_runs
           (snd (BackupHelpers.listAvailableBackups example_size example_world_after_runs))).
  vm_compute. reflexivity.
Defined.

(** The listing of the example after two runs: one repository, two
    backups, each with the timestamp of its file name. *)
Example listing_of_example :
  map (fun r => (Listing.owner r, Listing.repo r,
                 map Listing.timestamp (Listing.backup_files r)))
    (match fst (BackupHelpers.listAvailableBackups example_size example_world_after_runs) with
     | Ok backups => backups
     | Throw _ => []
     end)
  = [(str "acme", str "widgets",
      [str "2025-01-01T00-00-00-000Z"; str "2025-06-01T10-20-30-456Z"])].
Proof. vm_compute. reflexivity. Qed.

(** The throw of [reposGet] for one name does not stop the verification of
    the others: here the first name fails and the second is verified. *)
Example verification_goes_on_after_a_failure :
  fst (UpdateScript.getWhitelistedRepositories [str "gone"; str "widgets"]
         (fun owner repo w =>
            match assoc (full_name owner repo) (remote w) with
            | Some _ => (Ok (Repo.mk repo (full_name owner repo) false false false), w)
            | None => (Throw (str "Not Found"), w)
            end)
         (str "acme") example_world)
  = Ok [Repo.mk (str "widgets") (str "acme/widgets") false false false].
Proof. vm_compute. reflexivity. Qed.

Lemma quiet_createBackupIndex stat_size : quiet (createBackupIndex stat_size).
Proof.
  unfold createBackupIndex.
  apply quiet_try_catch; [|intros; apply quiet_ret].
  apply quiet_bind; [apply quiet_toISOString_now|intros created].
  apply quiet_bind; [apply quiet_existsSync|intros e].
  apply quiet_bind; [|intros; apply quiet_bind;
                       [apply quiet_writeFileSync|intros; apply quiet_ret]].
  apply quiet_if; [|apply quiet_ret].
  apply quiet_bind; [apply quiet_subdirectories|intros].
  apply quiet_for_each; intros.
  apply quiet_bind; [apply quiet_subdirectories|intros].
  apply quiet_for_each; intros.
  apply quiet_bind; [apply quiet_backupFilesOf|intros; apply quiet_ret].
Qed.

Lemma quiet_helpers_backupFilesOf stat_size dir :
  quiet (BackupHelpers.backupFilesOf stat_size dir).
Proof. unfold BackupHelpers.backupFilesOf. quiet_steps. Qed.

Lemma quiet_helpers_listAvailableBackups stat_size :
  quiet (BackupHelpers.listAvailableBackups stat_size).
Proof.
  unfold BackupHelpers.listAvailableBackups.
  apply quiet_try_catch; [|intros; apply quiet_ret].
  apply quiet_bind; [apply quiet_existsSync|intros e].
  apply quiet_if; [|apply quiet_ret].
  apply quiet_bind; [apply quiet_subdirectories|intros].
  apply quiet_for_each; intros.
  apply quiet_bind; [apply quiet_subdirectories|intros].
  apply quiet_for_each; intros.
  apply quiet_bind; [apply quiet_helpers_backupFilesOf|intros; apply quiet_ret].
Qed.

Lemma quiet_loadBackupData file : quiet (loadBackupData file).
Proof. unfold loadBackupData. quiet_steps. Qed.

(** X15. The backup manager and the listings work on the disk only:
    [createBackup], [createBackupIndex], [loadBackupData] and the two
    [listAvailableBackups] send no request to the provider and leave its
    releases as they are. *)
Theorem backup_manager_sends_nothing
  (stat_size : node -> N) (owner repo file : jsstring)
  (releases : list Release.t) (options : BackupOptions) (w : World) :
  let unchanged := fun w' : World => requests w' = requests w /\ remote w' = remote w in
  unchanged (snd (createBackup owner repo releases options w))
  /\ unchanged (snd (createBackupIndex stat_size w))
  /\ unchanged (snd (loadBackupData file w))
  /\ unchanged (snd (BackupHelpers.listAvailableBackups stat_size w))
  /\ unchanged (snd (listAvailableBackups stat_size w)).
Proof.
  cbv zeta beta.
  destruct (quiet_createBackup owner repo releases options w) as [A1 [A2 _]].
  destruct (quiet_createBackupIndex stat_size w) as [B1 [B2 _]].
  destruct (quiet_loadBackupData file w) as [C1 [C2 _]].
  destruct (quiet_helpers_listAvailableBackups stat_size w) as [D1 [D2 _]].
  destruct (quiet_listAvailableBackups stat_size w) as [E1 [E2 _]].
  now repeat split.
Qed.

(** ** Paths and directories *)

Lemma split_nonempty sep s : split sep s <> [].
Proof.
  destruct s as [|c s]; simpl; [discriminate|].
  destruct (Ascii.eqb c sep); [discriminate|].
  destruct (split sep s); discriminate.
Qed.

Lemma split_app_sep sep a b :
  split sep (a ++ sep :: b) = split sep a ++ split sep b.
Proof.
  induction a as [|c a IH]; simpl.
  - now rewrite Ascii.eqb_refl.
  - destruct (Ascii.eqb c sep); [now rewrite IH|].
    rewrite IH. pose proof (split_nonempty sep a) as N.
    destruct (split sep a) as [|h t]; [now destruct N|reflexivity].
Qed.

Lemma split_no_sep sep a :
  existsb (Ascii.eqb sep) a = false -> split sep a = [a].
Proof.
  induction a as [|c a IH]; intros H; [reflexivity|].
  simpl in H. apply orb_false_iff in H as [Hc Ha].
  simpl. rewrite Ascii.eqb_sym, Hc. now rewrite IH.
Qed.

Lemma split_pieces sep s :
  Forall (fun piece => existsb (Ascii.eqb sep) piece = false) (split sep s).
Proof.
  induction s as [|c s IH]; simpl; [now repeat constructor|].
  destruct (Ascii.eqb c sep) eqn:E; [now constructor|].
  pose proof (split_nonempty sep s) as N.
  destruct (split sep s) as [|h t]; [now destruct N|].
  inversion IH as [|? ? Hh Ht]; subst. constructor; [|assumption].
  simpl. now rewrite Ascii.eqb_sym, E.
Qed.

Lemma components_app a b :
  components (a ++ str "/" ++ b) = components a ++ components b.
Proof.
  unfold components. change (str "/" ++ b) with ("/"%char :: b).
  now rewrite split_app_sep, filter_app.
Qed.

Lemma components_piece piece :
  existsb (Ascii.eqb "/") piece = false ->
  components piece = if named piece then [piece] else [].
Proof.
  intros H. unfold components. rewrite (split_no_sep _ _ H). reflexivity.
Qed.

Lemma components_plain n : plain_name n = true -> components n = [n].
Proof.
  unfold plain_name. rewrite andb_true_iff, negb_true_iff. intros [N S].
  rewrite (components_piece n S). now rewrite N.
Qed.

Lemma mkdir_p_lookup p : forall n n',
  mkdir_p n p = Some n' -> exists es, lookup n' p = Some (Dir es).
Proof.
  induction p as [|c p IH]; intros n n' H; simpl in H.
  - destruct n as [|es]; [discriminate|]. injection H as <-. now exists es.
  - destruct n as [|es]; [discriminate|].
    destruct (mkdir_p _ p) as [n''|] eqn:E; [|discriminate].
    injection H as <-. cbn [lookup]. rewrite assoc_set_entry.
    now apply (IH _ _ E).
Qed.

(** The path that the loop of [createBackupDirectory] has reached. *)
Lemma directory_loop_path dirs :
  Forall (fun piece => existsb (Ascii.eqb "/") piece = false) dirs ->
  forall cur w cur' w',
    directory_loop dirs cur w = (Ok cur', w') ->
    components cur' = components cur ++ filter named dirs
    /\ (lookup (cwd w) (components cur) <> None ->
        lookup (cwd w') (components cur') <> None).
Proof.
  induction 1 as [|dir dirs Hd _ IH]; intros cur w cur' w' L.
  - injection L as <- <-. simpl. rewrite app_nil_r. now split.
  - unfold directory_loop in L. cbn [for_each] in L.
    apply bind_Ok in L as [cur1 [w1 [B L]]].
    fold (directory_loop dirs cur1) in L.
    destruct (IH _ _ _ _ L) as [P E].
    assert (Step : components cur1 = components cur ++ filter named [dir]
                   /\ (lookup (cwd w) (components cur) <> None ->
                       lookup (cwd w1) (components cur1) <> None)).
    { destruct dir as [|c dir].
      - injection B as <- <-. simpl. rewrite app_nil_r. now split.
      - set (next := cur ++ match cur with [] => [] | _ :: _ => str "/" end ++ c :: dir) in *.
        assert (Pn : components next = components cur ++ filter named [c :: dir]).
        { unfold next. destruct cur as [|x cur].
          - simpl app. rewrite (components_piece _ Hd). simpl.
            now destruct (named (c :: dir)).
          - rewrite components_app, (components_piece _ Hd). simpl.
            now destruct (named (c :: dir)). }
        apply bind_Ok in B as [e [v [X B]]].
        apply bind_Ok in B as [[] [v1 [K B]]].
        injection B as <- <-. split; [exact Pn|]. intros _.
        injection X as <- <-.
        destruct (lookup (cwd w) (components next)) eqn:Lk.
        + injection K as <-. now rewrite Lk.
        + unfold mkdirSync in K. destruct (writable w); [|discriminate].
          destruct (mkdir_p (cwd w) (components next)) as [n|] eqn:Mk; [|discriminate].
          injection K as <-. simpl.
          destruct (mkdir_p_lookup _ _ _ Mk) as [es ->]. discriminate. }
    destruct Step as [P1 E1]. split.
    + rewrite P, P1. simpl. rewrite <- app_assoc. f_equal.
      now destruct (named dir).
    + intros H0. apply E, E1, H0.
Qed.

(** X16. When [createBackupDirectory] returns for a relative path, not
    empty and without [..], the path it was given exists on the disk. (An
    absolute path is outside of this: the loop drops the leading [/] and
    creates the directories under the working directory.) *)
Theorem createBackupDirectory_creates (backupPath : jsstring) (w w' : World) :
  plain_path backupPath = true ->
  createBackupDirectory backupPath w = (Ok tt, w') ->
  existsSync backupPath w' = (Ok true, w').
Proof.
  intros _ H. unfold createBackupDirectory in H.
  apply bind_Ok in H as [cur [w1 [L H]]]. injection H as <-.
  fold (directory_loop (split "/"%char backupPath) []) in L.
  destruct (directory_loop_path _ (split_pieces "/"%char backupPath) _ _ _ _ L)
    as [P E].
  unfold existsSync. f_equal. f_equal.
  change (components backupPath) with (components [] ++ filter named (split "/"%char backupPath)).
  rewrite <- P.
  destruct (lookup (cwd w1) (components cur)) eqn:Lk; [reflexivity|].
  exfalso. apply E; [simpl; discriminate|reflexivity].
Qed.

Lemma createBackupDirectory_creates_witness :
  existsSync (str "./backups/acme/widgets")
    (snd (createBackupDirectory (str "./backups/acme/widgets") example_world))
  = (Ok true, snd (createBackupDirectory (str "./backups/acme/widgets") example_world)).
Proof.
  apply (createBackupDirectory_creates (str "./backups/acme/widgets") example_world).
  - reflexivity.
  - vm_compute. reflexivity.
Defined.

(** ** Where a backup is written *)

Lemma preserves_ret {X A} (f : World -> X) (a : A) : preserves f (ret a).
Proof. now intros w. Qed.

Lemma preserves_bind {X A B} (f : World -> X) (m : M A) (k : A -> M B) :
  preserves f m -> (forall a, preserves f (k a)) -> preserves f (bind m k).
Proof.
  intros Hm Hk w. unfold bind. specialize (Hm w).
  destruct (m w) as [[a|e] w1]; simpl in *; [|exact Hm].
  now rewrite (Hk a w1).
Qed.

Lemma preserves_try_catch {X A} (f : World -> X) (m : M A) h :
  preserves f m -> (forall e, preserves f (h e)) -> preserves f (try_catch m h).
Proof.
  intros Hm Hh w. unfold try_catch. specialize (Hm w).
  destruct (m w) as [[a|e] w1]; simpl in *; [exact Hm|].
  now rewrite (Hh e w1).
Qed.

Lemma preserves_for_each {X A S} (f : World -> X) (xs : list A)
  (body : A -> S -> M S) acc :
  (forall x a, preserves f (body x a)) -> preserves f (for_each xs body acc).
Proof.
  intros Hb. revert acc; induction xs as [|x xs IH]; intros acc; simpl.
  - apply preserves_ret.
  - apply preserves_bind; [apply Hb|apply IH].
Qed.

Lemma preserves_if {X A} (f : World -> X) (b : bool) (m1 m2 : M A) :
  preserves f m1 -> preserves f m2 -> preserves f (if b then m1 else m2).
Proof. now destruct b. Qed.

Lemma timing_existsSync p : preserves timing (existsSync p).
Proof. now intros w. Qed.

Lemma timing_statSync p : preserves timing (statSync p).
Proof. intros w. unfold statSync. now destruct (lookup _ _). Qed.

Lemma timing_readdirSync p : preserves timing (readdirSync p).
Proof. intros w. unfold readdirSync. now destruct (lookup _ _) as [[|]|]. Qed.

Lemma timing_mkdirSync p : preserves timing (mkdirSync p).
Proof.
  intros w. unfold mkdirSync. destruct (writable w) eqn:W; [|reflexivity].
  destruct (mkdir_p _ _); [|reflexivity]. unfold timing. simpl. now rewrite W.
Qed.

Lemma timing_createBackupDirectory p : preserves timing (createBackupDirectory p).
Proof.
  unfold createBackupDirectory.
  apply preserves_bind; [|intros; apply preserves_ret].
  apply preserves_for_each. intros dir cur.
  destruct dir; [apply preserves_ret|].
  apply preserves_bind; [apply timing_existsSync|intros e].
  apply preserves_bind; [|intros; apply preserves_ret].
  apply preserves_if; [apply preserves_ret|apply timing_mkdirSync].
Qed.

(** X17. When [createBackup] returns a path, the path is the kind's root
    ([./test-backups] for a test backup, [./backups] otherwise), the owner,
    the repository and a file named after the kind and the clock reading
    with [:] and [.] replaced by [-]; the file holds a backup document
    stamped with the next clock reading, with a note exactly when it is a
    test backup. *)
Theorem createBackup_file_name
  (owner repo : jsstring) (releases : list Release.t) (options : BackupOptions)
  (w w' : World) (file : jsstring) :
  createBackup owner repo releases options w = (Ok (Some file), w') ->
  let isTest := opt_eqb (type options) (Some (str "test")) in
  file = ((if isTest then str "./test-backups" else str "./backups")
            ++ str "/" ++ owner ++ str "/" ++ repo)
           ++ str "/" ++ (if isTest then str "test-backup" else str "releases-backup")
           ++ str "-" ++ fileNameSafe (clock w (clock_reads w)) ++ str ".json"
  /\ exists d,
       readJSON file w' = (Ok (BackupDoc d), w')
       /\ Backup.backup_timestamp d = clock w (S (clock_reads w))
       /\ (isTest = false -> Backup.note d = None)
       /\ (isTest = true -> exists n, Backup.note d = Some n /\ n <> []).
Proof.
  intros H. cbv zeta. unfold createBackup in H.
  apply try_catch_Some in H.
  apply bind_Ok in H as [[] [w1 [D H]]].
  apply bind_Ok in H as [timestamp [w2 [G H]]].
  apply bind_Ok in H as [now [w3 [C H]]].
  apply bind_Ok in H as [[] [w4 [W H]]].
  match type of D with
  | createBackupDirectory ?p _ = _ =>
      pose proof (timing_createBackupDirectory p w) as T
  end.
  rewrite D in T.
  unfold timing in T. simpl in T. injection T as _ Tc Tr.
  unfold generateBackupTimestamp, bind, toISOString_now, ret in G.
  injection G as <- <-.
  unfold toISOString_now in C. simpl in C. injection C as <- <-.
  apply writeFileSync_readJSON in W. cbv beta iota in W.
  injection H as <- <-.
  rewrite Tc, Tr in *. split; [reflexivity|].
  eexists. split; [exact W|]. simpl.
  split; [reflexivity|]. split.
  - intros ->. reflexivity.
  - intros ->. destruct (note options) as [[|c n]|]; eexists; split;
      try reflexivity; discriminate.
Qed.

Lemma createBackup_file_name_witness :
  str "./test-backups/acme/widgets/test-backup-2025-01-01T00-00-00-000Z.json"
  = ((if opt_eqb (Some (str "test")) (Some (str "test"))
      then str "./test-backups" else str "./backups")
       ++ str "/" ++ str "acme" ++ str "/" ++ str "widgets")
      ++ str "/"
      ++ (if opt_eqb (Some (str "test")) (Some (str "test"))
          then str "test-backup" else str "releases-backup")
      ++ str "-" ++ fileNameSafe (clock example_world (clock_reads example_world))
      ++ str ".json".
Proof.
  apply (createBackup_file_name (str "acme") (str "widgets") [example_v1_0]
           (mkOptions (Some (str "test")) None) example_world
           (snd (createTestBackup (str "acme") (str "widgets") [example_v1_0]
                   example_world))).
  vm_compute. reflexivity.
Defined.

(** ** A disk that refuses writes *)

Lemma frozen_ret {A} (a : A) : frozen (ret a).
Proof. now intros w. Qed.

Lemma frozen_bind {A B} (m : M A) (k : A -> M B) :
  frozen m -> (forall a, frozen (k a)) -> frozen (bind m k).
Proof.
  intros Hm Hk w W. unfold bind. specialize (Hm w W).
  destruct (m w) as [[a|e] w1]; simpl in *; [|exact Hm].
  destruct Hm as [C W1]. destruct (Hk a w1 W1) as [C2 W2].
  split; congruence.
Qed.

Lemma frozen_try_catch {A} (m : M A) h :
  frozen m -> (forall e, frozen (h e)) -> frozen (try_catch m h).
Proof.
  intros Hm Hh w W. unfold try_catch. specialize (Hm w W).
  destruct (m w) as [[a|e] w1]; simpl in *; [exact Hm|].
  destruct Hm as [C W1]. destruct (Hh e w1 W1) as [C2 W2].
  split; congruence.
Qed.

Lemma frozen_for_each {A S} (xs : list A) (body : A -> S -> M S) acc :
  (forall x a, frozen (body x a)) -> frozen (for_each xs body acc).
Proof.
  intros Hb. revert acc; induction xs as [|x xs IH]; intros acc; simpl.
  - apply frozen_ret.
  - apply frozen_bind; [apply Hb|apply IH].
Qed.

Lemma frozen_if {A} (b : bool) (m1 m2 : M A) :
  frozen m1 -> frozen m2 -> frozen (if b then m1 else m2).
Proof. now destruct b. Qed.

Lemma frozen_existsSync p : frozen (existsSync p).
Proof. now intros w. Qed.

Lemma frozen_statSync p : frozen (statSync p).
Proof. intros w W. unfold statSync. now destruct (lookup _ _). Qed.

Lemma frozen_readdirSync p : frozen (readdirSync p).
Proof. intros w W. unfold readdirSync. now destruct (lookup _ _) as [[|]|]. Qed.

Lemma frozen_mkdirSync p : frozen (mkdirSync p).
Proof. intros w W. unfold mkdirSync. now rewrite W. Qed.

Lemma frozen_writeFileSync p d : frozen (writeFileSync p d).
Proof. intros w W. unfold writeFileSync. now rewrite W. Qed.

Lemma frozen_toISOString_now : frozen toISOString_now.
Proof. now intros w. Qed.

Create HintDb frozen.
#[local] Hint Resolve frozen_ret frozen_existsSync frozen_statSync frozen_readdirSync
  frozen_mkdirSync frozen_writeFileSync frozen_toISOString_now : frozen.

Ltac frozen_steps :=
  repeat first
    [ apply frozen_try_catch; intros
    | apply frozen_bind; intros
    | apply frozen_for_each; intros
    | apply frozen_if
    | match goal with |- frozen (match ?x with _ => _ end) => destruct x end
    | solve [auto with frozen] ].

Lemma frozen_createBackup owner repo releases options :
  frozen (createBackup owner repo releases options).
Proof.
  unfold createBackup, createBackupDirectory, generateBackupTimestamp. frozen_steps.
Qed.

Lemma frozen_createBackupIndex stat_size : frozen (createBackupIndex stat_size).
Proof.
  unfold createBackupIndex, subdirectories, backupFilesOf.
  apply frozen_try_catch; [|intros; apply frozen_ret].
  apply frozen_bind; [apply frozen_toISOString_now|intros created].
  apply frozen_bind; [apply frozen_existsSync|intros e].
  apply frozen_bind; [|intros; apply frozen_bind;
                        [apply frozen_writeFileSync|intros; apply frozen_ret]].
  apply frozen_if; [|apply frozen_ret].
  frozen_steps.
Qed.

Lemma createBackupIndex_total stat_size w :
  exists indexFile,
    createBackupIndex stat_size w
    = (Ok indexFile, snd (createBackupIndex stat_size w)).
Proof. unfold createBackupIndex. apply try_catch_ret_total. Qed.

Lemma writeFileSync_writable p d w w' :
  writeFileSync p d w = (Ok tt, w') -> writable w' = true.
Proof.
  unfold writeFileSync. destruct (writable w) eqn:W; [|discriminate].
  destruct (write_file _ _ _); [|discriminate]. intros [= <-]. exact W.
Qed.

(** X18. On a disk that refuses every write, [createBackup] and
    [createBackupIndex] return no path and leave the disk as it is. *)
Theorem backup_fails_on_read_only_disk
  (stat_size : node -> N) (owner repo : jsstring) (releases : list Release.t)
  (options : BackupOptions) (w : World) :
  writable w = false ->
  fst (createBackup owner repo releases options w) = Ok None
  /\ cwd (snd (createBackup owner repo releases options w)) = cwd w
  /\ fst (createBackupIndex stat_size w) = Ok None
  /\ cwd (snd (createBackupIndex stat_size w)) = cwd w.
Proof.
  intros W.
  destruct (frozen_createBackup owner repo releases options w W) as [C1 W1].
  destruct (frozen_createBackupIndex stat_size w W) as [C2 W2].
  repeat split; try assumption.
  - destruct (createBackup_total owner repo releases options w) as [[file|] E];
      rewrite E; [|reflexivity].
    apply createBackup_written in E as [w3 [now [note K]]].
    apply writeFileSync_writable in K. congruence.
  - destruct (createBackupIndex_total stat_size w) as [[file|] E];
      rewrite E; [|reflexivity].
    remember (snd (createBackupIndex stat_size w)) as w' eqn:Hw'.
    unfold createBackupIndex in E. apply try_catch_Some in E.
    apply bind_Ok in E as [created [v1 [_ E]]].
    apply bind_Ok in E as [e [v2 [_ E]]].
    apply bind_Ok in E as [idx [v3 [_ E]]].
    apply bind_Ok in E as [[] [v4 [K E]]].
    injection E as _ Ew. apply writeFileSync_writable in K. congruence.
Qed.

Lemma backup_fails_on_read_only_disk_witness :
  fst (createBackup (str "acme") (str "widgets") [example_v1_0] (mkOptions None None)
         example_world_read_only) = Ok None
  /\ cwd (snd (createBackup (str "acme") (str "widgets") [example_v1_0]
                 (mkOptions None None) example_world_read_only))
     = cwd example_world_read_only
  /\ fst (createBackupIndex example_size example_world_read_only) = Ok None
  /\ cwd (snd (createBackupIndex example_size example_world_read_only))
     = cwd example_world_read_only.
Proof.
  apply (backup_fails_on_read_only_disk example_size (str "acme") (str "widgets")
           [example_v1_0] (mkOptions None None) example_world_read_only).
  reflexivity.
Defined.

(** ** What the index lists *)

Lemma backupFilesOf_entries stat_size dir w files w' :
  backupFilesOf stat_size dir w = (Ok files, w') -> Forall (entry_of dir) files.
Proof.
  unfold backupFilesOf. intros H.
  apply bind_Ok in H as [names [w1 [_ H]]].
  revert H. apply for_each_preserves_in; [|constructor].
  intros file acc v acc' v' I Hacc B.
  apply bind_Ok in B as [n [v1 [_ B]]]. injection B as <- _.
  apply Forall_app. split; [exact Hacc|].
  constructor; [|constructor].
  apply filter_In in I as [_ I]. now split.
Qed.

(** X19. In the index document that [createBackupIndex] writes,
    [total_repositories] is the number of repositories listed, and every
    file listed for a repository has a name that ends with [.json] and the
    path [./backups/owner/repo/name]. *)
Theorem backup_index_counts_and_lists
  (stat_size : node -> N) (w w' : World) (indexFile : jsstring) :
  createBackupIndex stat_size w = (Ok (Some indexFile), w') ->
  exists i,
    readJSON indexFile w' = (Ok (IndexDoc i), w')
    /\ Index.total_repositories i = length (Index.repositories i)
    /\ Forall repo_entries_ok (Index.repositories i).
Proof.
  intros H. unfold createBackupIndex in H.
  apply try_catch_Some in H.
  apply bind_Ok in H as [created [w1 [_ H]]].
  apply bind_Ok in H as [e [w2 [_ H]]].
  apply bind_Ok in H as [backupIndex [w3 [B H]]].
  apply bind_Ok in H as [[] [w4 [W H]]].
  injection H as <- <-.
  exists backupIndex. split; [apply writeFileSync_readJSON in W; exact W|].
  set (P := fun i => Index.total_repositories i = length (Index.repositories i)
                     /\ Forall repo_entries_ok (Index.repositories i)).
  change (P backupIndex).
  destruct e.
  - apply bind_Ok in B as [ownerDirs [w5 [_ B]]].
    revert B. apply (for_each_preserves P); [|now split].
    intros ownerDir acc v acc' v' Hacc Hb.
    apply bind_Ok in Hb as [repoDirs [v1 [_ Hb]]].
    revert Hb. apply (for_each_preserves P); [|exact Hacc].
    intros repoDir acc1 u acc1' u' [Hn Hf] Hb1.
    apply bind_Ok in Hb1 as [backupFiles [u1 [F Hb1]]].
    injection Hb1 as <- _. unfold P. simpl. split.
    + rewrite length_app, Hn. simpl. lia.
    + apply Forall_app. split; [exact Hf|].
      constructor; [|constructor].
      unfold repo_entries_ok. simpl.
      apply (backupFilesOf_entries _ _ _ _ _ F).
  - injection B as <- _. now split.
Qed.

Lemma backup_index_counts_and_lists_witness :
  exists i,
    readJSON (str "./backups/backup-index.json") example_world_indexed
    = (Ok (IndexDoc i), example_world_indexed)
    /\ Index.total_repositories i = length (Index.repositories i)
    /\ Forall repo_entries_ok (Index.repositories i).
Proof.
  apply (backup_index_counts_and_lists example_size example_world_after_runs
           example_world_indexed (str "./backups/backup-index.json")).
  vm_compute. reflexivity.
Defined.

(** ** Where the scripts write *)

Lemma lookup_cons n k p :
  lookup n (k :: p)
  = match lookup n [k] with
    | Some n' => lookup n' p
    | None => None
    end.
Proof.
  simpl. destruct n as [|es]; [reflexivity|]. now destruct (assoc k es).
Qed.

Lemma keeps_disk_entry {A} (m : M A) k : keeps_disk m -> preserves (entry_at k) m.
Proof. intros H w. unfold entry_at. now rewrite H. Qed.

Lemma rooted_app c a b : rooted c (a ++ b) -> rooted c a.
Proof. now destruct a. Qed.

Lemma mkdir_p_entry c k p n n' :
  rooted c p -> k <> c -> mkdir_p n p = Some n' -> lookup n' [k] = lookup n [k].
Proof.
  destruct p as [|h p]; simpl; intros R N H.
  - destruct n; [discriminate|]. now injection H as <-.
  - subst h. destruct n as [|es]; [discriminate|].
    destruct (mkdir_p _ p); [|discriminate]. injection H as <-.
    simpl. now rewrite assoc_set_entry_other.
Qed.

Lemma write_file_entry c k p d n n' :
  rooted c p -> k <> c -> write_file n p d = Some n' -> lookup n' [k] = lookup n [k].
Proof.
  destruct p as [|h p]; simpl; intros R N H; [discriminate|].
  subst h. destruct n as [|es]; [discriminate|].
  destruct p as [|h' p].
  - destruct (assoc c es) as [[|]|]; try discriminate;
      injection H as <-; simpl; now rewrite assoc_set_entry_other.
  - destruct (assoc c es) as [n0|]; [|discriminate].
    destruct (write_file n0 (h' :: p) d); [|discriminate]. injection H as <-.
    simpl. now rewrite assoc_set_entry_other.
Qed.

Lemma mkdirSync_entry c k p :
  rooted c (components p) -> k <> c -> preserves (entry_at k) (mkdirSync p).
Proof.
  intros R N w. unfold mkdirSync. destruct (writable w); [|reflexivity].
  destruct (mkdir_p _ _) eqn:E; [|reflexivity].
  unfold entry_at. simpl. apply (mkdir_p_entry c k _ _ _ R N E).
Qed.

Lemma writeFileSync_entry c k p d :
  rooted c (components p) -> k <> c -> preserves (entry_at k) (writeFileSync p d).
Proof.
  intros R N w. unfold writeFileSync. destruct (writable w); [|reflexivity].
  destruct (write_file _ _ _) eqn:E; [|reflexivity].
  unfold entry_at. simpl. apply (write_file_entry c k _ _ _ _ R N E).
Qed.

Lemma bind_entry {X A B} (f : World -> X) (m : M A) (k : A -> M B) w :
  f (snd (m w)) = f w ->
  (forall a w1, m w = (Ok a, w1) -> f (snd (k a w1)) = f w1) ->
  f (snd (bind m k w)) = f w.
Proof.
  unfold bind. destruct (m w) as [[a|e] w1]; simpl; intros H1 H2; [|exact H1].
  now rewrite (H2 a w1 eq_refl).
Qed.

Lemma components_step cur dir :
  existsb (Ascii.eqb "/") dir = false ->
  components (cur ++ match cur with [] => [] | _ :: _ => str "/" end ++ dir)
  = components cur ++ filter named [dir].
Proof.
  intros Hd. destruct cur as [|x cur].
  - simpl app. rewrite (components_piece _ Hd). simpl. now destruct (named dir).
  - rewrite components_app, (components_piece _ Hd). simpl. now destruct (named dir).
Qed.

Lemma directory_loop_entry c k dirs :
  k <> c ->
  Forall (fun piece => existsb (Ascii.eqb "/") piece = false) dirs ->
  forall cur w,
    rooted c (components cur ++ filter named dirs) ->
    entry_at k (snd (directory_loop dirs cur w)) = entry_at k w.
Proof.
  intros N. induction 1 as [|dir dirs Hd _ IH]; intros cur w R; [reflexivity|].
  destruct dir as [|c0 d].
  - change (directory_loop ([] :: dirs) cur w) with (directory_loop dirs cur w).
    apply IH. exact R.
  - set (next := cur ++ match cur with [] => [] | _ :: _ => str "/" end ++ c0 :: d).
    pose proof (components_step cur (c0 :: d) Hd) as Pn. fold next in Pn.
    change ((c0 :: d) :: dirs) with ([c0 :: d] ++ dirs) in R.
    rewrite filter_app, app_assoc in R.
    assert (R1 : rooted c (components next ++ filter named dirs))
      by (rewrite Pn; exact R).
    change (directory_loop ([c0 :: d] ++ dirs) cur w)
      with (bind (e <- existsSync next ;;
                  (if e then ret tt else mkdirSync next) ;;;
                  ret next)
                 (directory_loop dirs) w).
    apply bind_entry.
    + apply preserves_bind; [apply keeps_disk_entry, keeps_disk_existsSync|intros e].
      apply preserves_bind; [|intros; apply preserves_ret].
      apply preserves_if; [apply preserves_ret|].
      apply (mkdirSync_entry c); [|exact N]. apply (rooted_app _ _ _ R1).
    + intros a w1 B.
      apply bind_Ok in B as [e [v [_ B]]].
      apply bind_Ok in B as [[] [v1 [_ B]]].
      injection B as <- <-. apply IH. exact R1.
Qed.

Lemma createBackupDirectory_entry c k p :
  rooted c (components p) -> k <> c -> preserves (entry_at k) (createBackupDirectory p).
Proof.
  intros R N w. unfold createBackupDirectory.
  apply bind_entry; [|reflexivity].
  apply (directory_loop_entry c k _ N (split_pieces "/"%char p) [] w). exact R.
Qed.

Lemma keeps_disk_toISOString_now : keeps_disk toISOString_now.
Proof. now intros w. Qed.

Lemma writes_under_createBackup owner repo releases options :
  writes_under (backup_root options) (createBackup owner repo releases options).
Proof.
  intros k N. unfold createBackup, backup_root in *.
  apply preserves_try_catch; [|intros; apply preserves_ret].
  cbv zeta.
  apply preserves_bind;
    [apply (createBackupDirectory_entry _ k _) with (2 := N);
     rewrite components_app; now destruct (opt_eqb _ _)|intros _].
  apply preserves_bind; [|intros timestamp].
  { unfold generateBackupTimestamp.
    apply preserves_bind; [apply keeps_disk_entry, keeps_disk_toISOString_now|].
    intros; apply preserves_ret. }
  apply preserves_bind; [apply keeps_disk_entry, keeps_disk_toISOString_now|intros now].
  apply preserves_bind; [|intros; apply preserves_ret].
  apply (writeFileSync_entry _ k) with (2 := N).
  rewrite !components_app. now destruct (opt_eqb _ _).
Qed.

Lemma writes_under_createBackupIndex stat_size :
  writes_under (str "backups") (createBackupIndex stat_size).
Proof.
  intros k N. unfold createBackupIndex.
  apply preserves_try_catch; [|intros; apply preserves_ret].
  apply preserves_bind; [apply keeps_disk_entry, keeps_disk_toISOString_now|intros created].
  apply preserves_bind; [apply keeps_disk_entry, keeps_disk_existsSync|intros e].
  apply preserves_bind; [|intros backupIndex].
  { apply keeps_disk_entry. destruct e; [|apply keeps_disk_ret].
    apply keeps_disk_bind; [apply keeps_disk_subdirectories|intros ownerDirs].
    apply keeps_disk_for_each. intros ownerDir acc.
    apply keeps_disk_bind; [apply keeps_disk_subdirectories|intros repoDirs].
    apply keeps_disk_for_each. intros repoDir acc1.
    apply keeps_disk_bind; [apply keeps_disk_backupFilesOf|intros].
    apply keeps_disk_ret. }
  apply preserves_bind; [|intros; apply preserves_ret].
  now apply (writeFileSync_entry (str "backups") k).
Qed.

Lemma writes_under_processRepositoryReleases m owner repo :
  writes_under (str "backups") (processRepositoryReleases m owner repo).
Proof.
  intros k N. unfold processRepositoryReleases.
  apply preserves_try_catch; [|intros; apply preserves_ret].
  apply preserves_bind; [|intros releases].
  { apply keeps_disk_entry. unfold getAllReleases. keeps_disk_steps. }
  apply preserves_if; [apply preserves_ret|].
  apply preserves_bind; [|intros backupFile].
  { unfold backupReleaseNotes.
    apply preserves_try_catch; [|intros; apply preserves_ret].
    now apply (writes_under_createBackup owner repo releases
                 (mkOptions (Some (str "release")) None)). }
  apply preserves_bind; [|intros; apply preserves_ret].
  apply keeps_disk_entry. apply (keeps_disk_update_loop m owner repo releases 0).
Qed.

(** X20. The backup manager and the update run write in one place. For an
    owner and a repository name without [..]: a test backup changes nothing
    outside [./test-backups]; a release backup and a run of
    [processRepositoryReleases] change nothing outside [./backups]. The
    index changes nothing outside [./backups] either. What a path that
    starts elsewhere names is the same before and after. *)
Theorem backups_stay_under_their_root
  (stat_size : node -> N) (m : mapping) (owner repo : jsstring)
  (releases : list Release.t) (options : BackupOptions) (w : World)
  (k : jsstring) (p : list jsstring) :
  (k <> str "backups" ->
   lookup (cwd (snd (createBackupIndex stat_size w))) (k :: p)
   = lookup (cwd w) (k :: p))
  /\ (dotdot_free owner = true -> dotdot_free repo = true ->
      (k <> backup_root options ->
       lookup (cwd (snd (createBackup owner repo releases options w))) (k :: p)
       = lookup (cwd w) (k :: p))
      /\ (k <> str "backups" ->
          lookup (cwd (snd (processRepositoryReleases m owner repo w))) (k :: p)
          = lookup (cwd w) (k :: p))).
Proof.
  split; [|intros _ _; split]; intros N;
    rewrite lookup_cons; symmetry; rewrite lookup_cons; symmetry.
  - pose proof (writes_under_createBackupIndex stat_size k N w) as E.
    unfold entry_at in E. now rewrite E.
  - pose proof (writes_under_createBackup owner repo releases options k N w) as E.
    unfold entry_at in E. now rewrite E.
  - pose proof (writes_under_processRepositoryReleases m owner repo k N w) as E.
    unfold entry_at in E. now rewrite E.
Qed.

Lemma backups_stay_under_their_root_witness :
  lookup (cwd (snd (createBackup (str "acme") (str "widgets") [example_v1_0]
                      (mkOptions (Some (str "test")) None) example_world_after_runs)))
    [str "backups"; str "acme"; str "widgets"]
  = lookup (cwd example_world_after_runs) [str "backups"; str "acme"; str "widgets"].
Proof.
  apply (proj1 (proj2 (backups_stay_under_their_root example_size example_mapping
                         (str "acme") (str "widgets") [example_v1_0]
                         (mkOptions (Some (str "test")) None)
                         example_world_after_runs (str "backups")
                         [str "acme"; str "widgets"])
                 eq_refl eq_refl)).
  vm_compute. discriminate.
Defined.

(** ** The dry run *)




(** ** The update script as a whole *)

Lemma for_each_counted {A T} (P : nat -> T -> Prop) (body : A -> T -> M T) xs :
  (forall x acc w n, P n acc ->
     exists acc' w', body x acc w = (Ok acc', w') /\ P (S n) acc') ->
  forall acc w n, P n acc ->
    exists acc' w', for_each xs body acc w = (Ok acc', w') /\ P (length xs + n) acc'.
Proof.
  intros Hb. induction xs as [|x xs IH]; intros acc w n H; simpl.
  - now exists acc, w.
  - destruct (Hb x acc w n H) as [a [w1 [E H1]]].
    destruct (IH a w1 (S n) H1) as [acc' [w' [E' H']]].
    exists acc', w'. split; [now rewrite (bind_eq _ _ _ _ _ E)|].
    now rewrite Nat.add_succ_r in H'.
Qed.

Lemma getWhitelistedRepositories_length whitelist reposGet owner w :
  exists repos w',
    UpdateScript.getWhitelistedRepositories whitelist reposGet owner w = (Ok repos, w')
    /\ length repos <= length whitelist.
Proof.
  destruct (for_each_counted (fun n (acc : list Repo.t) => length acc <= n)
              (fun repoName verifiedRepos =>
                 try_catch
                   (repo <- reposGet owner repoName ;;
                    ret (verifiedRepos
                           ++ [Repo.mk (Repo.name repo) (Repo.full_name repo)
                                 (Repo.private repo) (Repo.archived repo)
                                 (Repo.disabled repo)]))
                   (fun _ => ret verifiedRepos))
              whitelist) with (acc := @nil Repo.t) (w := w) (n := 0)
    as [repos [w' [E L]]].
  - intros x acc v n H. unfold try_catch, bind, ret.
    destruct (reposGet owner x v) as [[repo|e] v1].
    + eexists _, _. split; [reflexivity|]. rewrite length_app. simpl. lia.
    + eexists _, _. split; [reflexivity|]. lia.
  - simpl. lia.
  - exists repos, w'. split; [|lia].
    unfold UpdateScript.getWhitelistedRepositories. now apply try_catch_Ok.
Qed.

Lemma process_bounds m owner repo w :
  exists result w',
    processRepositoryReleases m owner repo w = (Ok result, w')
    /\ error result = false
    /\ updated result <= processed result
    /\ processed result <= 100.
Proof.
  pose proof (fetched_length owner repo w) as Len.
  destruct (process_run m owner repo w) as [[E P]|[N [bf [w2 [n [w3 [B [L P]]]]]]]].
  - eexists _, _. split; [exact P|]. simpl. repeat split; lia.
  - eexists _, _. split; [exact P|]. simpl.
    destruct (update_loop_effect m owner repo (fetched owner repo w) 0 w2)
      as [n' [w3' [L' [_ [_ U]]]]].
    unfold update_loop in L. rewrite L in L'. injection L' as <- <-.
    pose proof (filter_length_le (needs_update m) (fetched owner repo w)) as F.
    repeat split; lia.
Qed.

Lemma try_catch_bind_eq {A B} (m : M A) (k : A -> M B) h w a w1 :
  m w = (Ok a, w1) -> try_catch (bind m k) h w = try_catch (k a) h w1.
Proof. intros E. unfold try_catch, bind. now rewrite E. Qed.

(** X22. The update script never ends on its fatal-error branch. With no
    repository verified it ends at once; otherwise its summary counts the
    verified repositories, no more than the whitelist names, reports no
    error, no more releases updated than processed, and at most 100
    releases processed per repository. *)
Theorem update_summary_counts
  (stat_size : node -> N) (m : mapping) (whitelist : list jsstring)
  (owner : jsstring) (reposGet : jsstring -> jsstring -> M Repo.t) (w : World) :
  exists repos,
    fst (UpdateScript.getWhitelistedRepositories whitelist reposGet owner w) = Ok repos
    /\ length repos <= length whitelist
    /\ match repos with
       | [] => fst (UpdateScript.main stat_size m whitelist owner reposGet w)
               = Ok UpdateScript.NoRepositories
       | _ :: _ =>
           exists totalProcessed totalUpdated,
             fst (UpdateScript.main stat_size m whitelist owner reposGet w)
             = Ok (UpdateScript.Summary (length repos) totalProcessed totalUpdated 0)
             /\ totalUpdated <= totalProcessed
             /\ totalProcessed <= 100 * length repos
       end.
Proof.
  destruct (getWhitelistedRepositories_length whitelist reposGet owner w)
    as [repos [w1 [E Len]]].
  exists repos. rewrite E. split; [reflexivity|]. split; [exact Len|].
  unfold UpdateScript.main. rewrite (try_catch_bind_eq _ _ _ _ _ _ E).
  destruct repos as [|r0 rs]; [reflexivity|].
  cbn [length Nat.eqb]. change (S (length rs)) with (length (r0 :: rs)).
  set (repos := r0 :: rs) in *.
  destruct (for_each_counted totals_within
              (fun (repo : Repo.t) '(totalProcessed, totalUpdated, totalErrors) =>
                 result <- processRepositoryReleases m owner (Repo.name repo) ;;
                 ret (totalProcessed + processed result,
                      totalUpdated + updated result,
                      if error result then S totalErrors else totalErrors))
              repos) with (acc := (0, 0, 0)) (w := w1) (n := 0)
    as [[[tp tu] te] [w2 [L [Te [Tu Tp]]]]].
  - intros x [[tp tu] te] v n [Te [Tu Tp]].
    destruct (process_bounds m owner (Repo.name x) v) as [result [v1 [P [Er [U Pr]]]]].
    eexists _, _. split; [now rewrite (bind_eq _ _ _ _ _ P)|].
    unfold totals_within. rewrite Er. repeat split; lia.
  - unfold totals_within. repeat split; lia.
  - destruct (createBackupIndex_total stat_size w2) as [indexFile I].
    exists tp, tu. split; [|split; [exact Tu|]].
    + unfold try_catch.
      rewrite (bind_eq _ _ _ _ _ L), (bind_eq _ _ _ _ _ I).
      subst te. reflexivity.
    + rewrite Nat.add_0_r in Tp. exact Tp.
Qed.

Lemma sends_only_quiet {A} ok (m : M A) : quiet m -> sends_only ok m.
Proof.
  intros Q w. exists []. destruct (Q w) as [E _].
  rewrite E, app_nil_r. now split.
Qed.

Lemma sends_only_bind {A B} ok (m : M A) (k : A -> M B) :
  sends_only ok m -> (forall a, sends_only ok (k a)) -> sends_only ok (bind m k).
Proof.
  intros Hm Hk w. unfold bind. destruct (Hm w) as [e1 [E1 F1]].
  destruct (m w) as [[a|e] w1]; simpl in *; [|now exists e1].
  destruct (Hk a w1) as [e2 [E2 F2]]. exists (e1 ++ e2).
  rewrite E2, E1, app_assoc. split; [reflexivity|]. apply Forall_app. now split.
Qed.

Lemma sends_only_try_catch {A} ok (m : M A) h :
  sends_only ok m -> (forall e, sends_only ok (h e)) -> sends_only ok (try_catch m h).
Proof.
  intros Hm Hh w. unfold try_catch. destruct (Hm w) as [e1 [E1 F1]].
  destruct (m w) as [[a|e] w1]; simpl in *; [now exists e1|].
  destruct (Hh e w1) as [e2 [E2 F2]]. exists (e1 ++ e2).
  rewrite E2, E1, app_assoc. split; [reflexivity|]. apply Forall_app. now split.
Qed.

Lemma sends_only_for_each {A S} ok (xs : list A) (body : A -> S -> M S) :
  (forall x a, In x xs -> sends_only ok (body x a)) ->
  forall acc, sends_only ok (for_each xs body acc).
Proof.
  induction xs as [|x xs IH]; intros Hb acc; simpl.
  - apply sends_only_quiet, quiet_ret.
  - apply sends_only_bind; [apply Hb; now left|].
    intros a. apply IH. intros y b I. apply Hb. now right.
Qed.

Lemma sends_only_processRepositoryReleases (ok : Request -> Prop) m owner repo :
  (forall r, request_target r = (owner, repo) -> ok r) ->
  sends_only ok (processRepositoryReleases m owner repo).
Proof.
  intros Hok. unfold processRepositoryReleases.
  apply sends_only_try_catch; [|intros; apply sends_only_quiet, quiet_ret].
  apply sends_only_bind; [|intros releases].
  { unfold getAllReleases.
    apply sends_only_try_catch; [|intros; apply sends_only_quiet, quiet_ret].
    intros w. exists [ListReleases owner repo 100].
    split; [apply listReleases_requests|]. constructor; [now apply Hok|constructor]. }
  destruct (length releases =? 0); [apply sends_only_quiet, quiet_ret|].
  apply sends_only_bind; [|intros backupFile].
  { apply sends_only_quiet. unfold backupReleaseNotes.
    apply quiet_try_catch; [apply quiet_createBackup|intros; apply quiet_ret]. }
  apply sends_only_bind; [|intros; apply sends_only_quiet, quiet_ret].
  apply sends_only_for_each. intros release n _.
  apply sends_only_bind; [|intros; apply sends_only_quiet, quiet_ret].
  unfold updateRelease.
  apply sends_only_try_catch; [|intros; apply sends_only_quiet, quiet_ret].
  cbv zeta. destruct (opt_eqb _ _); [apply sends_only_quiet, quiet_ret|].
  apply sends_only_bind; [|intros; apply sends_only_quiet, quiet_ret].
  intros w. eexists. split; [apply updateReleaseRequest_requests|].
  constructor; [now apply Hok|constructor].
Qed.

Lemma quiet_getWhitelistedRepositories whitelist reposGet owner :
  (forall o r, quiet (reposGet o r)) ->
  quiet (UpdateScript.getWhitelistedRepositories whitelist reposGet owner).
Proof.
  intros Hq. unfold UpdateScript.getWhitelistedRepositories.
  apply quiet_try_catch; [|intros; apply quiet_ret].
  apply quiet_for_each. intros repoName acc.
  apply quiet_try_catch; [|intros; apply quiet_ret].
  apply quiet_bind; [apply Hq|intros; apply quiet_ret].
Qed.

(** X23. When the verification call itself sends nothing that is recorded,
    every request of the update script, listing or update, is about a
    repository of [GITHUB_OWNER] under a name that the verification
    returned. *)
Theorem update_script_targets_verified_repositories
  (stat_size : node -> N) (m : mapping) (whitelist : list jsstring)
  (owner : jsstring) (reposGet : jsstring -> jsstring -> M Repo.t) (w : World) :
  (forall o r, quiet (reposGet o r)) ->
  exists repos,
    fst (UpdateScript.getWhitelistedRepositories whitelist reposGet owner w) = Ok repos
    /\ Forall (fun r => fst (request_target r) = owner
                        /\ In (snd (request_target r)) (map Repo.name repos))
         (issued_since w (snd (UpdateScript.main stat_size m whitelist owner reposGet w))).
Proof.
  intros Hq.
  destruct (getWhitelistedRepositories_length whitelist reposGet owner w)
    as [repos [w1 [E _]]].
  exists repos. rewrite E. split; [reflexivity|].
  destruct (quiet_getWhitelistedRepositories whitelist reposGet owner Hq w) as [Q _].
  rewrite E in Q. simpl in Q.
  unfold UpdateScript.main. rewrite (try_catch_bind_eq _ _ _ _ _ _ E).
  set (ok := fun r => fst (request_target r) = owner
                      /\ In (snd (request_target r)) (map Repo.name repos)).
  match goal with
  | |- Forall _ (issued_since w (snd (?run w1))) =>
      assert (S : sends_only ok run)
  end.
  { apply sends_only_try_catch; [|intros; apply sends_only_quiet, quiet_ret].
    destruct (length repos =? 0); [apply sends_only_quiet, quiet_ret|].
    apply sends_only_bind; [|intros totals].
    - apply sends_only_for_each. intros repo [[tp tu] te] I.
      apply sends_only_bind; [|intros; apply sends_only_quiet, quiet_ret].
      apply sends_only_processRepositoryReleases.
      intros r T. unfold ok. rewrite T. simpl. split; [reflexivity|].
      now apply in_map.
    - apply sends_only_bind; [|intros; apply sends_only_quiet, quiet_ret].
      apply sends_only_quiet, quiet_createBackupIndex. }
  destruct (S w1) as [extra [X F]].
  rewrite (issued_since_app w _ extra); [exact F|].
  now rewrite X, Q.
Qed.

Lemma update_script_targets_verified_repositories_witness :
  exists repos,
    fst (UpdateScript.getWhitelistedRepositories [str "gone"; str "widgets"]
           example_reposGet (str "acme") example_world) = Ok repos
    /\ Forall (fun r => fst (request_target r) = str "acme"
                        /\ In (snd (request_target r)) (map Repo.name repos))
         (issued_since example_world
            (snd (UpdateScript.main example_size example_mapping
                    [str "gone"; str "widgets"] (str "acme") example_reposGet
                    example_world))).
Proof.
  apply (update_script_targets_verified_repositories example_size example_mapping
           [str "gone"; str "widgets"] (str "acme") example_reposGet example_world).
  intros o r w. unfold example_reposGet.
  destruct (assoc _ _); simpl; repeat split.
Defined.

(** ** The restore tool's listing *)

(** X24. When [./backups/backup-index.json] holds an index document, the
    restore tool lists the repositories of that document and does not look
    at the backup directories: a backup written after the index is not
    listed until the index is written again. *)
Theorem restore_listing_reads_the_index
  (stat_size : node -> N) (w : World) (i : Index.t) :
  readJSON (str "./backups/backup-index.json") w = (Ok (IndexDoc i), w) ->
  listAvailableBackups stat_size w = (Ok (Index.repositories i), w).
Proof.
  intros H.
  assert (L : exists n, lookup (cwd w) (components (str "./backups/backup-index.json"))
                        = Some n).
  { unfold readJSON in H.
    destruct (lookup _ _) as [n|]; [now exists n|discriminate]. }
  destruct L as [n L].
  assert (B : exists b, lookup (cwd w) (components (str "./backups")) = Some b).
  { change (components (str "./backups/backup-index.json"))
      with [str "backups"; str "backup-index.json"] in L.
    change (components (str "./backups")) with [str "backups"].
    rewrite lookup_cons in L.
    destruct (lookup (cwd w) [str "backups"]) as [b|]; [now exists b|discriminate]. }
  destruct B as [b B].
  unfold listAvailableBackups. apply try_catch_Ok.
  unfold bind at 1. unfold existsSync at 1. rewrite B. cbn [negb].
  unfold bind at 1. unfold existsSync at 1. rewrite L.
  now rewrite (bind_eq _ _ _ _ _ H).
Qed.

Lemma restore_listing_reads_the_index_witness :
  exists i,
    readJSON (str "./backups/backup-index.json") example_world_indexed
    = (Ok (IndexDoc i), example_world_indexed)
    /\ listAvailableBackups example_size example_world_indexed
       = (Ok (Index.repositories i), example_world_indexed).
Proof.
  eexists. split; [vm_compute; reflexivity|].
  apply (restore_listing_reads_the_index example_size example_world_indexed).
  vm_compute. reflexivity.
Defined.

(** ** The engine and the RegExp it builds *)

(** C6 fails on the code: the old handle is interpolated into the source
    of the RegExp as it is, so with the key [x|alice] the pattern is the
    alternation of [@x] and [alice(?!-bob)\b], and a text without [@] is
    changed: the bare name [alice] becomes the mention [@bob]. *)
Theorem substitute_changes_text_without_at :
  no_at (str "Thanks alice for the fix") = true
  /\ RegExp.parse [] (RegExp.mk_frame [] []) (RegExp.source (str "x|alice") (str "bob"))
     = Some (RegExp.Alt
               (fold_right RegExp.Seq RegExp.Empty (map RegExp.Char (str "@x")))
               (fold_right RegExp.Seq RegExp.Empty
                  (map RegExp.Char (str "alice")
                   ++ [RegExp.NegativeLookahead
                         (fold_right RegExp.Seq RegExp.Empty
                            (map RegExp.Char (str "-bob")));
                       RegExp.WordBoundary])))
  /\ RegExp.updateUsernamesInReleaseNotes (Some (str "Thanks alice for the fix"))
       [(str "x|alice", str "bob")]
     = Some (Some (str "Thanks @bob for the fix")).
Proof. vm_compute. repeat split. Qed.

(** What a match passes is the beginning of the text. *)
Lemma matches_suffix p :
  forall X prev s (k : option ascii -> jsstring -> option X) x,
    RegExp.matches X p prev s k = Some x ->
    exists m rest prev', s = m ++ rest /\ k prev' rest = Some x.
Proof.
  induction p as [|c|p IHp q IHq|p IHp q IHq|p IHp|]; intros X prev s k x H; simpl in H.
  - now exists [], s, prev.
  - destruct s as [|c' s']; [discriminate|].
    destruct (Ascii.eqb c c'); [|discriminate].
    now exists [c'], s', (Some c').
  - apply IHp in H as [m1 [r1 [p1 [-> H]]]].
    apply IHq in H as [m2 [r2 [p2 [-> H]]]].
    exists (m1 ++ m2), r2, p2. now rewrite app_assoc.
  - destruct (RegExp.matches X p prev s k) eqn:E.
    + injection H as ->. now apply IHp in E.
    + now apply IHq in H.
  - destruct (RegExp.matches unit p prev s _); [discriminate|].
    now exists [], s, prev.
  - destruct (word_boundary _ _); [|discriminate].
    now exists [], s, prev.
Qed.

Lemma regexp_exec_at_suffix p prev s rest :
  RegExp.exec_at p prev s = Some rest -> exists m, s = m ++ rest.
Proof.
  intros H. apply matches_suffix in H as [m [r [p' [-> H]]]].
  injection H as ->. now exists m.
Qed.

Lemma handle_char_literal c :
  handle_char c = true -> RegExp.syntax_character c = false.
Proof.
  destruct c as [[] [] [] [] [] [] [] []]; vm_compute; intros H;
    first [reflexivity | discriminate H].
Qed.

Lemma parse_literal c stack cur s :
  handle_char c = true ->
  RegExp.parse stack cur (c :: s)
  = RegExp.parse stack
      (RegExp.mk_frame (RegExp.closed cur) (RegExp.Char c :: RegExp.terms cur)) s.
Proof.
  destruct c as [[] [] [] [] [] [] [] []]; intros H; vm_compute in H;
    first [discriminate H | reflexivity].
Qed.

Lemma parse_handle h : forall stack cur s,
  handle h = true ->
  RegExp.parse stack cur (h ++ s)
  = RegExp.parse stack
      (RegExp.mk_frame (RegExp.closed cur)
         (rev (map RegExp.Char h) ++ RegExp.terms cur)) s.
Proof.
  induction h as [|c h IH]; intros stack cur s H.
  - now destruct cur.
  - apply handle_cons in H as [Hc Hh]. cbn [app].
    rewrite (parse_literal c stack cur _ Hc), (IH _ _ _ Hh).
    cbn [RegExp.closed RegExp.terms map rev]. now rewrite <- app_assoc.
Qed.

Lemma alternative_rev l :
  RegExp.alternative (rev l) = fold_right RegExp.Seq RegExp.Empty l.
Proof.
  unfold RegExp.alternative.
  rewrite <- (rev_involutive l) at 2. now rewrite fold_left_rev_right.
Qed.

Lemma parse_source old new :
  handle old = true -> handle new = true ->
  RegExp.parse [] (RegExp.mk_frame [] []) (RegExp.source old new)
  = Some (mention_pattern old (last_segment new)).
Proof.
  intros Ho Hn. pose proof (handle_last_segment new Hn) as Hs.
  unfold RegExp.source.
  change (str "@" ++ old ++ str "(?!-" ++ last_segment new ++ str ")\b")
    with ("@"%char :: old
          ++ "("%char :: "?"%char :: "!"%char :: "-"%char
             :: last_segment new ++ [")"%char; "\"%char; "b"%char]).
  change (RegExp.parse [] (RegExp.mk_frame [] []) ("@"%char :: ?s))
    with (RegExp.parse [] (RegExp.mk_frame [] [RegExp.Char "@"]) s).
  rewrite (parse_handle old _ _ _ Ho).
  match goal with
  | |- RegExp.parse ?st ?c ("("%char :: "?"%char :: "!"%char :: ?s) = _ =>
      change (RegExp.parse st c ("("%char :: "?"%char :: "!"%char :: s))
        with (RegExp.parse (c :: st) (RegExp.mk_frame [] []) s)
  end.
  rewrite (parse_literal "-" _ _ _ eq_refl).
  rewrite (parse_handle (last_segment new) _ _ _ Hs).
  cbn [RegExp.parse RegExp.closed RegExp.terms RegExp.disjunction fold_left].
  f_equal. unfold mention_pattern.
  rewrite <- alternative_rev. f_equal.
  rewrite rev_app_distr. cbn [rev app map].
  rewrite <- alternative_rev. cbn [rev app map].
  reflexivity.
Qed.

Lemma last_cons_default (l : jsstring) : forall a d d',
  last (a :: l) d = last (a :: l) d'.
Proof.
  induction l as [|b l IH]; intros a d d'; [reflexivity|].
  change (last (b :: l) d = last (b :: l) d'). apply IH.
Qed.

Lemma after_last m d : after m (Some d) = Some (last m d).
Proof.
  revert d; induction m as [|c m IH]; intros d; [reflexivity|].
  unfold after in *. cbn [fold_left]. rewrite IH. f_equal.
  destruct m as [|a m]; [reflexivity|].
  change (last (c :: a :: m) d) with (last (a :: m) d).
  apply last_cons_default.
Qed.

Lemma matches_chars X l tail : forall prev s k,
  RegExp.matches X (fold_right RegExp.Seq tail (map RegExp.Char l)) prev s k
  = match strip_prefix l s with
    | Some rest => RegExp.matches X tail (after l prev) rest k
    | None => None
    end.
Proof.
  induction l as [|a l IH]; intros prev s k; [reflexivity|].
  cbn [map fold_right RegExp.matches strip_prefix].
  destruct s as [|c s]; [reflexivity|].
  destruct (Ascii.eqb_spec a c) as [->|N]; [|reflexivity].
  now rewrite IH.
Qed.

(** On handles the pattern matches where the literal reading does. *)
Lemma regexp_exec_at_mention old guard prev t :
  RegExp.exec_at (mention_pattern old guard) prev t = exec_at old guard t.
Proof.
  unfold RegExp.exec_at, mention_pattern, exec_at.
  rewrite fold_right_app, matches_chars.
  destruct (strip_prefix ("@"%char :: old) t) as [rest|]; [|reflexivity].
  cbn [fold_right RegExp.matches].
  rewrite (matches_chars unit ("-"%char :: guard) RegExp.Empty).
  unfold starts_with.
  destruct (strip_prefix ("-"%char :: guard) rest); [reflexivity|].
  cbn [RegExp.matches].
  change (after ("@"%char :: old) prev) with (after old (Some "@"%char)).
  now rewrite after_last.
Qed.

Lemma replace_global_inside p repl m : forall rest prev,
  RegExp.replace_global p repl prev (m ++ rest) (length m)
  = RegExp.replace_global p repl (after m prev) rest 0.
Proof.
  induction m as [|c m IH]; intros rest prev; [reflexivity|].
  cbn [app length RegExp.replace_global]. now rewrite IH.
Qed.

Lemma replace_global_mention old guard repl t : forall prev,
  RegExp.replace_global (mention_pattern old guard) repl prev t 0
  = replace_all old guard repl t.
Proof.
  induction t as [|c t IH] using text_ind; intros prev.
  - cbn [RegExp.replace_global]. rewrite regexp_exec_at_mention.
    now rewrite replace_all_nil.
  - cbn [RegExp.replace_global]. rewrite regexp_exec_at_mention.
    destruct (exec_at old guard (c :: t)) as [rest|] eqn:E.
    + rewrite (replace_all_match _ _ _ _ _ _ E).
      pose proof (exec_at_spec _ _ _ _ E) as S.
      injection S as -> ->.
      replace (length ("@"%char :: old ++ rest) - length rest) with (S (length old))
        by (cbn [length]; rewrite length_app; lia).
      rewrite replace_global_inside. f_equal. apply IH.
      rewrite length_app. lia.
    + rewrite (replace_all_skip _ _ _ _ _ E). f_equal. apply IH. lia.
Qed.

Lemma handle_no_dollar h : handle h = true -> existsb (Ascii.eqb "$") h = false.
Proof.
  induction h as [|c h IH]; intros H; [reflexivity|].
  apply handle_cons in H as [Hc Hh]. cbn [existsb]. rewrite (IH Hh).
  destruct (Ascii.eqb_spec "$"%char c) as [<-|]; [discriminate Hc|reflexivity].
Qed.

Lemma regexp_passes M : handles M = true -> forall t,
  fold_left
    (fun updatedBody '(oldUsername, newUsername) =>
       match updatedBody,
             RegExp.parse [] (RegExp.mk_frame [] [])
               (RegExp.source oldUsername newUsername) with
       | Some text, Some oldPattern =>
           if existsb (Ascii.eqb "$") newUsername then None
           else Some (RegExp.replace_global oldPattern ("@"%char :: newUsername)
                        None text 0)
       | _, _ => None
       end)
    M (Some t)
  = Some (passes M t).
Proof.
  induction M as [|[o n] M IH]; intros H t; [reflexivity|].
  destruct (handles_In ((o, n) :: M) o n H (or_introl eq_refl)) as [Ho Hn].
  assert (HM : handles M = true).
  { unfold handles in *. cbn [forallb] in H. now apply andb_true_iff in H. }
  cbn [fold_left].
  rewrite (parse_source o n Ho Hn), (handle_no_dollar n Hn).
  rewrite replace_global_mention, passes_cons. now apply IH.
Qed.

(** X25. For every mapping of handles (letters, digits, [_] and [-]), a
    text that contains no [@] is returned unchanged: every pattern is a
    mention pattern, which starts with [@]. *)
Theorem handles_without_at_unchanged (T : jsstring) (M : mapping) :
  handles M = true ->
  no_at T = true ->
  RegExp.updateUsernamesInReleaseNotes (Some T) M = Some (Some T).
Proof.
  intros H N. destruct T as [|c T]; [reflexivity|].
  unfold RegExp.updateUsernamesInReleaseNotes.
  rewrite (regexp_passes M H).
  pose proof (literal_without_at_unchanged (c :: T) M N) as L.
  rewrite update_Some in L. injection L as ->. reflexivity.
Qed.

Lemma handles_without_at_unchanged_witness :
  RegExp.updateUsernamesInReleaseNotes (Some (str "Thanks alice for the fix"))
    [(str "alice", str "bob")]
  = Some (Some (str "Thanks alice for the fix")).
Proof.
  apply (handles_without_at_unchanged (str "Thanks alice for the fix")
           [(str "alice", str "bob")]); reflexivity.
Defined.

(** X4. For a mapping of handles (letters, digits, [_] and [-]), a body
    in which the text [@old] occurs nowhere, for any old handle of the
    mapping, not even as the beginning of a longer handle, is returned
    unchanged. *)
Theorem substitute_unmapped_unchanged (T : jsstring) (M : mapping) :
  handles M = true ->
  forallb (fun e => negb (contains ("@"%char :: fst e) T)) M = true ->
  RegExp.updateUsernamesInReleaseNotes (Some T) M = Some (Some T).
Proof.
  intros H N. destruct T as [|c T]; [reflexivity|].
  unfold RegExp.updateUsernamesInReleaseNotes.
  rewrite (regexp_passes M H).
  pose proof (literal_unmapped_unchanged (c :: T) M N) as L.
  rewrite update_Some in L. injection L as ->. reflexivity.
Qed.

Lemma substitute_unmapped_unchanged_witness :
  RegExp.updateUsernamesInReleaseNotes
    (Some (str "Thanks @carol and alice@example.test"))
    [(str "alice", str "bob"); (str "dave", str "dave-7")]
  = Some (Some (str "Thanks @carol and alice@example.test")).
Proof.
  apply (substitute_unmapped_unchanged (str "Thanks @carol and alice@example.test")
           [(str "alice", str "bob"); (str "dave", str "dave-7")]); reflexivity.
Defined.

(** X26. For a mapping of handles (letters, digits, [_] and [-]) every
    source that the engine interpolates is a pattern that RegExp accepts,
    and replacing with the RegExp gives what replacing the literal mention
    gives: on handles, reading the handles literally is what the code does. *)
Theorem regexp_agrees_on_handles (body : option jsstring) (M : mapping) :
  handles M = true ->
  RegExp.updateUsernamesInReleaseNotes body M
  = Some (updateUsernamesInReleaseNotes body M).
Proof.
  intros H. destruct body as [[|c b]|]; try reflexivity.
  unfold RegExp.updateUsernamesInReleaseNotes.
  rewrite (regexp_passes M H), update_Some. reflexivity.
Qed.

Lemma regexp_agrees_on_handles_witness :
  RegExp.updateUsernamesInReleaseNotes (Some (str "Thanks @alice and alice"))
    example_mapping
  = Some (updateUsernamesInReleaseNotes (Some (str "Thanks @alice and alice"))
            example_mapping).
Proof.
  apply (regexp_agrees_on_handles (Some (str "Thanks @alice and alice")) example_mapping).
  reflexivity.
Defined.
